(** * amp-script: mutation synchronisation and admission control

    A shallow embedding of the two coordinator-side programs of the
    repository and the properties of its specification:

    - [Renderer]: the DOM mutation and event proxy (the worker-facing
      renderer: identity map [NODES], [createNode], [MUTATIONS], the
      mutation queue and its scheduler, [proxyEvent]);
    - [AmpScript]: [extensions/amp-script/0.1/amp-script.js]
      ([AmpScript.mutationPump_], [SanitizerImpl]).

    JavaScript state is threaded explicitly; a thrown exception is a
    result ([Throw]) that carries the state reached when it was raised.
    The browser (DOM tree, timers, clock) is modelled as far as the code
    observes it; third-party code (DOMPurify, layout) is a parameter. *)

From Stdlib Require Import ZArith QArith Ascii String List Bool Lia.
From stdpp Require Import base option list gmap strings.

Local Open Scope string_scope.
Local Open Scope list_scope.
Local Open Scope nat_scope.
Set Warnings "-register-all".

(* ================================================================== *)
(** * Part I: the embedding                                            *)
(* ================================================================== *)

(** ** JavaScript results *)

(** The exceptions the modelled code can raise. *)
Inductive JsError :=
  | TypeError            (* property access or call on null/undefined *)
  | ReferenceError       (* read of an undeclared identifier *)
  | HierarchyRequestError
  | NotFoundError
  | SanitizerError.      (* raised inside the third-party sanitizer *)

(** Outcome of a statement: a value, or a thrown exception. *)
Inductive Res (A : Type) :=
  | Ok (a : A)
  | Throw (e : JsError).
Arguments Ok {A} a.
Arguments Throw {A} e.

#[global] Instance JsError_eq_dec : EqDecision JsError.
Proof. solve_decision. Defined.

(** Rational comparisons, as booleans (numbers that JavaScript holds as
    doubles are rationals here). *)
Definition Qle_b (a b : Q) : bool := Qle_bool a b.
Definition Qlt_b (a b : Q) : bool := negb (Qle_bool b a).
Definition Qzero_b (a : Q) : bool := Qeq_bool a 0.

(** ASCII [String.prototype.toUpperCase] / [toLowerCase]. *)
Definition upper_ascii (c : ascii) : ascii :=
  let n := nat_of_ascii c in
  if ((97 <=? n) && (n <=? 122))%nat then ascii_of_nat (n - 32) else c.
Definition lower_ascii (c : ascii) : ascii :=
  let n := nat_of_ascii c in
  if ((65 <=? n) && (n <=? 90))%nat then ascii_of_nat (n + 32) else c.
Fixpoint toUpperCase (s : string) : string :=
  match s with
  | EmptyString => EmptyString
  | String c s' => String (upper_ascii c) (toUpperCase s')
  end.
Fixpoint toLowerCase (s : string) : string :=
  match s with
  | EmptyString => EmptyString
  | String c s' => String (lower_ascii c) (toLowerCase s')
  end.

(** A JavaScript object used as an insertion-ordered string map. *)
Definition Obj (V : Type) := list (string * V).
Fixpoint obj_get {V} (k : string) (o : Obj V) : option V :=
  match o with
  | [] => None
  | (k', v) :: o' => if decide (k' = k) then Some v else obj_get k o'
  end.
Fixpoint obj_set {V} (k : string) (v : V) (o : Obj V) : Obj V :=
  match o with
  | [] => [(k, v)]
  | (k', v') :: o' =>
      if decide (k' = k) then (k, v) :: o' else (k', v') :: obj_set k v o'
  end.

(** [delete o[k]] *)
Definition obj_del {V} (k : string) (o : Obj V) : Obj V :=
  filter (λ p : string * V, p.1 ≠ k) (o : list (string * V)).

(** A state-and-exception monad: a command maps the state to its outcome
    and the state reached. *)
Definition JS (S A : Type) : Type := S → Res A * S.

Definition ret {S A} (a : A) : JS S A := λ st, (Ok a, st).
Definition bind {S A B} (m : JS S A) (f : A → JS S B) : JS S B := λ st,
  match m st with
  | (Ok a, st') => f a st'
  | (Throw e, st') => (Throw e, st')
  end.
Definition throw {S A} (e : JsError) : JS S A := λ st, (Throw e, st).

Declare Scope js_scope.
Delimit Scope js_scope with js.
Notation "'let*' x := m 'in' k" := (bind m (λ x, k))
  (at level 10, x name, m at level 100, k at level 200, only parsing)
  : js_scope.
Notation "m ;; k" := (bind m (λ _, k))
  (at level 100, k at level 200, only parsing, right associativity) : js_scope.
Local Open Scope js_scope.

(** [for (const x of l) f(x)]. *)
Definition forM_ {S A} (f : A → JS S ()) : list A → JS S () :=
  fix go l :=
    match l with
    | [] => ret ()
    | x :: l' => f x ;; go l'
    end.

(* ------------------------------------------------------------------ *)
(** ** The DOM, as far as the coordinator observes it                  *)
(* ------------------------------------------------------------------ *)

Module Dom.

(** A node is a reference into the store of all nodes ever created. *)
Abbreviation NodeRef := nat.

Definition ELEMENT_NODE : Z := 1.
Definition TEXT_NODE : Z := 3.

(** [props] holds the properties written by [node[name] = value];
    [__id] is the expando written by [bindNodeToSkeletonId]. The tree
    is given by [childNodes]; a node's parent is the node that lists
    it. *)
Record DomNode := {
  nodeType : Z;
  nodeName : string;
  className : string;
  style : Obj string;
  attributes : Obj string;
  props : Obj string;
  nodeValue : option string;
  childNodes : list NodeRef;
  __id : option string
}.

Definition with_className (v : string) (n : DomNode) :=
  {| nodeType := nodeType n; nodeName := nodeName n; className := v;
     style := style n; attributes := attributes n; props := props n;
     nodeValue := nodeValue n; childNodes := childNodes n; __id := __id n |}.
Definition with_style (f : Obj string → Obj string) (n : DomNode) :=
  {| nodeType := nodeType n; nodeName := nodeName n; className := className n;
     style := f (style n); attributes := attributes n; props := props n;
     nodeValue := nodeValue n; childNodes := childNodes n; __id := __id n |}.
Definition with_attributes (f : Obj string → Obj string) (n : DomNode) :=
  {| nodeType := nodeType n; nodeName := nodeName n; className := className n;
     style := style n; attributes := f (attributes n); props := props n;
     nodeValue := nodeValue n; childNodes := childNodes n; __id := __id n |}.
Definition with_props (f : Obj string → Obj string) (n : DomNode) :=
  {| nodeType := nodeType n; nodeName := nodeName n; className := className n;
     style := style n; attributes := attributes n; props := f (props n);
     nodeValue := nodeValue n; childNodes := childNodes n; __id := __id n |}.
Definition with_nodeValue (v : option string) (n : DomNode) :=
  {| nodeType := nodeType n; nodeName := nodeName n; className := className n;
     style := style n; attributes := attributes n; props := props n;
     nodeValue := v; childNodes := childNodes n; __id := __id n |}.
Definition with_childNodes (f : list NodeRef → list NodeRef) (n : DomNode) :=
  {| nodeType := nodeType n; nodeName := nodeName n; className := className n;
     style := style n; attributes := attributes n; props := props n;
     nodeValue := nodeValue n; childNodes := f (childNodes n); __id := __id n |}.
Definition with___id (v : option string) (n : DomNode) :=
  {| nodeType := nodeType n; nodeName := nodeName n; className := className n;
     style := style n; attributes := attributes n; props := props n;
     nodeValue := nodeValue n; childNodes := childNodes n; __id := v |}.

(** The store: node [r] is the [r]-th node created. *)
Abbreviation Dom := (list DomNode).

(** [document.createTextNode(data)] *)
Definition createTextNode (data : string) : JS Dom NodeRef := λ d,
  (Ok (length d),
   d ++ [{| nodeType := TEXT_NODE; nodeName := "#text"; className := "";
            style := []; attributes := []; props := [];
            nodeValue := Some data; childNodes := []; __id := None |}]).

(** [document.createElement(name)] of an HTML document. *)
Definition createElement (name : string) : JS Dom NodeRef := λ d,
  (Ok (length d),
   d ++ [{| nodeType := ELEMENT_NODE; nodeName := toUpperCase name;
            className := ""; style := []; attributes := []; props := [];
            nodeValue := None; childNodes := []; __id := None |}]).

(** A write to a field of node [r]. *)
Definition update (r : NodeRef) (f : DomNode → DomNode) : JS Dom () := λ d,
  match d !! r with
  | Some _ => (Ok (), alter f r d)
  | None => (Throw TypeError, d)
  end.

(** [node.className = v] *)
Definition set_className (r : NodeRef) (v : string) : JS Dom () :=
  update r (with_className v).

(** [node.style[k] = v] *)
Definition set_style (r : NodeRef) (k v : string) : JS Dom () :=
  update r (with_style (obj_set k v)).

(** [node.setAttribute(name, value)]; only elements have the method. *)
Definition setAttribute (r : NodeRef) (name value : string) : JS Dom () := λ d,
  match d !! r with
  | Some n =>
      if (nodeType n =? ELEMENT_NODE)%Z
      then (Ok (), alter (with_attributes (obj_set (toLowerCase name) value)) r d)
      else (Throw TypeError, d)
  | None => (Throw TypeError, d)
  end.

(** [node.nodeValue = v]: sets the data of a text node, and does
    nothing on an element. *)
Definition set_nodeValue (r : NodeRef) (v : string) : JS Dom () := λ d,
  match d !! r with
  | Some n =>
      if (nodeType n =? TEXT_NODE)%Z
      then (Ok (), alter (with_nodeValue (Some v)) r d)
      else (Ok (), d)
  | None => (Throw TypeError, d)
  end.

(** [node[name] = value] *)
Definition set_property (r : NodeRef) (name value : string) : JS Dom () :=
  update r (with_props (obj_set name value)).

(** [node.__id = id] *)
Definition set___id (r : NodeRef) (id : string) : JS Dom () :=
  update r (with___id (Some id)).

(** [node.parentNode] *)
Definition parentNode (r : NodeRef) (d : Dom) : option NodeRef :=
  fst <$> list_find (λ n, r ∈ childNodes n) d.

(** [node.firstChild] *)
Definition firstChild (r : NodeRef) (d : Dom) : option NodeRef :=
  d !! r ≫= λ n, head (childNodes n).

(** Is [a] an inclusive ancestor of [x]? ([fuel] bounds the walk up.) *)
Fixpoint inclusive_ancestor (fuel : nat) (d : Dom) (a x : NodeRef) : bool :=
  bool_decide (a = x)
  || match fuel with
     | O => false
     | S fuel' =>
         match parentNode x d with
         | Some p => inclusive_ancestor fuel' d a p
         | None => false
         end
     end.

(** Removing [r] from the child list of whichever node holds it. *)
Definition detach (r : NodeRef) (d : Dom) : Dom :=
  with_childNodes (filter (λ c, c ≠ r)) <$> d.

Fixpoint next_sibling (r : NodeRef) (l : list NodeRef) : option NodeRef :=
  match l with
  | [] => None
  | c :: l' => if decide (c = r) then head l' else next_sibling r l'
  end.

Fixpoint insert_at (x c : NodeRef) (l : list NodeRef) : list NodeRef :=
  match l with
  | [] => [x]
  | y :: l' => if decide (y = c) then x :: y :: l' else y :: insert_at x c l'
  end.

Definition insert_before (x : NodeRef) (ref : option NodeRef)
    (l : list NodeRef) : list NodeRef :=
  match ref with
  | None => l ++ [x]
  | Some c => insert_at x c l
  end.

(** [parent.insertBefore(newNode, ref)]: the pre-insertion checks of
    the DOM standard, then the move of [newNode] from where it was. *)
Definition insertBefore (p newNode : NodeRef) (ref : option NodeRef)
    : JS Dom () := λ d,
  match d !! p, d !! newNode with
  | Some pn, Some _ =>
      if negb (nodeType pn =? ELEMENT_NODE)%Z
      then (Throw HierarchyRequestError, d)
      else if inclusive_ancestor (length d) d newNode p
      then (Throw HierarchyRequestError, d)
      else if match ref with
              | Some c => bool_decide (c ∈ childNodes pn)
              | None => true
              end
      then
        let ref' :=
          if bool_decide (ref = Some newNode)
          then next_sibling newNode (childNodes pn) else ref in
        (Ok (), alter (with_childNodes (insert_before newNode ref')) p
                  (detach newNode d))
      else (Throw NotFoundError, d)
  | _, _ => (Throw TypeError, d)
  end.

(** [parent.appendChild(child)] *)
Definition appendChild (p child : NodeRef) : JS Dom () :=
  insertBefore p child None.

(** [parent.removeChild(child)]; [child] may be null or undefined. *)
Definition removeChild (p : NodeRef) (child : option NodeRef) : JS Dom () := λ d,
  match d !! p, child with
  | Some pn, Some c =>
      if bool_decide (c ∈ childNodes pn)
      then (Ok (), alter (with_childNodes (filter (λ x, x ≠ c))) p d)
      else (Throw NotFoundError, d)
  | _, _ => (Throw TypeError, d)
  end.

(** [node.hasAttribute(name)]; only elements have the method. *)
Definition hasAttribute (r : NodeRef) (name : string) : JS Dom bool := λ d,
  match d !! r with
  | Some n =>
      if (nodeType n =? ELEMENT_NODE)%Z
      then (Ok (bool_decide
                  (is_Some (obj_get (toLowerCase name) (attributes n)))), d)
      else (Throw TypeError, d)
  | None => (Throw TypeError, d)
  end.

(** [node.removeAttribute(name)] *)
Definition removeAttribute (r : NodeRef) (name : string) : JS Dom () := λ d,
  match d !! r with
  | Some n =>
      if (nodeType n =? ELEMENT_NODE)%Z
      then (Ok (), alter (with_attributes (obj_del (toLowerCase name))) r d)
      else (Throw TypeError, d)
  | None => (Throw TypeError, d)
  end.

End Dom.

(* ------------------------------------------------------------------ *)
(** ** The renderer: DOM mutation and event proxy                      *)
(* ------------------------------------------------------------------ *)

Module Skeleton.
(** A skeleton object [{nodeType, nodeName, className, style,
    attributes, childNodes, data, __id}]. An absent [className],
    [style], [attributes] or [childNodes] is the empty one:
    [createNode] treats the two alike ([hydrate] reads
    [childNodes.length] and expects the list to be there). *)
Inductive t := mk {
  nodeType : Z;
  nodeName : string;
  className : string;
  style : Obj string;
  attributes : list (string * string);   (* [{name, value}] *)
  childNodes : list t;
  data : string;
  __id : string
}.
End Skeleton.

Module Renderer.

(** Chrome doesn't support ES6 modules in workers yet, so we dupe the
    flags on main page (renderer.js) and worker (undom.js). *)
Record FlagsT := {
  REQUIRE_GESTURE_TO_MUTATE : bool;
  USE_SHARED_ARRAY_BUFFER : bool
}.
Definition Flags : FlagsT :=
  {| REQUIRE_GESTURE_TO_MUTATE := false; USE_SHARED_ARRAY_BUFFER := false |}.

(** A number that may be [Infinity]. *)
Inductive Threshold :=
  | Finite (ms : Z)
  | Infinity.

(** [a > t] *)
Definition gt_threshold (a : Z) (t : Threshold) : bool :=
  match t with
  | Finite ms => (ms <? a)%Z
  | Infinity => false
  end.

(** What is passed where the code expects a node or its id: a falsy
    value, a string, or a serialized node object. *)
Inductive NodeOrId :=
  | Falsy
  | Id (id : string)
  | Serialized (nodeName : string) (__id : string).

Definition serialized (s : Skeleton.t) : NodeOrId :=
  Serialized (Skeleton.nodeName s) (Skeleton.__id s).

(** A mutation record as received; [type] selects the fields read. *)
Record MutationRecord := {
  type : string;
  target : NodeOrId;
  removedNodes : option (list NodeOrId);
  addedNodes : option (list Skeleton.t);
  previousSibling : NodeOrId;
  nextSibling : NodeOrId;
  attributeName : string;
  propertyName : string;
  value : string;
  oldValue : option string;
  timestamp : Z
}.

(** JavaScript values, as far as [typeof] tells them apart. *)
Inductive JsVal :=
  | VUndefined
  | VNull
  | VBool (b : bool)
  | VNum (q : Q)
  | VStr (s : string)
  | VObject
  | VFunction.

Definition typeof (v : JsVal) : string :=
  match v with
  | VUndefined => "undefined"
  | VNull | VObject => "object"
  | VBool _ => "boolean"
  | VNum _ => "number"
  | VStr _ => "string"
  | VFunction => "function"
  end.

(** [{pageX, pageY}]; a coordinate may be undefined. *)
Record Touch := { pageX : option Q; pageY : option Q }.

(** The event target as the proxy reads it: its [__id], and its
    [value] when ['value' in target]. *)
Record EventTarget := {
  target__id : option string;
  target_value : option string
}.

(** A DOM event: the fields the proxy reads by name, and every
    enumerable property ([for (let i in e)]). *)
Record Event := {
  e_type : string;
  e_target : option EventTarget;
  e_changedTouches : list Touch;
  e_touches : list Touch;
  e_pageX : option Q;
  e_pageY : option Q;
  e_enumerable : list (string * JsVal)
}.

(** Messages to the worker; the event is copied when it is posted. *)
Inductive Message :=
  | MsgEvent (event : Obj JsVal)
  | MsgInit (location : string).

Record BBox := { top : Q; bottom : Q; left : Q; right : Q }.

(** What the module is instantiated with, and what it calls but does
    not define: the root, DOMPurify, layout, the window size. *)
Class Platform := {
  root : Dom.NodeRef;
  (** the flags the module is built with; the source has [Flags] *)
  flags : FlagsT;
  (** [DOMPurify.sanitize(node, {RETURN_DOM, IN_PLACE})] *)
  DOMPurify_sanitize : option Dom.NodeRef → JS Dom.Dom ();
  (** the binding of the free identifier [i] in [createNode], if any *)
  global_i : option string;
  (** [document.querySelector('[amp-aot]')] *)
  aotRoot : option Dom.NodeRef;
  getBoundingClientRect : Dom.Dom → Dom.NodeRef → BBox;
  window_innerHeight : Q;
  window_innerWidth : Q
}.

(** The browser's pending timeouts and idle requests, by handle. *)
Record Scheduler := {
  timeouts : list nat;
  idleRequests : list nat;
  nextHandle : nat
}.

(** The module's variables, the document and the scheduler. *)
Record State := {
  heap : Dom.Dom;
  NODES : gmap string Dom.NodeRef;
  sanitized : list (option Dom.NodeRef);
  timeOfLastUserGesture : Z;
  touchStart : option Touch;
  posted : list Message;
  MUTATION_QUEUE : list MutationRecord;
  mutationTimer : option nat;
  windowSizeCache : option Q * option Q;
  initialRender : bool;
  scheduler : Scheduler
}.

Definition with_heap (v : Dom.Dom) (st : State) : State :=
  {| heap := v; NODES := NODES st; sanitized := sanitized st;
     timeOfLastUserGesture := timeOfLastUserGesture st;
     touchStart := touchStart st; posted := posted st;
     MUTATION_QUEUE := MUTATION_QUEUE st;
     mutationTimer := mutationTimer st;
     windowSizeCache := windowSizeCache st;
     initialRender := initialRender st; scheduler := scheduler st |}.
Definition with_NODES (v : gmap string Dom.NodeRef) (st : State) : State :=
  {| heap := heap st; NODES := v; sanitized := sanitized st;
     timeOfLastUserGesture := timeOfLastUserGesture st;
     touchStart := touchStart st; posted := posted st;
     MUTATION_QUEUE := MUTATION_QUEUE st;
     mutationTimer := mutationTimer st;
     windowSizeCache := windowSizeCache st;
     initialRender := initialRender st; scheduler := scheduler st |}.
Definition with_sanitized (v : list (option Dom.NodeRef)) (st : State) : State :=
  {| heap := heap st; NODES := NODES st; sanitized := v;
     timeOfLastUserGesture := timeOfLastUserGesture st;
     touchStart := touchStart st; posted := posted st;
     MUTATION_QUEUE := MUTATION_QUEUE st;
     mutationTimer := mutationTimer st;
     windowSizeCache := windowSizeCache st;
     initialRender := initialRender st; scheduler := scheduler st |}.
Definition with_timeOfLastUserGesture (v : Z) (st : State) : State :=
  {| heap := heap st; NODES := NODES st; sanitized := sanitized st;
     timeOfLastUserGesture := v; touchStart := touchStart st;
     posted := posted st; MUTATION_QUEUE := MUTATION_QUEUE st;
     mutationTimer := mutationTimer st;
     windowSizeCache := windowSizeCache st;
     initialRender := initialRender st; scheduler := scheduler st |}.
Definition with_touchStart (v : option Touch) (st : State) : State :=
  {| heap := heap st; NODES := NODES st; sanitized := sanitized st;
     timeOfLastUserGesture := timeOfLastUserGesture st; touchStart := v;
     posted := posted st; MUTATION_QUEUE := MUTATION_QUEUE st;
     mutationTimer := mutationTimer st;
     windowSizeCache := windowSizeCache st;
     initialRender := initialRender st; scheduler := scheduler st |}.
Definition with_posted (v : list Message) (st : State) : State :=
  {| heap := heap st; NODES := NODES st; sanitized := sanitized st;
     timeOfLastUserGesture := timeOfLastUserGesture st;
     touchStart := touchStart st; posted := v;
     MUTATION_QUEUE := MUTATION_QUEUE st;
     mutationTimer := mutationTimer st;
     windowSizeCache := windowSizeCache st;
     initialRender := initialRender st; scheduler := scheduler st |}.
Definition with_MUTATION_QUEUE (v : list MutationRecord) (st : State) : State :=
  {| heap := heap st; NODES := NODES st; sanitized := sanitized st;
     timeOfLastUserGesture := timeOfLastUserGesture st;
     touchStart := touchStart st; posted := posted st;
     MUTATION_QUEUE := v; mutationTimer := mutationTimer st;
     windowSizeCache := windowSizeCache st;
     initialRender := initialRender st; scheduler := scheduler st |}.
Definition with_mutationTimer (v : option nat) (st : State) : State :=
  {| heap := heap st; NODES := NODES st; sanitized := sanitized st;
     timeOfLastUserGesture := timeOfLastUserGesture st;
     touchStart := touchStart st; posted := posted st;
     MUTATION_QUEUE := MUTATION_QUEUE st; mutationTimer := v;
     windowSizeCache := windowSizeCache st;
     initialRender := initialRender st; scheduler := scheduler st |}.
Definition with_windowSizeCache (v : option Q * option Q) (st : State) : State :=
  {| heap := heap st; NODES := NODES st; sanitized := sanitized st;
     timeOfLastUserGesture := timeOfLastUserGesture st;
     touchStart := touchStart st; posted := posted st;
     MUTATION_QUEUE := MUTATION_QUEUE st;
     mutationTimer := mutationTimer st; windowSizeCache := v;
     initialRender := initialRender st; scheduler := scheduler st |}.
Definition with_initialRender (v : bool) (st : State) : State :=
  {| heap := heap st; NODES := NODES st; sanitized := sanitized st;
     timeOfLastUserGesture := timeOfLastUserGesture st;
     touchStart := touchStart st; posted := posted st;
     MUTATION_QUEUE := MUTATION_QUEUE st;
     mutationTimer := mutationTimer st;
     windowSizeCache := windowSizeCache st; initialRender := v;
     scheduler := scheduler st |}.
Definition with_scheduler (v : Scheduler) (st : State) : State :=
  {| heap := heap st; NODES := NODES st; sanitized := sanitized st;
     timeOfLastUserGesture := timeOfLastUserGesture st;
     touchStart := touchStart st; posted := posted st;
     MUTATION_QUEUE := MUTATION_QUEUE st;
     mutationTimer := mutationTimer st;
     windowSizeCache := windowSizeCache st;
     initialRender := initialRender st; scheduler := v |}.

Abbreviation M := (JS State).

(** A DOM call, run on the document of the state. *)
Definition dom {A} (c : JS Dom.Dom A) : M A := λ st,
  let (r, d) := c (heap st) in (r, with_heap d st).

Section WithPlatform.
Context {platform : Platform}.

(** Allow mutations up to 1s after user gesture. *)
Definition GESTURE_TO_MUTATION_THRESHOLD : Threshold :=
  if REQUIRE_GESTURE_TO_MUTATE flags then Finite 1000 else Infinity.

(** Returns the real DOM Element corresponding to a serialized
    Element object. *)
Definition getNode (nodeOrId : NodeOrId) (st : State)
    : option Dom.NodeRef :=
  match nodeOrId with
  | Falsy => None
  | Id id => if decide (id = "") then None else NODES st !! id
  | Serialized nodeName id =>
      if decide (nodeName = "BODY") then Some root else NODES st !! id
  end.

(** Establish link between DOM [node] and worker-generated
    identifier [id]. *)
Definition bindNodeToSkeletonId (node : option Dom.NodeRef) (id : string)
    : M () :=
  match node with
  | None => throw TypeError
  | Some r =>
      dom (Dom.set___id r id) ;;
      λ st, (Ok (), with_NODES (<[id := r]> (NODES st)) st)
  end.

(** [DOMPurify.sanitize(node, {'RETURN_DOM': true, 'IN_PLACE': true})] *)
Definition sanitize_in_place (node : option Dom.NodeRef) : M () := λ st,
  dom (DOMPurify_sanitize node)
      (with_sanitized (sanitized st ++ [node]) st).

Definition SANITIZE_IN_PLACE : bool := true.

(** [node.style[i] = styles[s]]: [i] is not declared in
    [createNode]; it is read from the enclosing scopes. *)
Definition set_style_i (node : Dom.NodeRef) (v : string) : M () :=
  match global_i with
  | None => throw ReferenceError
  | Some i => dom (Dom.set_style node i v)
  end.

(** Create a real DOM Node from a skeleton Object. With
    [SANITIZE_IN_PLACE] the branch [sanitize && !SANITIZE_IN_PLACE]
    is never taken, and children are created with [sanitize] false. *)
Fixpoint createNode (skeleton : Skeleton.t) (sanitize : bool)
    : M Dom.NodeRef :=
  match skeleton with
  | Skeleton.mk nodeType nodeName className styles attributes childNodes
      data id =>
      let* node :=
        if (nodeType =? Dom.TEXT_NODE)%Z then
          let* node := dom (Dom.createTextNode data) in
          ret (Some node)
        else if (nodeType =? Dom.ELEMENT_NODE)%Z then
          let* node := dom (Dom.createElement nodeName) in
          (if decide (className = "") then ret ()
           else dom (Dom.set_className node className)) ;;
          forM_ (λ s : string * string, set_style_i node s.2) styles ;;
          forM_ (λ a : string * string,
                   dom (Dom.setAttribute node a.1 a.2))
            attributes ;;
          forM_ (λ c,
                   let* child := createNode c (negb SANITIZE_IN_PLACE) in
                   dom (Dom.appendChild node child))
            childNodes ;;
          ret (Some node)
        else ret None in
      (if sanitize && SANITIZE_IN_PLACE then sanitize_in_place node
       else ret ()) ;;
      bindNodeToSkeletonId node id ;;
      match node with
      | Some r => ret r
      | None => throw TypeError
      end
  end.

(** [o.m(...)] where [o] may be undefined. *)
Definition deref {A} (o : option Dom.NodeRef) (k : Dom.NodeRef → M A)
    : M A :=
  match o with
  | Some r => k r
  | None => throw TypeError
  end.

(** [nextSibling && getNode(nextSibling) || null] *)
Definition anchor (nextSibling : NodeOrId) (st : State)
    : option Dom.NodeRef :=
  match nextSibling with
  | Falsy => None
  | _ => getNode nextSibling st
  end.

Definition MUTATIONS_childList (m : MutationRecord) : M () := λ st0,
  let parent := getNode (target m) st0 in
  ((match removedNodes m with
    | Some removed =>
        (* for (let i = removedNodes.length; i--; ) *)
        forM_ (λ r, deref parent (λ p st,
                      dom (Dom.removeChild p (getNode r st)) st))
          (rev removed)
    | None => ret ()
    end) ;;
   match addedNodes m with
   | Some added =>
       forM_ (λ a,
                let* newNode :=
                  (λ st, match getNode (serialized a) st with
                         | Some n => (Ok n, st)
                         | None => createNode a true st
                         end) in
                deref parent (λ p st,
                  dom (Dom.insertBefore p newNode
                         (anchor (nextSibling m) st)) st))
         added
   | None => ret ()
   end) st0.

Definition MUTATIONS_attributes (m : MutationRecord) : M () := λ st0,
  let node := getNode (target m) st0 in
  (deref node (λ n, dom (Dom.setAttribute n (attributeName m) (value m))) ;;
   sanitize_in_place node) st0.

Definition MUTATIONS_characterData (m : MutationRecord) : M () := λ st0,
  (* Sanitization not necessary for `nodeValue`. *)
  deref (getNode (target m) st0)
    (λ n, dom (Dom.set_nodeValue n (value m))) st0.

(** Non-standard MutationRecord for property changes. *)
Definition MUTATIONS_properties (m : MutationRecord) : M () := λ st0,
  let node := getNode (target m) st0 in
  (deref node (λ n, dom (Dom.set_property n (propertyName m) (value m))) ;;
   sanitize_in_place node) st0.

(** Apply MutationRecord mutations, keyed by type:
    [MUTATIONS[mutation.type](mutation)]. *)
Definition MUTATIONS (mutation : MutationRecord) : M () :=
  if decide (type mutation = "childList") then
    MUTATIONS_childList mutation
  else if decide (type mutation = "attributes") then
    MUTATIONS_attributes mutation
  else if decide (type mutation = "characterData") then
    MUTATIONS_characterData mutation
  else if decide (type mutation = "properties") then
    MUTATIONS_properties mutation
  else throw TypeError.

(** *** Event proxy *)

(** The events for which the module registers [proxyEvent] as
    listener: on the root, and on the window. *)
Definition ELEMENT_EVENTS_TO_PROXY : list string :=
  ["change"; "click"; "focus";
   (* Following are necessary for todomvc. *)
   "keydown"; "input"; "dblclick"].
Definition WINDOW_EVENTS_TO_PROXY : list string := ["hashchange"].

Definition postToWorker (message : Message) : M () := λ st,
  (Ok (), with_posted (posted st ++ [message]) st).

(** Derives {pageX,pageY} coordinates from a mouse or touch event:
    [(e.changedTouches && e.changedTouches[0])
     || (e.touches && e.touches[0]) || e]. *)
Definition getTouch (e : Event) : Touch :=
  match e_changedTouches e, e_touches e with
  | t :: _, _ => t
  | [], t :: _ => t
  | [], [] => {| pageX := e_pageX e; pageY := e_pageY e |}
  end.

(** [Math.sqrt(dx^2 + dy^2) < 10], over the rationals; an undefined
    coordinate makes the distance NaN and the comparison false. *)
Definition dist_lt_10 (touchEnd touchStart : Touch) : bool :=
  match pageX touchEnd, pageX touchStart, pageY touchEnd, pageY touchStart with
  | Some ex, Some sx, Some ey, Some sy =>
      Qlt_b ((ex - sx) * (ex - sx) + (ey - sy) * (ey - sy)) 100
  | _, _, _, _ => false
  end.

Definition hasOwnProperty {V} (o : Obj V) (k : string) : bool :=
  bool_decide (is_Some (obj_get k o)).

(** Copy properties from [e] to proxied [event]. *)
Definition copy_properties (e : Event) (event : Obj JsVal) : Obj JsVal :=
  fold_left
    (λ event (p : string * JsVal),
       let (i, v) := p in
       let typeOfV := typeof v in
       if bool_decide (typeOfV ≠ "object")
          && bool_decide (typeOfV ≠ "function")
          && bool_decide (i ≠ toUpperCase i)
          && negb (hasOwnProperty event i)
       then obj_set i v event else event)
    (e_enumerable e) event.

(** Forward a DOM Event into the Worker as a message. [now] is what
    [Date.now()] returns; the result is [Some false] for
    [return false] and [None] for a return without value. *)
Definition proxyEvent (now : Z) (e : Event) : M (option bool) := λ st,
  let st := with_timeOfLastUserGesture now st in
  if bool_decide (e_type e = "click") && bool_decide (is_Some (touchStart st))
  then (Ok (Some false), st)
  else
    let event : Obj JsVal := [("type", VStr (e_type e))] in
    let event :=
      match e_target e with
      | Some t =>
          obj_set "target"
            (from_option VStr VUndefined (target__id t)) event
      | None => event
      end in
    (* For change events, update worker with new `value` prop. *)
    let event' : Res (Obj JsVal) :=
      if bool_decide (e_type e ∈ ["change"; "input"]) then
        match e_target e with
        | None => Throw TypeError      (* 'value' in null *)
        | Some t =>
            match target_value t with
            | Some v => Ok (obj_set "__value" (VStr v) event)
            | None => Ok event
            end
        end
      else Ok event in
    match event' with
    | Throw err => (Throw err, st)
    | Ok event =>
        let event := copy_properties e event in
        (postToWorker (MsgEvent event) ;;
         (* Recategorize very close touchstart/touchend events as clicks. *)
         (if bool_decide (e_type e = "touchstart") then
            λ st, (Ok (), with_touchStart (Some (getTouch e)) st)
          else λ st,
            match touchStart st with
            | Some start =>
                if bool_decide (e_type e = "touchend")
                   && dist_lt_10 (getTouch e) start
                then postToWorker
                       (MsgEvent (obj_set "type" (VStr "click") event)) st
                else (Ok (), st)
            | None => (Ok (), st)
            end) ;;
         ret None) st
    end.

(** *** Mutation queue and scheduler *)

(** [clearTimeout(handle)] *)
Definition clearTimeout (handle : option nat) : M () := λ st,
  match handle with
  | Some h =>
      let s := scheduler st in
      (Ok (), with_scheduler
                {| timeouts := filter (λ x, x ≠ h) (timeouts s);
                   idleRequests := idleRequests s;
                   nextHandle := nextHandle s |} st)
  | None => (Ok (), st)
  end.

(** [setTimeout(processMutations, 100)] *)
Definition setTimeout : M nat := λ st,
  let s := scheduler st in
  (Ok (nextHandle s),
   with_scheduler {| timeouts := timeouts s ++ [nextHandle s];
                     idleRequests := idleRequests s;
                     nextHandle := S (nextHandle s) |} st).

(** [requestIdleCallback(processMutations)] *)
Definition requestIdleCallback : M nat := λ st,
  let s := scheduler st in
  (Ok (nextHandle s),
   with_scheduler {| timeouts := timeouts s;
                     idleRequests := idleRequests s ++ [nextHandle s];
                     nextHandle := S (nextHandle s) |} st).

Definition processMutationsSoon : M () :=
  (λ st, clearTimeout (mutationTimer st) st) ;;
  let* h := setTimeout in
  (λ st, (Ok (), with_mutationTimer (Some h) st)) ;;
  requestIdleCallback ;;
  ret ().

(** [cache.height || (cache.height = window.innerHeight)]: the value,
    and the cache entry afterwards. *)
Definition cached (entry : option Q) (fresh : Q) : Q * option Q :=
  match entry with
  | Some v => if Qzero_b v then (fresh, Some fresh) else (v, entry)
  | None => (fresh, Some fresh)
  end.

(** Check if an Element is at least partially visible. *)
Definition isElementInViewport (el : Dom.NodeRef) : M bool := λ st,
  match heap st !! el with
  | None => (Throw TypeError, st)
  | Some n =>
      let el' := if (Dom.nodeType n =? 3)%Z
                 then Dom.parentNode el (heap st) else Some el in
      match el' with
      | None => (Throw TypeError, st)   (* null.getBoundingClientRect() *)
      | Some el =>
          let bbox := getBoundingClientRect (heap st) el in
          if Qle_b 0 (bottom bbox) && Qle_b 0 (right bbox) then
            let (h, ch) := cached (windowSizeCache st).1 window_innerHeight in
            let st := with_windowSizeCache (ch, (windowSizeCache st).2) st in
            if Qle_b (top bbox) h then
              let (w, cw) := cached (windowSizeCache st).2 window_innerWidth in
              let st := with_windowSizeCache ((windowSizeCache st).1, cw) st in
              (Ok (Qle_b (left bbox) w), st)
            else (Ok false, st)
          else (Ok false, st)
      end
  end.

(** The deadline test at the head of the loop body, on its [k]-th
    evaluation: [deadline.timeRemaining() <= 0] when an idle deadline
    was passed, [(Date.now() - start) > 1] otherwise. *)
Definition out_of_time (deadline : option (nat → Q)) (now : nat → Z)
    (k : nat) : bool :=
  match deadline with
  | Some timeRemaining => Qle_b (timeRemaining k) 0
  | None => (1 <? now (S k) - now O)%Z
  end.

(** if the element is offscreen, skip any text or attribute changes *)
Definition offscreen (m : MutationRecord) : M bool :=
  if bool_decide (type m = "characterData")
     || bool_decide (type m = "attributes")
  then λ st,
    match getNode (target m) st with
    | Some target =>
        (let* visible := isElementInViewport target in
         ret (negb visible)) st
    | None => (Ok false, st)
    end
  else ret false.

(** The loop of [processMutations]. The queue is [kept ++ todo]: the
    records before index [i] (visited and left queued) and those from
    [i] on; [k] counts the iterations. The result is [timedOut]. *)
Fixpoint drain (deadline : option (nat → Q)) (now : nat → Z) (k : nat)
    (kept todo : list MutationRecord) : M bool :=
  match todo with
  | [] => ret false
  | m :: rest =>
      if out_of_time deadline now k then ret true
      else λ st,
        let latency := (timestamp m - timeOfLastUserGesture st)%Z in
        if gt_threshold latency GESTURE_TO_MUTATION_THRESHOLD
        then drain deadline now (S k) (kept ++ [m]) rest st
        else
          (let* skip := offscreen m in
           if skip : bool then drain deadline now (S k) (kept ++ [m]) rest
           else
             (* remove mutation from the queue and apply it *)
             (λ st, (Ok (), with_MUTATION_QUEUE (kept ++ rest) st)) ;;
             MUTATIONS m ;;
             drain deadline now (S k) kept rest) st
  end.

(** Attempt to flush & process as many MutationRecords as possible
    from the queue. [now 0] is the reading of [Date.now()] at
    [start], [now (S k)] the one in iteration [k]. (The sanitization
    latency that the module accumulates is only logged, and left out.) *)
Definition processMutations (deadline : option (nat → Q)) (now : nat → Z)
    : M () :=
  (λ st, clearTimeout (mutationTimer st) st) ;;
  let* timedOut := (λ st, drain deadline now 0 [] (MUTATION_QUEUE st) st) in
  λ st,
    if (timedOut : bool) && (0 <? length (MUTATION_QUEUE st))%nat
    then processMutationsSoon st
    else (Ok (), st).

Definition enqueueMutation (mutation : MutationRecord) : M () :=
  (λ st, (Ok (), with_MUTATION_QUEUE (MUTATION_QUEUE st ++ [mutation]) st)) ;;
  processMutationsSoon.

(** Recursively hydrates AOT rendered [node] with corresponding
    worker [skeleton]; [node] is undefined when the rendered tree has
    no child at the skeleton's index. *)
Fixpoint hydrate (node : option Dom.NodeRef) (skeleton : Skeleton.t)
    : M () :=
  match skeleton with
  | Skeleton.mk _ _ _ _ _ childNodes _ id =>
      match node with
      | None => throw TypeError
      | Some r =>
          bindNodeToSkeletonId node id ;;
          (* for (let i = 0; i < skeleton.childNodes.length; i++) *)
          (fix children (i : nat) (cs : list Skeleton.t) : M () :=
             match cs with
             | [] => ret ()
             | c :: cs' =>
                 (λ st, hydrate
                          (heap st !! r ≫= λ n, Dom.childNodes n !! i)
                          c st) ;;
                 children (S i) cs'
             end) O childNodes
      end
  end.

Definition with_timestamp (now : Z) (m : MutationRecord) : MutationRecord :=
  {| type := type m; target := target m; removedNodes := removedNodes m;
     addedNodes := addedNodes m; previousSibling := previousSibling m;
     nextSibling := nextSibling m; attributeName := attributeName m;
     propertyName := propertyName m; value := value m;
     oldValue := oldValue m; timestamp := now |}.

(** [worker.onmessage] for [{type: 'mutate', mutations}], at
    [Date.now() = now]. (The latency figure written to the [#metrics]
    element, if the page has one, is left out.) *)
Definition onmessage_mutate (now : Z) (mutations : list MutationRecord)
    : M () :=
  forM_ (λ mutation,
           let mutation := with_timestamp now mutation in
           λ st,
             if initialRender st && bool_decide (is_Some aotRoot) then
               match addedNodes mutation with
               | Some added => forM_ (hydrate aotRoot) added st
               | None => (Throw TypeError, st)
               end
             else enqueueMutation mutation st)
    mutations ;;
  λ st, (Ok (), with_initialRender false st).

(** The browser running a pending timeout: the callback is called
    without argument. *)
Definition fire_timeout (h : nat) (now : nat → Z) : M () :=
  clearTimeout (Some h) ;; processMutations None now.

(** The browser running a pending idle request, with its deadline. *)
Definition fire_idle (h : nat) (timeRemaining : nat → Q) (now : nat → Z)
    : M () :=
  (λ st, let s := scheduler st in
         (Ok (), with_scheduler
                   {| timeouts := timeouts s;
                      idleRequests := filter (λ x, x ≠ h) (idleRequests s);
                      nextHandle := nextHandle s |} st)) ;;
  processMutations (Some timeRemaining) now.

(** The module's state when it has finished loading at time [now]
    over the document [d]: [postToWorker({type: 'init', location})]
    has been called. *)
Definition init (now : Z) (location : string) (d : Dom.Dom) : State :=
  {| heap := d; NODES := ∅; sanitized := [];
     timeOfLastUserGesture := now; touchStart := None;
     posted := [MsgInit location]; MUTATION_QUEUE := [];
     mutationTimer := None; windowSizeCache := (None, None);
     initialRender := true;
     scheduler := {| timeouts := []; idleRequests := []; nextHandle := 0 |} |}.

End WithPlatform.

End Renderer.

(* ------------------------------------------------------------------ *)
(** ** amp-script.js: the admission controller                         *)
(* ------------------------------------------------------------------ *)

Module AmpScript.

Definition MAX_SCRIPT_SIZE : Z := 150000.

(** Size-contained elements up to 300px are allowed to mutate freely. *)
Definition MAX_FREE_MUTATION_HEIGHT : Q := 300.

Module Phase.
Definition HYDRATING : Z := 1.
Definition MUTATING : Z := 2.
End Phase.

Module Layout.
Definition CONTAINER : string := "container".
End Layout.

(** A flush batch is identified by the [flushMutations] closure that
    worker-dom hands to the pump. *)
Definition Batch := nat.

(** The callbacks this class passes to [vsync_.mutate]. *)
Inductive VsyncTask :=
  | AddHydrated                      (* classList.add('i-amphtml-hydrated') *)
  | FlushAndFit (flushMutations : Batch).

Record Worker := { terminated : bool }.

(** [./user-activation-tracker] is not part of the sources: the
    tracker is what [isActive()] reports. *)
Record UserActivationTracker := { isActive : bool }.

(** The [AmpScript] element with the pieces of [BaseElement] and of the
    vsync service that [mutationPump_] touches. *)
Record Element := {
  classList : list string;
  getLayout : string;
  getLayoutBox_height : Q;
  workerDom_ : option Worker;
  userActivation_ : option UserActivationTracker;
  iframe_ : bool;
  vsync_mutate : list VsyncTask;   (* scheduled, not yet run *)
  flushed : list Batch;            (* batches whose flushMutations ran *)
  fitRequests : nat;               (* measureMutateElement calls *)
  userErrors : nat                 (* user().error calls *)
}.

(** [DOMTokenList.add] / [remove]. *)
Definition classList_add (c : string) (l : list string) : list string :=
  if decide (c ∈ l) then l else l ++ [c].
Definition classList_remove (c : string) (l : list string) : list string :=
  filter (λ x, x ≠ c) l.

Definition set_classList (f : list string → list string) (el : Element) :=
  {| classList := f (classList el); getLayout := getLayout el;
     getLayoutBox_height := getLayoutBox_height el;
     workerDom_ := workerDom_ el; userActivation_ := userActivation_ el;
     iframe_ := iframe_ el; vsync_mutate := vsync_mutate el;
     flushed := flushed el; fitRequests := fitRequests el;
     userErrors := userErrors el |}.

Definition mutate (t : VsyncTask) (el : Element) :=
  {| classList := classList el; getLayout := getLayout el;
     getLayoutBox_height := getLayoutBox_height el;
     workerDom_ := workerDom_ el; userActivation_ := userActivation_ el;
     iframe_ := iframe_ el; vsync_mutate := vsync_mutate el ++ [t];
     flushed := flushed el; fitRequests := fitRequests el;
     userErrors := userErrors el |}.

Definition terminate (el : Element) :=
  {| classList := classList el; getLayout := getLayout el;
     getLayoutBox_height := getLayoutBox_height el;
     workerDom_ := Some {| terminated := true |};
     userActivation_ := userActivation_ el;
     iframe_ := iframe_ el; vsync_mutate := vsync_mutate el;
     flushed := flushed el; fitRequests := fitRequests el;
     userErrors := userErrors el |}.

Definition user_error (el : Element) :=
  {| classList := classList el; getLayout := getLayout el;
     getLayoutBox_height := getLayoutBox_height el;
     workerDom_ := workerDom_ el; userActivation_ := userActivation_ el;
     iframe_ := iframe_ el; vsync_mutate := vsync_mutate el;
     flushed := flushed el; fitRequests := fitRequests el;
     userErrors := S (userErrors el) |}.

Section Pump.
(** [isLayoutSizeDefined] of [src/layout] is not part of the sources. *)
Variable isLayoutSizeDefined : string → bool.

(** The [allowMutation] expression; [None] when evaluating it
    dereferences a null [userActivation_]. *)
Definition allowMutation (phase : Z) (el : Element) : option bool :=
  if negb (phase =? Phase.MUTATING)%Z then Some true
  else match userActivation_ el with
       | None => None
       | Some u =>
           Some (isActive u
                 || (isLayoutSizeDefined (getLayout el)
                     && Qle_b (getLayoutBox_height el)
                              MAX_FREE_MUTATION_HEIGHT))
       end.

Definition mutationPump_ (flushMutations : Batch) (phase : Z)
    (el : Element) : Res unit * Element :=
  let el :=
    if (phase =? Phase.HYDRATING)%Z then mutate AddHydrated el else el in
  match allowMutation phase el with
  | None => (Throw TypeError, el)
  | Some true => (Ok (), mutate (FlushAndFit flushMutations) el)
  | Some false =>
      (* Otherwise, terminate the worker. *)
      match workerDom_ el with
      | None => (Throw TypeError, el)
      | Some _ =>
          let el := terminate el in
          let el := set_classList (classList_remove "i-amphtml-hydrated") el in
          let el := set_classList (classList_add "i-amphtml-broken") el in
          (Ok (), user_error el)
      end
  end.
End Pump.

Section Fit.
(** [this.element] and [this.iframe_], as nodes of the document. *)
Variable element iframe_ : Dom.NodeRef.

(** The loop of the mutate callback that [mutationPump_] hands to
    [measureMutateElement]:
    [while (element.firstChild !== iframe_)
       element.removeChild(element.firstChild)];
    [None] when [fuel] iterations do not finish the loop. *)
Fixpoint removeOriginalChildren (fuel : nat) (d : Dom.Dom)
    : option (Res () * Dom.Dom) :=
  if bool_decide (Dom.firstChild element d = Some iframe_)
  then Some (Ok (), d)
  else match fuel with
       | O => None
       | S fuel' =>
           match Dom.removeChild element (Dom.firstChild element d) d with
           | (Ok _, d') => removeOriginalChildren fuel' d'
           | (Throw e, d') => Some (Throw e, d')
           end
       end.
End Fit.

(** The vsync service running one scheduled mutate callback. *)
Definition run_task (t : VsyncTask) (el : Element) : Element :=
  match t with
  | AddHydrated => set_classList (classList_add "i-amphtml-hydrated") el
  | FlushAndFit b =>
      {| classList := classList el; getLayout := getLayout el;
         getLayoutBox_height := getLayoutBox_height el;
         workerDom_ := workerDom_ el; userActivation_ := userActivation_ el;
         iframe_ := iframe_ el; vsync_mutate := vsync_mutate el;
         flushed := flushed el ++ [b];
         fitRequests :=
           if iframe_ el && bool_decide (getLayout el = Layout.CONTAINER)
           then S (fitRequests el) else fitRequests el;
         userErrors := userErrors el |}
  end.

(** The vsync service running every scheduled callback, in order. *)
Definition vsync_run (el : Element) : Element :=
  fold_left (λ e t, run_task t e) (vsync_mutate el)
    {| classList := classList el; getLayout := getLayout el;
       getLayoutBox_height := getLayoutBox_height el;
       workerDom_ := workerDom_ el; userActivation_ := userActivation_ el;
       iframe_ := iframe_ el; vsync_mutate := [];
       flushed := flushed el; fitRequests := fitRequests el;
       userErrors := userErrors el |}.

(** A DOMPurify wrapper that implements the worker-dom.Sanitizer
    interface. *)
Module SanitizerImpl.
Section Sanitize.
(** [this.purifier_.sanitize], built by [createPurifier] of
    [src/purifier], which is not part of the sources. *)
Variable purifier_sanitize : Dom.NodeRef → JS Dom.Dom ().
(** [this.wrapper_] *)
Variable wrapper_ : Dom.NodeRef.

(** [while (wrapper_.firstChild)
       wrapper_.removeChild(wrapper_.firstChild)];
    [None] when [fuel] iterations do not finish the loop. *)
Fixpoint detach_wrapped (fuel : nat) (d : Dom.Dom)
    : option (Res () * Dom.Dom) :=
  match Dom.firstChild wrapper_ d with
  | None => Some (Ok (), d)
  | Some c =>
      match fuel with
      | O => None
      | S fuel' =>
          match Dom.removeChild wrapper_ (Some c) d with
          | (Ok _, d') => detach_wrapped fuel' d'
          | (Throw e, d') => Some (Throw e, d')
          end
      end
  end.

(** [sanitize(node)]; the loop gets as much fuel as the wrapper
    has children. *)
Definition sanitize (node : Dom.NodeRef) (d : Dom.Dom)
    : option (Res bool * Dom.Dom) :=
  (* DOMPurify sanitizes unsafe nodes by detaching them from parents.
     So, an unsafe `node` that has no parent will cause a runtime
     error. To avoid this, wrap `node` in a <div> if it has no
     parent. *)
  let useWrapper := bool_decide (Dom.parentNode node d = None) in
  match (if useWrapper then Dom.appendChild wrapper_ node d
         else (Ok (), d)) with
  | (Throw e, d) => Some (Throw e, d)
  | (Ok _, d) =>
      let parent := default wrapper_ (Dom.parentNode node d) in
      match purifier_sanitize parent d with
      | (Throw e, d) => Some (Throw e, d)
      | (Ok _, d) =>
          match Dom.firstChild parent d with
          | None => Some (Ok false, d)
          | Some clean =>
              (* Detach `node` if we used a wrapper div. *)
              if useWrapper then
                match detach_wrapped
                        (length (default []
                           (Dom.childNodes <$> d !! wrapper_))) d with
                | Some (Ok _, d) => Some (Ok true, d)
                | Some (Throw e, d) => Some (Throw e, d)
                | None => None
                end
              else Some (Ok true, d)
          end
      end
  end.
End Sanitize.
Section Mutate.
(** [this.allowedTags_[tag]], from [getAllowedTags()] of
    [src/purifier]. *)
Variable allowedTags_ : string → bool.
(** [validateAttributeChange(this.purifier_, node, attr, value)] of
    [src/purifier]; it reads the document. *)
Variable validateAttributeChange
  : Dom.Dom → Dom.NodeRef → string → option string → bool.
(** [rewriteAttributeValue(tag, attr, value)] of [src/url-rewrite]. *)
Variable rewriteAttributeValue : string → string → string → string.

(** [mutateAttribute(node, attribute, value)]; [value] may be null. *)
Definition mutateAttribute (node : Dom.NodeRef) (attribute : string)
    (value : option string) : JS Dom.Dom bool := λ d,
  match d !! node with
  | None => (Throw TypeError, d)
  | Some n =>
      let tag := toLowerCase (Dom.nodeName n) in
      (* DOMPurify's attribute validation is tag-agnostic, so we need
         to check that the tag itself is valid. *)
      if negb (allowedTags_ tag) then (Ok false, d)
      else
        let attr := toLowerCase attribute in
        if validateAttributeChange d node attr value then
          ((match value with
            | None => Dom.removeAttribute node attr
            | Some v =>
                Dom.setAttribute node attr (rewriteAttributeValue tag attr v)
            end) ;;
           (* a[href] requires [target], which defaults to _top. *)
           (if decide (tag = "a") then
              let* href := Dom.hasAttribute node "href" in
              if href : bool then
                let* target := Dom.hasAttribute node "target" in
                if target : bool then ret ()
                else Dom.setAttribute node "target" "_top"
              else ret ()
            else ret ()) ;;
           ret true) d
        else (Ok false, d)
  end.

(** [mutateProperty(node, property, value)] *)
Definition mutateProperty (node : Dom.NodeRef) (property value : string)
    : JS Dom.Dom bool := λ d,
  let prop := toLowerCase property in
  (* worker-dom's supported properties and corresponding attribute
     name differences are minor, e.g. acceptCharset vs.
     accept-charset. *)
  if validateAttributeChange d node prop (Some value) then
    (Dom.set_property node property value ;; ret true) d
  else (Ok false, d).
End Mutate.

End SanitizerImpl.

End AmpScript.

(* ------------------------------------------------------------------ *)
(** ** amp-list.js: the items handed to the renderer                   *)
(* ------------------------------------------------------------------ *)

Module AmpList.
Section Items.
(** A JSON value of the response. *)
Variable Item : Type.

(** What the response holds at the items expression. *)
Inductive Fetched :=
  | Undefined
  | Array (items : list Item)
  | NotArray (item : Item).

(** The items passed on to [renderItems_], or the error that a failing
    [user().assert] throws. *)
Inductive Outcome :=
  | Items (items : list Item)
  | UserError.

(** [items.slice(0, end)] *)
Definition slice0 (end_ : Z) (items : list Item) : list Item :=
  if (end_ <? 0)%Z
  then take (Z.to_nat (Z.of_nat (length items) + end_)) items
  else take (Z.to_nat end_) items.

(** The continuation of [fetchList_] on the fetched value, up to the
    call of [renderItems_]. [single_item] is
    [element.hasAttribute('single-item')]; [maxLen] is
    [parseInt(element.getAttribute('max-items'), 10)], with [None] for
    NaN. *)
Definition fetched_items (single_item : bool) (maxLen : option Z)
    (items : Fetched) : Outcome :=
  let items :=
    if single_item then
      match items with
      | Undefined => None          (* typeof items !== 'undefined' *)
      | NotArray v => Some (Array [v])
      | Array _ => Some items
      end
    else Some items in
  match items with
  | Some (Array l) =>
      Items (match maxLen with
             | Some m =>
                 if (m <? Z.of_nat (length l))%Z then slice0 m l else l
             | None => l
             end)
  | _ => UserError
  end.
End Items.
End AmpList.

(* ================================================================== *)
(** * Part II: the properties                                          *)
(* ================================================================== *)

(** ** C1: the admission controller *)

Section AdmissionFacts.
Import AmpScript.
Variable isLayoutSizeDefined : string → bool.

(** The pump admitted batch [b]: among the vsync callbacks scheduled by
    the call is the one that runs [b]'s [flushMutations]. *)
Definition admitted (b : Batch) (before after : Element) : Prop :=
  FlushAndFit b ∈ drop (length (vsync_mutate before)) (vsync_mutate after).

(** The batches flushed once vsync has run what is scheduled. *)
Definition flushes_of (ts : list VsyncTask) : list Batch :=
  omap (λ t, match t with FlushAndFit b => Some b | AddHydrated => None end) ts.

Lemma flushed_fold_run ts el :
  flushed (fold_left (λ e t, run_task t e) ts el) = flushed el ++ flushes_of ts.
Proof.
  revert el. induction ts as [|t ts IH]; intros el; simpl.
  - by rewrite app_nil_r.
  - rewrite IH. destruct t; simpl; [done|]. by rewrite <- app_assoc.
Qed.

Lemma flushed_vsync_run el :
  flushed (vsync_run el) = flushed el ++ flushes_of (vsync_mutate el).
Proof. unfold vsync_run. by rewrite flushed_fold_run. Qed.

Lemma Qle_b_true a b : Qle_b a b = true ↔ (a <= b)%Q.
Proof. apply Qle_bool_iff. Qed.

Lemma classList_add_elem c l : c ∈ classList_add c l.
Proof. unfold classList_add. case_decide; [done|]. set_solver. Qed.

Lemma classList_add_other c d l : d ∈ classList_add c l ↔ d = c ∨ d ∈ l.
Proof.
  unfold classList_add. case_decide.
  - split; [by right|]. intros [->|?]; done.
  - rewrite elem_of_app, list_elem_of_singleton. tauto.
Qed.

Lemma classList_remove_elem c d l : d ∈ classList_remove c l ↔ d ≠ c ∧ d ∈ l.
Proof. unfold classList_remove. by rewrite list_elem_of_filter. Qed.

(** C1. Hydrating batches are always admitted; a mutating batch is
    admitted iff the activation tracker reports active or the layout is
    size-defined with a layout-box height of at most 300; a batch that is
    not admitted is not applied, the worker is terminated, and the class
    list gains i-amphtml-broken and loses i-amphtml-hydrated. *)
Theorem C1_mutationPump_admission
    (b : Batch) (phase : Z) (el : Element) (w : Worker)
    (u : UserActivationTracker)
    (Hworker : workerDom_ el = Some w)
    (Htracker : userActivation_ el = Some u) :
  let r := mutationPump_ isLayoutSizeDefined b phase el in
  let free := isActive u = true
              ∨ (isLayoutSizeDefined (getLayout el) = true
                 ∧ (getLayoutBox_height el <= MAX_FREE_MUTATION_HEIGHT)%Q) in
  (phase = Phase.HYDRATING →
     r = (Ok (), mutate (FlushAndFit b) (mutate AddHydrated el))
     ∧ admitted b el r.2)
  ∧ (phase = Phase.MUTATING →
     (r.1 = Ok () ∧ admitted b el r.2) ↔ free)
  ∧ (phase = Phase.MUTATING → ¬ free →
     r.1 = Ok ()
     ∧ vsync_mutate r.2 = vsync_mutate el
     ∧ flushed (vsync_run r.2) = flushed (vsync_run el)
     ∧ workerDom_ r.2 = Some {| terminated := true |}
     ∧ "i-amphtml-broken" ∈ classList r.2
     ∧ "i-amphtml-hydrated" ∉ classList r.2).
Proof.
  intros r free.
  assert (Hfree : free ↔
    isActive u || (isLayoutSizeDefined (getLayout el)
      && Qle_b (getLayoutBox_height el) MAX_FREE_MUTATION_HEIGHT) = true).
  { unfold free. rewrite orb_true_iff, andb_true_iff, Qle_b_true. tauto. }
  split; [|split].
  - intros ->. subst r. unfold mutationPump_, allowMutation. simpl.
    split; [done|]. unfold admitted. simpl.
    rewrite <- app_assoc, drop_app_length.
    apply elem_of_app. right. by apply list_elem_of_singleton.
  - intros ->. subst r. unfold mutationPump_, allowMutation. simpl.
    rewrite Htracker, Hworker, Hfree.
    destruct (isActive u || _) eqn:E; simpl.
    + split; [done|]. intros _. split; [done|]. unfold admitted. simpl.
      rewrite drop_app_length. by apply list_elem_of_singleton.
    + split; [|done]. intros [_ Hadm]. unfold admitted in Hadm. simpl in Hadm.
      rewrite drop_all in Hadm. by apply elem_of_nil in Hadm.
  - intros -> Hn. rewrite Hfree in Hn. apply not_true_is_false in Hn.
    subst r. unfold mutationPump_, allowMutation. simpl.
    rewrite Htracker, Hworker, Hn. simpl.
    repeat split.
    + by rewrite !flushed_vsync_run.
    + apply classList_add_elem.
    + rewrite classList_add_other, classList_remove_elem. intros [?|[? _]]; done.
Qed.

(** A mutating batch on a 500px, size-defined element without user
    activation is rejected. *)
Definition C1_element : Element :=
  {| classList := ["i-amphtml-hydrated"]; getLayout := "fixed";
     getLayoutBox_height := 500; workerDom_ := Some {| terminated := false |};
     userActivation_ := Some {| isActive := false |}; iframe_ := false;
     vsync_mutate := []; flushed := []; fitRequests := 0; userErrors := 0 |}.
End AdmissionFacts.

(** The pump on [C1_element]: a hydration batch is flushed; a 500px-tall
    element without user activation has its mutation batch rejected. *)
Lemma C1_mutationPump_admission_witness :
  let pump := AmpScript.mutationPump_ (λ _, true) 7 in
  let r := pump AmpScript.Phase.MUTATING C1_element in
  pump AmpScript.Phase.HYDRATING C1_element
  = (Ok (), AmpScript.mutate (AmpScript.FlushAndFit 7)
              (AmpScript.mutate AmpScript.AddHydrated C1_element))
  ∧ ¬ (r.1 = Ok () ∧ admitted 7 C1_element r.2)
  ∧ r.1 = Ok ()
  ∧ AmpScript.vsync_mutate r.2 = AmpScript.vsync_mutate C1_element
  ∧ AmpScript.flushed (AmpScript.vsync_run r.2)
    = AmpScript.flushed (AmpScript.vsync_run C1_element)
  ∧ AmpScript.workerDom_ r.2 = Some {| AmpScript.terminated := true |}
  ∧ "i-amphtml-broken" ∈ AmpScript.classList r.2
  ∧ "i-amphtml-hydrated" ∉ AmpScript.classList r.2.
Proof.
  intros pump r.
  assert (Hfree : ¬ (AmpScript.isActive {| AmpScript.isActive := false |} = true
            ∨ ((λ _ : string, true) (AmpScript.getLayout C1_element) = true
               ∧ (AmpScript.getLayoutBox_height C1_element
                    <= AmpScript.MAX_FREE_MUTATION_HEIGHT)%Q))).
  { intros [Hact | [_ Hle]]; [discriminate Hact|].
    vm_compute in Hle. apply Hle. reflexivity. }
  destruct (C1_mutationPump_admission (λ _, true) 7 AmpScript.Phase.HYDRATING
              C1_element _ _ eq_refl eq_refl) as (Hhyd & _ & _).
  destruct (C1_mutationPump_admission (λ _, true) 7 AmpScript.Phase.MUTATING
              C1_element _ _ eq_refl eq_refl) as (_ & Hiff & Hrej).
  split; [exact (proj1 (Hhyd eq_refl))|].
  split; [intros Hadm; exact (Hfree (proj1 (Hiff eq_refl) Hadm))|].
  exact (Hrej eq_refl Hfree).
Defined.

(** ** The event proxy (C5, C10) *)

Section EventProxyFacts.
Import Renderer.

(** Whatever the event and whatever the outcome, the proxy leaves the
    Gesture Clock at the reading of [Date.now()] it started with. *)
Lemma proxyEvent_clock (now : Z) (e : Event) (st : State) :
  timeOfLastUserGesture (proxyEvent now e st).2 = now.
Proof.
  unfold proxyEvent, bind, postToWorker, ret.
  repeat (case_match; simplify_eq/=; try done).
Qed.

(** A click that arrives while [touchStart] is set is dropped: nothing
    is posted, and only the Gesture Clock changes. *)
Lemma proxyEvent_click_suppressed (now : Z) (e : Event) (st : State) :
  e_type e = "click" → is_Some (touchStart st) →
  proxyEvent now e st = (Ok (Some false), with_timeOfLastUserGesture now st).
Proof.
  intros Hty Hts. unfold proxyEvent. simpl.
  rewrite (bool_decide_eq_true_2 _ Hty), (bool_decide_eq_true_2 _ Hts).
  done.
Qed.


(** C10. Every event the proxy receives, a suppressed native click
    included, sets the Gesture Clock to the current time before anything
    else happens: with clock readings that do not go back the Gesture
    Clock never decreases, and a suppressed click leaves it where a
    forwarded event would. *)
Theorem C10_gesture_clock_refreshed (now : Z) (e : Event) (st : State) :
  timeOfLastUserGesture (proxyEvent now e st).2 = now
  ∧ ((timeOfLastUserGesture st ≤ now)%Z →
     (timeOfLastUserGesture st
        ≤ timeOfLastUserGesture (proxyEvent now e st).2)%Z)
  ∧ (e_type e = "click" → is_Some (touchStart st) →
     (proxyEvent now e st).1 = Ok (Some false)
     ∧ posted (proxyEvent now e st).2 = posted st
     ∧ ∀ e', timeOfLastUserGesture (proxyEvent now e st).2
             = timeOfLastUserGesture (proxyEvent now e' st).2).
Proof.
  split; [apply proxyEvent_clock|]. split.
  - intros Hle. by rewrite proxyEvent_clock.
  - intros Hty Hts. rewrite (proxyEvent_click_suppressed _ _ _ Hty Hts).
    simpl. repeat split. intros e'. by rewrite proxyEvent_clock.
Qed.


(** A native click. *)
Definition click_event (x y : Q) : Event :=
  {| e_type := "click";
     e_target := Some {| target__id := Some "n1"; target_value := None |};
     e_changedTouches := []; e_touches := [];
     e_pageX := Some x; e_pageY := Some y;
     e_enumerable := [("type", VStr "click"); ("isTrusted", VBool true)] |}.


(** A state in which a touch has started. *)
Definition tapped_state : State :=
  with_touchStart (Some {| pageX := Some 0%Q; pageY := Some 0%Q |})
    (init 5 "/" []).

End EventProxyFacts.

(** A click at time 9 after a tap: the clock moves on to 9, and the click
    is dropped without a message to the worker. *)
Lemma C10_gesture_clock_refreshed_witness :
  let r := Renderer.proxyEvent 9 (click_event 0 0) tapped_state in
  (Renderer.timeOfLastUserGesture tapped_state ≤ 9)%Z
  ∧ (Renderer.timeOfLastUserGesture tapped_state
       ≤ Renderer.timeOfLastUserGesture r.2)%Z
  ∧ r.1 = Ok (Some false)
  ∧ Renderer.posted r.2 = Renderer.posted tapped_state.
Proof.
  intros r.
  destruct (C10_gesture_clock_refreshed 9 (click_event 0 0) tapped_state)
    as (_ & Hmono & Hclick).
  assert (Hle : (Renderer.timeOfLastUserGesture tapped_state ≤ 9)%Z)
    by (simpl; lia).
  split; [exact Hle|]. split; [exact (Hmono Hle)|].
  destruct (Hclick eq_refl (ex_intro _ _ eq_refl)) as (Hres & Hposted & _).
  split; [exact Hres | exact Hposted].
Defined.


(** ** The node materializer (C8, C3) *)

Section MaterializerFacts.
Import Renderer.
Context {platform : Platform}.

(** Running a command that ends in [bind]. *)
Lemma bind_run {S A B} (m : JS S A) (f : A → JS S B) (st : S) :
  bind m f st = match m st with
                | (Ok a, st') => f a st'
                | (Throw e, st') => (Throw e, st')
                end.
Proof. reflexivity. Qed.

Lemma bind_Ok {S A B} (m : JS S A) (f : A → JS S B) st a st' :
  m st = (Ok a, st') → bind m f st = f a st'.
Proof. intros H. by rewrite bind_run, H. Qed.

Lemma bind_Throw {S A B} (m : JS S A) (f : A → JS S B) st e st' :
  m st = (Throw e, st') → bind m f st = (Throw e, st').
Proof. intros H. by rewrite bind_run, H. Qed.

Lemma bind_inv {S A B} (m : JS S A) (f : A → JS S B) st r st' :
  bind m f st = (r, st') →
  (∃ a st1, m st = (Ok a, st1) ∧ f a st1 = (r, st'))
  ∨ (∃ e, m st = (Throw e, st') ∧ r = Throw e).
Proof.
  rewrite bind_run. destruct (m st) as [[a|e] st1]; intros H.
  - left. eauto.
  - right. exists e. by simplify_eq.
Qed.

(** A write to the node created last. *)
Lemma update_last (d : Dom.Dom) (n : Dom.DomNode) f :
  Dom.update (length d) f (d ++ [n]) = (Ok (), d ++ [f n]).
Proof.
  unfold Dom.update. rewrite list_lookup_middle by done.
  replace (length d) with (length d + 0) at 1 by lia.
  by rewrite alter_app_r.
Qed.

(** C8, at the failing input: an element skeleton whose style map has
    one entry [k: v]. Where no identifier [i] is in scope [createNode]
    raises a ReferenceError instead of producing the element; where
    one is, the entry is written under [i], not under [k]. *)
Theorem C8_style_entry_not_under_its_name
    (st : State) (nodeName className k v data id : string) (sanitize : bool) :
  let skeleton :=
    Skeleton.mk Dom.ELEMENT_NODE nodeName className [(k, v)] [] [] data id in
  match global_i with
  | None => (createNode skeleton sanitize st).1 = Throw ReferenceError
  | Some i =>
      (createNode skeleton false st).1 = Ok (length (heap st))
      ∧ Dom.style <$> heap (createNode skeleton false st).2 !! length (heap st)
        = Some [(i, v)]
  end.
Proof.
  intros skeleton. subst skeleton. unfold createNode.
  change (Dom.ELEMENT_NODE =? Dom.TEXT_NODE)%Z with false.
  change (Dom.ELEMENT_NODE =? Dom.ELEMENT_NODE)%Z with true.
  cbv iota. unfold forM_, set_style_i.
  destruct global_i as [i|].
  - unfold bindNodeToSkeletonId, Dom.createElement, Dom.set_className,
      Dom.set_style, Dom.set___id, bind, dom, ret. simpl.
    destruct (decide (className = "")); simpl;
      rewrite ?update_last; simpl; rewrite ?update_last; simpl;
      rewrite ?update_last; simpl;
      (split; [done|]); by rewrite list_lookup_middle.
  - unfold Dom.createElement, Dom.set_className, bind, dom, throw, ret. simpl.
    destruct (decide (className = "")); simpl; rewrite ?update_last; done.
Qed.

(** *** Skeleton trees *)

(** Induction over a skeleton and its child skeletons. *)
Lemma Skeleton_tree_ind (P : Skeleton.t → Prop) :
  (∀ nodeType nodeName className style attributes childNodes data id,
     Forall P childNodes →
     P (Skeleton.mk nodeType nodeName className style attributes childNodes
          data id)) →
  ∀ s, P s.
Proof.
  intros H. fix IH 1. intros [nt nn cn sty ats cs d id]. apply H.
  exact ((fix go (l : list Skeleton.t) : Forall P l :=
            match l with
            | [] => @List.Forall_nil _ P
            | c :: l' => @List.Forall_cons _ P c l' (IH c) (go l')
            end) cs).
Qed.

(** A skeleton and all the skeletons below it that [createNode]
    visits: the child skeletons of element skeletons. *)
Fixpoint subtree (s : Skeleton.t) : list Skeleton.t :=
  match s with
  | Skeleton.mk nodeType _ _ _ _ childNodes _ _ =>
      s :: (if (nodeType =? Dom.ELEMENT_NODE)%Z
            then flat_map subtree childNodes else [])
  end.

(** The visited skeletons strictly below [s]. *)
Definition descendants (s : Skeleton.t) : list Skeleton.t :=
  if (Skeleton.nodeType s =? Dom.ELEMENT_NODE)%Z
  then flat_map subtree (Skeleton.childNodes s) else [].

Lemma subtree_eq (s : Skeleton.t) : subtree s = s :: descendants s.
Proof. by destruct s. Qed.

(** The first part of [createNode]: everything up to the sanitizer
    call, which yields the local variable [node]. *)
Definition construct (skeleton : Skeleton.t) : M (option Dom.NodeRef) :=
  match skeleton with
  | Skeleton.mk nodeType nodeName className styles attributes childNodes
      data id =>
      if (nodeType =? Dom.TEXT_NODE)%Z then
        let* node := dom (Dom.createTextNode data) in
        ret (Some node)
      else if (nodeType =? Dom.ELEMENT_NODE)%Z then
        let* node := dom (Dom.createElement nodeName) in
        (if decide (className = "") then ret ()
         else dom (Dom.set_className node className)) ;;
        forM_ (λ s : string * string, set_style_i node s.2) styles ;;
        forM_ (λ a : string * string, dom (Dom.setAttribute node a.1 a.2))
          attributes ;;
        forM_ (λ c, let* child := createNode c (negb SANITIZE_IN_PLACE) in
                    dom (Dom.appendChild node child))
          childNodes ;;
        ret (Some node)
      else ret None
  end.

Lemma createNode_unfold (skeleton : Skeleton.t) (sanitize : bool) :
  createNode skeleton sanitize
  = (let* node := construct skeleton in
     (if sanitize && SANITIZE_IN_PLACE then sanitize_in_place node
      else ret ()) ;;
     bindNodeToSkeletonId node (Skeleton.__id skeleton) ;;
     match node with
     | Some r => ret r
     | None => throw TypeError
     end).
Proof. by destruct skeleton. Qed.

(** *** Relations that every step of a command preserves *)

Section Preserves.
Context {S : Type} (R : S → S → Prop) `{!PreOrder R}.

Definition preserves {A} (m : JS S A) : Prop := ∀ st, R st (m st).2.

Lemma preserves_ret {A} (a : A) : preserves (ret a).
Proof. intros st. reflexivity. Qed.

Lemma preserves_throw {A} (e : JsError) : preserves (@throw S A e).
Proof. intros st. reflexivity. Qed.

Lemma preserves_bind {A B} (m : JS S A) (f : A → JS S B) :
  preserves m → (∀ a, preserves (f a)) → preserves (bind m f).
Proof.
  intros Hm Hf st. rewrite bind_run. specialize (Hm st).
  destruct (m st) as [[a|e] st1]; simpl in *; [|done].
  etrans; [exact Hm | apply Hf].
Qed.

Lemma preserves_forM_ {A} (f : A → JS S ()) (l : list A) :
  Forall (λ x, preserves (f x)) l → preserves (forM_ f l).
Proof.
  induction 1 as [|x l Hx _ IH]; simpl.
  - apply preserves_ret.
  - apply preserves_bind; [done|]. intros _. apply IH.
Qed.

Lemma preserves_state_dep {A} (m : S → JS S A) :
  (∀ s, preserves (m s)) → preserves (λ st, m st st).
Proof. intros H st. apply H. Qed.
End Preserves.

(** The identity map only grows: a bound id stays bound. *)
Definition ids_kept (st st' : State) : Prop :=
  ∀ id, is_Some (NODES st !! id) → is_Some (NODES st' !! id).

#[local] Instance ids_kept_preorder : PreOrder ids_kept.
Proof. split; [by intros st id | intros a b c H1 H2 id H; auto]. Qed.

(** No call of the sanitizer. *)
Definition unsanitized (st st' : State) : Prop :=
  sanitized st' = sanitized st.

#[local] Instance unsanitized_preorder : PreOrder unsanitized.
Proof.
  split; [done|]. intros a b c H1 H2. unfold unsanitized in *. congruence.
Qed.

Lemma dom_run {A} (c : JS Dom.Dom A) (st : State) :
  dom c st = ((c (heap st)).1, with_heap (c (heap st)).2 st).
Proof. unfold dom. by destruct (c (heap st)). Qed.

Lemma preserves_dom (R : State → State → Prop) {A} (c : JS Dom.Dom A) :
  (∀ st d, R st (with_heap d st)) → preserves R (dom c).
Proof. intros H st. rewrite dom_run. apply H. Qed.

Lemma ids_kept_heap st d : ids_kept st (with_heap d st).
Proof. by intros id. Qed.

Lemma unsanitized_heap st d : unsanitized st (with_heap d st).
Proof. done. Qed.

Lemma bindNodeToSkeletonId_ids node id :
  preserves ids_kept (bindNodeToSkeletonId node id).
Proof.
  destruct node as [r|]; simpl; [|apply (preserves_throw ids_kept)].
  apply (preserves_bind ids_kept); [apply preserves_dom, ids_kept_heap|].
  intros _ st id' H. simpl. rewrite lookup_insert. by case_decide.
Qed.

Lemma bindNodeToSkeletonId_unsanitized node id :
  preserves unsanitized (bindNodeToSkeletonId node id).
Proof.
  destruct node as [r|]; simpl; [|apply (preserves_throw unsanitized)].
  apply (preserves_bind unsanitized); [apply preserves_dom, unsanitized_heap|].
  by intros _ st.
Qed.

Lemma sanitize_in_place_ids node : preserves ids_kept (sanitize_in_place node).
Proof. intros st. unfold sanitize_in_place. rewrite dom_run. by intros id. Qed.

Lemma set_style_i_preserves (R : State → State → Prop) `{!PreOrder R} node v :
  (∀ st d, R st (with_heap d st)) → preserves R (set_style_i node v).
Proof.
  intros H. unfold set_style_i.
  destruct global_i; [by apply preserves_dom | apply (preserves_throw R)].
Qed.

(** [construct] and [createNode] keep a relation that ignores the
    document, provided binding an id and (when enabled) the sanitizer
    call keep it. *)
Lemma createNode_preserves (R : State → State → Prop) `{!PreOrder R} :
  (∀ st d, R st (with_heap d st)) →
  (∀ node id, preserves R (bindNodeToSkeletonId node id)) →
  ∀ skeleton,
    preserves R (construct skeleton)
    ∧ preserves R (createNode skeleton false)
    ∧ ((∀ node, preserves R (sanitize_in_place node)) →
       preserves R (createNode skeleton true)).
Proof.
  intros Hheap Hbind skeleton.
  induction skeleton as [nt nn cn sty ats cs d id IH] using Skeleton_tree_ind.
  assert (Hc : preserves R
            (construct (Skeleton.mk nt nn cn sty ats cs d id))).
  { unfold construct. repeat case_match;
      repeat first
        [ apply (preserves_ret R)
        | apply preserves_dom; assumption
        | apply (preserves_bind R); [|intros ?] ].
    - apply (preserves_forM_ R). apply Forall_forall. intros x _.
      by apply set_style_i_preserves.
    - apply (preserves_forM_ R). apply Forall_forall. intros x _.
      by apply preserves_dom.
    - apply (preserves_forM_ R). eapply Forall_impl; [exact IH|].
      intros c (_ & Hf & _). simpl.
      apply (preserves_bind R); [exact Hf|]. intros ?.
      by apply preserves_dom.
    - apply (preserves_forM_ R). apply Forall_forall. intros x _.
      by apply set_style_i_preserves.
    - apply (preserves_forM_ R). apply Forall_forall. intros x _.
      by apply preserves_dom.
    - apply (preserves_forM_ R). eapply Forall_impl; [exact IH|].
      intros c (_ & Hf & _). simpl.
      apply (preserves_bind R); [exact Hf|]. intros ?.
      by apply preserves_dom. }
  split; [exact Hc|]. split.
  - rewrite createNode_unfold. simpl.
    repeat (apply (preserves_bind R); [|intros ?]); try done.
    + apply (preserves_ret R).
    + case_match; [apply (preserves_ret R) | apply (preserves_throw R)].
  - intros Hsan. rewrite createNode_unfold. simpl.
    repeat (apply (preserves_bind R); [|intros ?]); try done.
    case_match; [apply (preserves_ret R) | apply (preserves_throw R)].
Qed.

Lemma createNode_ids skeleton sanitize :
  preserves ids_kept (createNode skeleton sanitize).
Proof.
  pose proof (createNode_preserves ids_kept ids_kept_heap
                bindNodeToSkeletonId_ids skeleton) as (_ & Hf & Ht).
  destruct sanitize; [apply Ht, sanitize_in_place_ids | exact Hf].
Qed.

Lemma construct_unsanitized skeleton :
  preserves unsanitized (construct skeleton).
Proof.
  apply (createNode_preserves unsanitized unsanitized_heap
           bindNodeToSkeletonId_unsanitized skeleton).
Qed.

Lemma createNode_false_unsanitized skeleton :
  preserves unsanitized (createNode skeleton false).
Proof.
  apply (createNode_preserves unsanitized unsanitized_heap
           bindNodeToSkeletonId_unsanitized skeleton).
Qed.

(** *** What [createNode] binds *)

(** The id of [x] is bound in the identity map. *)
Definition bound (st : State) (x : Skeleton.t) : Prop :=
  is_Some (NODES st !! Skeleton.__id x).

Lemma bindNodeToSkeletonId_Ok node id st u st' :
  bindNodeToSkeletonId node id st = (Ok u, st') →
  ∃ r, node = Some r ∧ NODES st' = <[id := r]> (NODES st).
Proof.
  destruct node as [r|]; simpl; [|by unfold throw].
  rewrite bind_run, dom_run.
  destruct (Dom.set___id r id (heap st)) as [[[]|e] d]; simpl; [|done].
  intros [= <-]. exists r. by simplify_eq.
Qed.

Lemma construct_node skeleton st n st1 :
  construct skeleton st = (Ok (Some n), st1) → n = length (heap st).
Proof.
  destruct skeleton as [nt nn cn sty ats cs d id]. unfold construct.
  destruct (nt =? Dom.TEXT_NODE)%Z.
  { rewrite bind_run, dom_run. simpl. unfold ret. intros H. by simplify_eq. }
  destruct (nt =? Dom.ELEMENT_NODE)%Z; [|by unfold ret].
  rewrite bind_run, dom_run. simpl. intros H.
  do 4 (apply bind_inv in H as [(? & ? & _ & H)|(? & _ & ?)]; [|done]).
  unfold ret in H. by simplify_eq.
Qed.

(** A normal return of [createNode] leaves the skeleton's id bound to
    the node returned, a node that did not exist before the call. *)
Lemma createNode_bound skeleton sanitize st n st' :
  createNode skeleton sanitize st = (Ok n, st') →
  NODES st' !! Skeleton.__id skeleton = Some n ∧ n = length (heap st).
Proof.
  rewrite createNode_unfold. intros H.
  apply bind_inv in H as [(node & st1 & Hc & H)|(e & _ & ?)]; [|done].
  apply bind_inv in H as [(u1 & st2 & Hs & H)|(e & _ & ?)]; [|done].
  apply bind_inv in H as [(u2 & st3 & Hb & H)|(e & _ & ?)]; [|done].
  apply bindNodeToSkeletonId_Ok in Hb as (r & -> & HN).
  unfold ret in H. simplify_eq. rewrite HN, lookup_insert_eq.
  split; [done|]. by eapply construct_node.
Qed.

Lemma forM__cons {S A} (f : A → JS S ()) (x : A) (l : list A) :
  forM_ f (x :: l) = (f x ;; forM_ f l).
Proof. reflexivity. Qed.

Lemma children_bound node cs st st' :
  Forall (λ c, ∀ s st n st', createNode c s st = (Ok n, st') →
                 ∀ x, x ∈ subtree c → bound st' x) cs →
  forM_ (λ c, let* child := createNode c (negb SANITIZE_IN_PLACE) in
              dom (Dom.appendChild node child)) cs st = (Ok (), st') →
  ∀ x, x ∈ flat_map subtree cs → bound st' x.
Proof.
  intros HF. revert st. induction HF as [|c cs Hc HF IH]; intros st H x Hx.
  { by apply elem_of_nil in Hx. }
  rewrite forM__cons in H. simpl in Hx.
  apply bind_inv in H as [(u & st1 & Hf & H)|(e & _ & ?)]; [|done].
  apply bind_inv in Hf as [(child & st0 & Hcr & Hf)|(e & _ & ?)]; [|done].
  apply elem_of_app in Hx as [Hx|Hx]; [|by eapply IH].
  assert (Hk : ids_kept st0 st'); [|by eapply Hk, Hc].
  trans st1.
  - rewrite dom_run in Hf. simplify_eq. apply ids_kept_heap.
  - assert (Hp : preserves ids_kept
      (forM_ (λ c, let* child := createNode c (negb SANITIZE_IN_PLACE) in
                   dom (Dom.appendChild node child)) cs)).
    { apply (preserves_forM_ ids_kept), Forall_forall. intros c' _.
      apply (preserves_bind ids_kept); [apply createNode_ids|].
      intros ?. apply preserves_dom, ids_kept_heap. }
    specialize (Hp st1). by rewrite H in Hp.
Qed.

(** When [construct] completes, every visited skeleton below the root
    is bound; when [createNode] returns, so is the root. *)
Lemma createNode_subtree_bound skeleton :
  (∀ st node st1, construct skeleton st = (Ok node, st1) →
     ∀ x, x ∈ descendants skeleton → bound st1 x)
  ∧ (∀ s st n st', createNode skeleton s st = (Ok n, st') →
     ∀ x, x ∈ subtree skeleton → bound st' x).
Proof.
  induction skeleton as [nt nn cn sty ats cs d id IH] using Skeleton_tree_ind.
  assert (Hc : ∀ st node st1,
    construct (Skeleton.mk nt nn cn sty ats cs d id) st = (Ok node, st1) →
    ∀ x, x ∈ descendants (Skeleton.mk nt nn cn sty ats cs d id) → bound st1 x).
  { intros st node st1 H x Hx. unfold descendants in Hx. simpl in *.
    destruct (nt =? Dom.TEXT_NODE)%Z eqn:Et.
    { apply Z.eqb_eq in Et as ->. by apply elem_of_nil in Hx. }
    destruct (nt =? Dom.ELEMENT_NODE)%Z; [|by apply elem_of_nil in Hx].
    apply bind_inv in H as [(r & s1 & _ & H)|(e & _ & ?)]; [|done].
    apply bind_inv in H as [(u1 & s2 & _ & H)|(e & _ & ?)]; [|done].
    apply bind_inv in H as [(u2 & s3 & _ & H)|(e & _ & ?)]; [|done].
    apply bind_inv in H as [(u3 & s4 & _ & H)|(e & _ & ?)]; [|done].
    apply bind_inv in H as [([] & s5 & Hch & H)|(e & _ & ?)]; [|done].
    unfold ret in H. simplify_eq.
    eapply children_bound; [|exact Hch|exact Hx].
    eapply Forall_impl; [exact IH|]. by intros c [_ ?]. }
  split; [exact Hc|].
  intros s st n st' H x Hx. rewrite subtree_eq in Hx.
  apply elem_of_cons in Hx as [->|Hx].
  { apply createNode_bound in H as [H _]. unfold bound. by rewrite H. }
  rewrite createNode_unfold in H.
  apply bind_inv in H as [(node & st1 & Hcon & H)|(e & _ & ?)]; [|done].
  assert (Hk : ids_kept st1 st'); [|by eapply Hk, Hc].
  match type of H with ?m st1 = _ =>
    assert (Hp : preserves ids_kept m) end.
  { apply (preserves_bind ids_kept); [|intros ?].
    - destruct (s && SANITIZE_IN_PLACE);
        [apply sanitize_in_place_ids | apply (preserves_ret ids_kept)].
    - apply (preserves_bind ids_kept); [apply bindNodeToSkeletonId_ids|].
      intros _. destruct node;
        [apply (preserves_ret ids_kept) | apply (preserves_throw ids_kept)]. }
  specialize (Hp st1). by rewrite H in Hp.
Qed.

(** *** What [createNode] leaves alone *)

(** No node lists a child that does not exist. *)
Definition closed (d : Dom.Dom) : Prop :=
  ∀ r n c, d !! r = Some n → c ∈ Dom.childNodes n → c < length d.

Lemma filter_not_elem (c : Dom.NodeRef) (l : list Dom.NodeRef) :
  c ∉ l → filter (λ x, x ≠ c) l = l.
Proof.
  induction l as [|y l IH]; [done|]. intros Hc.
  apply not_elem_of_cons in Hc as [Hy Hl].
  rewrite filter_cons_True by done. by rewrite IH.
Qed.

Lemma with_childNodes_same f n :
  f (Dom.childNodes n) = Dom.childNodes n → Dom.with_childNodes f n = n.
Proof. destruct n. unfold Dom.with_childNodes. simpl. by intros ->. Qed.

(** Detaching a node that no node of [d0] lists leaves [d0] alone. *)
Lemma detach_fresh (d0 : Dom.Dom) (c : Dom.NodeRef) :
  closed d0 → length d0 ≤ c → Dom.detach c d0 = d0.
Proof.
  intros Hcl Hc. unfold Dom.detach. apply list_eq. intros r.
  rewrite list_lookup_fmap. destruct (d0 !! r) as [n|] eqn:E; [|done].
  simpl. f_equal. apply with_childNodes_same, filter_not_elem.
  intros Hin. specialize (Hcl r n c E Hin). lia.
Qed.

Lemma alter_prefix (d0 d : Dom.Dom) (f : Dom.DomNode → Dom.DomNode) (r : nat) :
  d0 `prefix_of` d → length d0 ≤ r → d0 `prefix_of` alter f r d.
Proof.
  intros [k ->] Hr. rewrite alter_app_r_alt by done. by apply prefix_app_r.
Qed.

Lemma detach_prefix (d0 d : Dom.Dom) (c : Dom.NodeRef) :
  closed d0 → length d0 ≤ c → d0 `prefix_of` d → d0 `prefix_of` Dom.detach c d.
Proof.
  intros Hcl Hc [k ->]. unfold Dom.detach. rewrite fmap_app.
  fold (Dom.detach c d0). rewrite detach_fresh by done. by apply prefix_app_r.
Qed.

Section Frame.
Variable d0 : Dom.Dom.
Hypothesis d0_closed : closed d0.

(** Command [m] leaves the nodes of [d0] as they are, and a value it
    returns satisfies [Q]. *)
Definition frames {A} (m : M A) (Q : A → Prop) : Prop :=
  ∀ st, d0 `prefix_of` heap st →
        d0 `prefix_of` heap (m st).2 ∧ ∀ a, (m st).1 = Ok a → Q a.

Lemma frames_ret {A} (a : A) (Q : A → Prop) : Q a → frames (ret a) Q.
Proof. intros HQ st Hp. split; [done|]. simpl. by intros a' [= <-]. Qed.

Lemma frames_throw {A} e (Q : A → Prop) : frames (throw e) Q.
Proof. intros st Hp. by split. Qed.

Lemma frames_bind {A B} (m : M A) (f : A → M B) Q1 Q :
  frames m Q1 → (∀ a, Q1 a → frames (f a) Q) → frames (bind m f) Q.
Proof.
  intros Hm Hf st Hp. rewrite bind_run. destruct (Hm st Hp) as [Hp1 HQ1].
  destruct (m st) as [[a|e] st1]; simpl in *; [|by split].
  by apply Hf; [apply HQ1|].
Qed.

Lemma frames_weaken {A} (m : M A) (Q Q' : A → Prop) :
  frames m Q → (∀ a, Q a → Q' a) → frames m Q'.
Proof. intros Hm HQ st Hp. destruct (Hm st Hp). split; auto. Qed.

Lemma frames_forM_ {A} (f : A → M ()) (l : list A) :
  Forall (λ x, frames (f x) (λ _, True)) l → frames (forM_ f l) (λ _, True).
Proof.
  induction 1 as [|x l Hx _ IH]; [by apply frames_ret|].
  rewrite forM__cons. eapply frames_bind; [exact Hx|]. by intros _ _.
Qed.

Lemma frames_dom {A} (c : JS Dom.Dom A) (Q : A → Prop) :
  (∀ d, d0 `prefix_of` d →
        d0 `prefix_of` (c d).2 ∧ ∀ a, (c d).1 = Ok a → Q a) →
  frames (dom c) Q.
Proof. intros H st Hp. rewrite dom_run. simpl. by apply H. Qed.

Lemma frames_create_text data :
  frames (dom (Dom.createTextNode data)) (λ n, length d0 ≤ n).
Proof.
  apply frames_dom. intros d Hp. simpl. split; [by apply prefix_app_r|].
  intros a [= <-]. by apply prefix_length.
Qed.

Lemma frames_create_element name :
  frames (dom (Dom.createElement name)) (λ n, length d0 ≤ n).
Proof.
  apply frames_dom. intros d Hp. simpl. split; [by apply prefix_app_r|].
  intros a [= <-]. by apply prefix_length.
Qed.

Lemma frames_update r f :
  length d0 ≤ r → frames (dom (Dom.update r f)) (λ _, True).
Proof.
  intros Hr. apply frames_dom. intros d Hp. unfold Dom.update.
  case_match; simpl; (split; [|done]); [by apply alter_prefix|done].
Qed.

Lemma frames_setAttribute r name value :
  length d0 ≤ r → frames (dom (Dom.setAttribute r name value)) (λ _, True).
Proof.
  intros Hr. apply frames_dom. intros d Hp. unfold Dom.setAttribute.
  repeat case_match; simpl; (split; [|done]); try done.
  by apply alter_prefix.
Qed.

Lemma frames_insertBefore p newNode ref :
  length d0 ≤ p → length d0 ≤ newNode →
  frames (dom (Dom.insertBefore p newNode ref)) (λ _, True).
Proof.
  intros Hr Hn. apply frames_dom. intros d Hp. unfold Dom.insertBefore.
  repeat case_match; simpl; (split; [|done]); try done.
  all: apply alter_prefix; [by apply detach_prefix|done].
Qed.

Lemma frames_set_style_i node v :
  length d0 ≤ node → frames (set_style_i node v) (λ _, True).
Proof.
  intros Hn. unfold set_style_i.
  destruct global_i; [by apply frames_update | apply frames_throw].
Qed.

Lemma frames_bindNodeToSkeletonId node id :
  (∀ n, node = Some n → length d0 ≤ n) →
  frames (bindNodeToSkeletonId node id) (λ _, True).
Proof.
  intros Hn. destruct node as [n|]; simpl; [|apply frames_throw].
  eapply frames_bind; [apply frames_update; auto|].
  intros _ _ st Hp. by split.
Qed.

(** Materializing without sanitization leaves every node of [d0] as it
    was, and so does [construct], which precedes the sanitizer call. *)
Lemma createNode_frames skeleton :
  frames (construct skeleton) (λ node, ∀ n, node = Some n → length d0 ≤ n)
  ∧ frames (createNode skeleton false) (λ n, length d0 ≤ n).
Proof.
  induction skeleton as [nt nn cn sty ats cs d id IH] using Skeleton_tree_ind.
  assert (Hc : frames (construct (Skeleton.mk nt nn cn sty ats cs d id))
                 (λ node, ∀ n, node = Some n → length d0 ≤ n)).
  { unfold construct. destruct (nt =? Dom.TEXT_NODE)%Z.
    { eapply frames_bind; [apply frames_create_text|].
      intros n Hn. apply frames_ret. by intros ? [= <-]. }
    destruct (nt =? Dom.ELEMENT_NODE)%Z; [|by apply frames_ret].
    eapply frames_bind; [apply frames_create_element|]. intros node Hn.
    eapply frames_bind with (Q1 := λ _, True).
    { destruct (decide (cn = "")); [by apply frames_ret|].
      by apply frames_update. }
    intros _ _. eapply frames_bind.
    { apply frames_forM_, Forall_forall. intros x _.
      by apply frames_set_style_i. }
    intros _ _. eapply frames_bind.
    { apply frames_forM_, Forall_forall. intros x _.
      by apply frames_setAttribute. }
    intros _ _. eapply frames_bind.
    { apply frames_forM_. eapply Forall_impl; [exact IH|].
      intros c [_ Hf]. simpl. eapply frames_bind; [exact Hf|].
      intros child Hch. by apply frames_insertBefore. }
    intros _ _. apply frames_ret. by intros ? [= <-]. }
  split; [exact Hc|]. rewrite createNode_unfold.
  eapply frames_bind; [exact Hc|]. intros node Hnode. simpl.
  eapply frames_bind with (Q1 := λ _, True); [by apply frames_ret|].
  intros _ _.
  eapply frames_bind; [by apply frames_bindNodeToSkeletonId|]. intros _ _.
  destruct node as [n|]; [apply frames_ret; auto | apply frames_throw].
Qed.
End Frame.

(** *** The scratch container of [SanitizerImpl] *)

Section ScratchContainer.
Import AmpScript.
Variable purifier_sanitize : Dom.NodeRef → JS Dom.Dom ().
Variable wrapper_ : Dom.NodeRef.

(** The child list of [r]. *)
Definition children (r : Dom.NodeRef) (d : Dom.Dom) : list Dom.NodeRef :=
  default [] (Dom.childNodes <$> d !! r).

Lemma firstChild_children r d : Dom.firstChild r d = head (children r d).
Proof. unfold Dom.firstChild, children. by destruct (d !! r). Qed.

Lemma detach_wrapped_unfold (fuel : nat) (d : Dom.Dom) :
  SanitizerImpl.detach_wrapped wrapper_ fuel d
  = match Dom.firstChild wrapper_ d with
    | None => Some (Ok (), d)
    | Some c =>
        match fuel with
        | O => None
        | S fuel' =>
            match Dom.removeChild wrapper_ (Some c) d with
            | (Ok _, d') => SanitizerImpl.detach_wrapped wrapper_ fuel' d'
            | (Throw e, d') => Some (Throw e, d')
            end
        end
    end.
Proof. by destruct fuel. Qed.

(** The loop that empties the scratch container ends within as many
    iterations as the container has children, and leaves it empty. *)
Lemma detach_wrapped_empties (fuel : nat) (d : Dom.Dom) :
  length (children wrapper_ d) ≤ fuel →
  ∃ d', SanitizerImpl.detach_wrapped wrapper_ fuel d = Some (Ok (), d')
        ∧ Dom.firstChild wrapper_ d' = None.
Proof.
  revert d. induction fuel as [|fuel IH]; intros d Hlen;
    rewrite detach_wrapped_unfold, firstChild_children.
  - exists d. assert (Hnil : children wrapper_ d = []).
    { destruct (children wrapper_ d); [done|simpl in Hlen; lia]. }
    rewrite Hnil. simpl. split; [done|]. by rewrite firstChild_children, Hnil.
  - destruct (children wrapper_ d) as [|c cs] eqn:Hcs; simpl.
    { exists d. split; [done|]. by rewrite firstChild_children, Hcs. }
    unfold children in Hcs. unfold Dom.removeChild.
    destruct (d !! wrapper_) as [pn|] eqn:Hw; [|done]. simpl in Hcs.
    rewrite Hcs, bool_decide_eq_true_2 by apply list_elem_of_here.
    apply IH. unfold children.
    rewrite list_lookup_alter_eq, Hw. simpl. rewrite Hcs.
    rewrite filter_cons_False by (intros Hne; by apply Hne).
    etrans; [apply length_filter|]. simpl in Hlen. lia.
Qed.

(** After [wrapper_.appendChild(node)] of a parentless [node], the
    node's parent is the wrapper. *)
Lemma appendChild_parent (node : Dom.NodeRef) (d d1 : Dom.Dom) :
  Dom.appendChild wrapper_ node d = (Ok (), d1) →
  default wrapper_ (Dom.parentNode node d1) = wrapper_.
Proof.
  unfold Dom.appendChild, Dom.insertBefore. intros H.
  destruct (Dom.parentNode node d1) as [p|] eqn:Hp; [|done]. simpl.
  repeat case_match; simplify_eq.
  unfold Dom.parentNode in Hp.
  destruct (list_find _ _) as [[i x]|] eqn:Hf; simplify_eq/=.
  apply list_find_Some in Hf as (Hi & Hin & _).
  destruct (decide (p = wrapper_)) as [|Hne]; [done|].
  rewrite list_lookup_alter_ne in Hi by done.
  unfold Dom.detach in Hi. rewrite list_lookup_fmap in Hi.
  destruct (d !! p) as [n|]; simplify_eq/=.
  apply list_elem_of_filter in Hin as [Hin _]. done.
Qed.

(** [sanitize] always returns, and when it returns a verdict for a
    parentless node the scratch container has no child left. *)
Lemma sanitize_leaves_wrapper_empty (node : Dom.NodeRef) (d : Dom.Dom) :
  ∃ res d',
    SanitizerImpl.sanitize purifier_sanitize wrapper_ node d = Some (res, d')
    ∧ (Dom.parentNode node d = None →
       ∀ b, res = Ok b → Dom.firstChild wrapper_ d' = None).
Proof.
  unfold SanitizerImpl.sanitize.
  destruct (Dom.parentNode node d) as [p|] eqn:Hpar.
  - rewrite bool_decide_eq_false_2 by done.
    destruct (purifier_sanitize _ d) as [[[]|e] d2];
      [|by eexists _, _].
    destruct (Dom.firstChild _ d2); by eexists _, _.
  - rewrite bool_decide_eq_true_2 by done.
    destruct (Dom.appendChild wrapper_ node d) as [[[]|e] d1] eqn:Happ;
      [|eexists _, _; split; [done|]; by intros _ b ?].
    rewrite (appendChild_parent _ _ _ Happ).
    destruct (purifier_sanitize wrapper_ d1) as [[[]|e] d2];
      [|eexists _, _; split; [done|]; by intros _ b ?].
    destruct (Dom.firstChild wrapper_ d2) as [c|] eqn:Hfc.
    + destruct (detach_wrapped_empties
                  (length (default [] (Dom.childNodes <$> d2 !! wrapper_))) d2)
        as (d3 & -> & Hd3); [done|].
      exists (Ok true), d3. split; [done|]. by intros _ b _.
    + exists (Ok false), d2. split; [done|]. by intros _ b _.
Qed.
End ScratchContainer.

(** C3 (amended). [createNode] has no rejection outcome of its own.
    When [createNode(S, true)] returns, it returns the node it created
    with the id of [S] bound to it, whatever the sanitizer removed; once
    the sanitizer has been called the ids of all skeletons below [S] are
    bound, also when the sanitizer raises. [createNode] itself attaches
    the created node to no existing node: up to the sanitizer call, and
    throughout a call without sanitization, every node that existed is as
    it was. The scratch container is [SanitizerImpl]'s: its [sanitize]
    always returns, and a verdict on a parentless node leaves the scratch
    container without child. *)
Theorem C3_createNode_binds_whatever_is_sanitized
    (skeleton : Skeleton.t) (st : State) :
  let r := createNode skeleton true st in
  (∀ n, r.1 = Ok n →
        NODES r.2 !! Skeleton.__id skeleton = Some n ∧ n = length (heap st))
  ∧ (sanitized r.2 ≠ sanitized st →
     ∀ x, x ∈ descendants skeleton → bound r.2 x)
  ∧ (closed (heap st) →
     heap st `prefix_of` heap (construct skeleton st).2
     ∧ heap st `prefix_of` heap (createNode skeleton false st).2)
  ∧ (∀ purifier_sanitize wrapper_ node d, ∃ res d',
       AmpScript.SanitizerImpl.sanitize purifier_sanitize wrapper_ node d
       = Some (res, d')
       ∧ (Dom.parentNode node d = None →
          ∀ b, res = Ok b → Dom.firstChild wrapper_ d' = None)).
Proof.
  intros r. split; [|split; [|split]].
  - intros n Hr. apply createNode_bound with (sanitize := true).
    subst r. destruct (createNode skeleton true st). by simplify_eq/=.
  - intros Hsan x Hx. subst r. rewrite createNode_unfold in *.
    rewrite bind_run in *.
    pose proof (construct_unsanitized skeleton st) as Hu.
    destruct (construct skeleton st) as [[node|e] st1] eqn:Hc; simpl in *;
      [|done].
    match goal with |- bound (?m st1).2 x =>
      assert (Hp : preserves ids_kept m) end.
    { apply (preserves_bind ids_kept); [apply sanitize_in_place_ids|].
      intros _. apply (preserves_bind ids_kept);
        [apply bindNodeToSkeletonId_ids|].
      intros _. destruct node;
        [apply (preserves_ret ids_kept) | apply (preserves_throw ids_kept)]. }
    apply Hp. destruct (createNode_subtree_bound skeleton) as [Hd _].
    by eapply Hd.
  - intros Hcl.
    destruct (createNode_frames (heap st) Hcl skeleton) as [Hc Hf].
    split; [by apply Hc | by apply Hf].
  - intros. apply sanitize_leaves_wrapper_empty.
Qed.

End MaterializerFacts.

(** *** Examples for the materializer *)

(** A sanitizer for the examples: SCRIPT elements are forbidden. Called
    on an allowed root it takes the forbidden nodes out of the root's
    child list; a forbidden root, which has nothing to be taken out of,
    makes it raise when [strict] and do nothing otherwise. *)
Definition example_purify (strict : bool) (r : Dom.NodeRef)
    : JS Dom.Dom () := λ d,
  match d !! r with
  | None => (Ok (), d)
  | Some n =>
      if bool_decide (Dom.nodeName n = "SCRIPT") then
        if strict then (Throw SanitizerError, d) else (Ok (), d)
      else
        (Ok (),
         alter (Dom.with_childNodes
                  (filter (λ c, Dom.nodeName <$> d !! c ≠ Some "SCRIPT")))
           r d)
  end.

(** A platform for the examples: the root is node 0, everything is in
    the viewport unless [offscreen], and [i] is the binding of the
    identifier [i]. *)
Definition example_platform (strict offscreen : bool) (i : option string)
    (fl : Renderer.FlagsT) : Renderer.Platform :=
  {| Renderer.root := 0;
     Renderer.flags := fl;
     Renderer.DOMPurify_sanitize := λ node,
       match node with
       | Some r => example_purify strict r
       | None => ret ()
       end;
     Renderer.global_i := i;
     Renderer.aotRoot := None;
     Renderer.getBoundingClientRect := λ _ _,
       if offscreen
       then {| Renderer.top := -100; Renderer.bottom := -50;
               Renderer.left := 0; Renderer.right := 10 |}
       else {| Renderer.top := 0; Renderer.bottom := 10;
               Renderer.left := 0; Renderer.right := 10 |};
     Renderer.window_innerHeight := 600;
     Renderer.window_innerWidth := 800 |}.

Definition element (name : string) (cs : list Dom.NodeRef) : Dom.DomNode :=
  {| Dom.nodeType := Dom.ELEMENT_NODE; Dom.nodeName := name;
     Dom.className := ""; Dom.style := []; Dom.attributes := [];
     Dom.props := []; Dom.nodeValue := None; Dom.childNodes := cs;
     Dom.__id := None |}.

(** A document of two empty DIVs: the root (node 0) and a scratch
    container (node 1). *)
Definition example_state : Renderer.State :=
  Renderer.init 0 "/" [element "DIV" []; element "DIV" []].

Definition text_skeleton (data id : string) : Skeleton.t :=
  Skeleton.mk Dom.TEXT_NODE "#text" "" [] [] [] data id.

(** [<script>x()</script>], with ids "s" and "t". *)
Definition script_skeleton : Skeleton.t :=
  Skeleton.mk Dom.ELEMENT_NODE "script" "" [] [] [text_skeleton "x()" "t"]
    "" "s".

Lemma example_state_closed : closed (Renderer.heap example_state).
Proof.
  intros r n c Hr Hc. destruct r as [|[|r]]; simplify_eq/=;
    by apply elem_of_nil in Hc.
Qed.

(** A script element with a text child: under the strict sanitizer the
    text child stays bound after the throw, under the lenient one the
    element is bound to the node that is returned. *)
Lemma C3_createNode_binds_whatever_is_sanitized_witness :
  let strict := example_platform true false None Renderer.Flags in
  let lenient := example_platform false false None Renderer.Flags in
  closed (Renderer.heap example_state)
  ∧ Renderer.heap example_state
    `prefix_of`
    Renderer.heap (@construct strict script_skeleton example_state).2
  ∧ bound
      (@Renderer.createNode strict script_skeleton true example_state).2
      (text_skeleton "x()" "t")
  ∧ Renderer.NODES
      (@Renderer.createNode lenient script_skeleton true example_state).2
    !! "s" = Some 2.
Proof.
  intros strict lenient.
  destruct (@C3_createNode_binds_whatever_is_sanitized strict
              script_skeleton example_state) as (_ & Hb & Hf & _).
  destruct (@C3_createNode_binds_whatever_is_sanitized lenient
              script_skeleton example_state) as (Hok & _).
  split; [exact example_state_closed|]. split; [|split].
  - apply Hf, example_state_closed.
  - apply Hb.
    + vm_compute. discriminate.
    + vm_compute. apply list_elem_of_here.
  - apply (Hok 2). vm_compute. reflexivity.
Defined.

(** C3 as it is stated, for a sanitizer gate with scratch container
    [wrapper]: if the gate rejects what [S] materializes to, then
    materializing [S] with sanitization signals rejection and leaves the
    identity map as it was. *)
Definition C3_as_stated (platform : Renderer.Platform)
    (wrapper : Dom.NodeRef) (S : Skeleton.t) (st : Renderer.State) : Prop :=
  (∀ n st1, Renderer.createNode S false st = (Ok n, st1) →
     ∃ d', AmpScript.SanitizerImpl.sanitize
             (λ r, Renderer.DOMPurify_sanitize (Some r)) wrapper n
             (Renderer.heap st1) = Some (Ok false, d')) →
  let r := Renderer.createNode S true st in
  (∃ e, r.1 = Throw e) ∧ Renderer.NODES r.2 = Renderer.NODES st.

(** A script element that the gate rejects is still bound by
    [createNode] when the sanitizer returns, and its text child stays
    bound when the sanitizer raises. *)
Lemma C3_counterexample :
  ¬ C3_as_stated (example_platform true false None Renderer.Flags) 1
      script_skeleton example_state
  ∧ ¬ C3_as_stated (example_platform false false None Renderer.Flags) 1
        script_skeleton example_state.
Proof.
  split; intros H.
  - destruct H as [_ H].
    { intros n st1 Heq. vm_compute in Heq. injection Heq as <- <-.
      eexists. vm_compute. reflexivity. }
    apply (f_equal (λ m, m !! "t")) in H. vm_compute in H. discriminate.
  - destruct H as [[e H] _].
    { intros n st1 Heq. vm_compute in Heq. injection Heq as <- <-.
      eexists. vm_compute. reflexivity. }
    vm_compute in H. discriminate.
Qed.

(** ** Applying mutation records (C2, C4, C9) *)

Section MutationFacts.
Import Renderer.
Context {platform : Platform}.

(** [getNode] reads the identity map only. *)
Lemma getNode_NODES (x : NodeOrId) (st st' : State) :
  NODES st' = NODES st → getNode x st' = getNode x st.
Proof. intros H. unfold getNode. by rewrite H. Qed.


Lemma MUTATIONS_characterData_run (m : MutationRecord) (st : State) :
  type m = "characterData" → MUTATIONS m st = MUTATIONS_characterData m st.
Proof. intros H. unfold MUTATIONS. by rewrite H. Qed.


Lemma MUTATIONS_childList_run (m : MutationRecord) (st : State) :
  type m = "childList" → MUTATIONS m st = MUTATIONS_childList m st.
Proof. intros H. unfold MUTATIONS. by rewrite H. Qed.

(** The state in which [processMutations] enters its loop. *)
Definition timer_cleared (st : State) : State :=
  (clearTimeout (mutationTimer st) st).2.


(** The document and the identity map are untouched, and no sanitizer
    call is made. *)
Definition untouched (st st' : State) : Prop :=
  NODES st = NODES st' ∧ sanitized st' = sanitized st.



(** *** Text changes on different nodes commute *)

(** Applying the records of a list, in order. *)
Definition apply_all (ms : list MutationRecord) : M () := forM_ MUTATIONS ms.

(** The document after [node.nodeValue = v]. *)
Definition set_text (d : Dom.Dom) (nv : Dom.NodeRef * string) : Dom.Dom :=
  (Dom.set_nodeValue nv.1 nv.2 d).2.

Lemma set_text_length d nv : length (set_text d nv) = length d.
Proof.
  unfold set_text, Dom.set_nodeValue. repeat case_match; simpl; try done.
  apply length_alter.
Qed.

Lemma set_text_comm d (nv1 nv2 : Dom.NodeRef * string) :
  nv1.1 ≠ nv2.1 →
  set_text (set_text d nv1) nv2 = set_text (set_text d nv2) nv1.
Proof.
  destruct nv1 as [n1 v1], nv2 as [n2 v2]. simpl. intros Hne.
  unfold set_text, Dom.set_nodeValue. simpl.
  destruct (d !! n1) as [x1|] eqn:E1, (d !! n2) as [x2|] eqn:E2; simpl;
    repeat first
      [ rewrite E1 | rewrite E2
      | rewrite list_lookup_alter_ne by done
      | progress simpl
      | match goal with
        | |- context [(Dom.nodeType ?x =? Dom.TEXT_NODE)%Z] =>
            destruct (Dom.nodeType x =? Dom.TEXT_NODE)%Z eqn:?
        end ];
    try done.
  by rewrite list_alter_alter_ne.
Qed.

Lemma foldl_set_text_perm (l l' : list (Dom.NodeRef * string)) :
  l ≡ₚ l' → NoDup l.*1 →
  ∀ d, fold_left set_text l d = fold_left set_text l' d.
Proof.
  induction 1 as [|x l l' Hp IH|x y l|l1 l2 l3 H12 IH12 H23 IH23];
    intros Hnd d; simpl.
  - done.
  - apply NoDup_cons in Hnd as [_ Hnd]. by apply IH.
  - f_equal. apply set_text_comm.
    simpl in Hnd. apply NoDup_cons in Hnd as [Hy _].
    intros Heq. apply Hy. rewrite Heq. apply list_elem_of_here.
  - rewrite IH12 by done. apply IH23.
    by rewrite <- H12.
Qed.

(** The (node, value) pairs of text records whose targets resolve. *)
Definition text_writes (ms : list MutationRecord) (st : State)
    : list (Dom.NodeRef * string) :=
  omap (λ m, (λ n, (n, value m)) <$> getNode (target m) st) ms.

Definition text_record (st : State) (m : MutationRecord) : Prop :=
  type m = "characterData"
  ∧ ∃ n, getNode (target m) st = Some n ∧ n < length (heap st).

Lemma apply_all_text (ms : list MutationRecord) (st : State) :
  Forall (text_record st) ms →
  apply_all ms st
  = (Ok (), with_heap (fold_left set_text (text_writes ms st) (heap st)) st).
Proof.
  revert st. induction ms as [|m ms IH]; intros st HF.
  { by destruct st. }
  apply Forall_cons in HF as [(Hty & n & Hn & Hlt) HF].
  unfold apply_all. rewrite forM__cons, bind_run.
  rewrite MUTATIONS_characterData_run by done.
  unfold MUTATIONS_characterData. rewrite Hn. simpl. rewrite dom_run.
  assert (Hok : (Dom.set_nodeValue n (value m) (heap st)).1 = Ok ()).
  { unfold Dom.set_nodeValue.
    destruct (lookup_lt_is_Some_2 (heap st) n Hlt) as [x ->].
    by case_match. }
  rewrite Hok. fold (apply_all ms).
  rewrite IH.
  - unfold text_writes at 2. simpl. rewrite Hn. reflexivity.
  - eapply Forall_impl; [exact HF|]. intros m' (Hty' & n' & Hn' & Hlt').
    split; [done|]. exists n'. split; [done|].
    change (n' < length (set_text (heap st) (n, value m))).
    by rewrite set_text_length.
Qed.

(** C9 (amended). Text-data records whose targets resolve to pairwise
    different nodes of the document can be applied in any order: every
    permutation of the sequence is applied without error and yields the
    same final state as the original order. *)
Theorem C9_text_records_commute (ms ms' : list MutationRecord) (st : State)
    (Hperm : ms ≡ₚ ms')
    (Htext : Forall (text_record st) ms)
    (Hdistinct : NoDup ((λ m, getNode (target m) st) <$> ms)) :
  apply_all ms' st = apply_all ms st ∧ (apply_all ms st).1 = Ok ().
Proof.
  assert (Htext' : Forall (text_record st) ms') by by rewrite <- Hperm.
  rewrite !apply_all_text by done. split; [|done].
  f_equal. f_equal. symmetry. apply foldl_set_text_perm.
  - unfold text_writes. by apply omap_Permutation.
  - clear Hperm Htext'. induction Htext as [|m ms (_ & n & Hn & _) _ IH];
      [constructor|].
    rewrite fmap_cons in Hdistinct. apply NoDup_cons in Hdistinct as [Hm Hnd].
    unfold text_writes. simpl. rewrite Hn. simpl. apply NoDup_cons.
    split; [|by apply IH].
    intros Hin. apply Hm. rewrite Hn.
    apply list_elem_of_fmap in Hin as ([n' v] & -> & Hin).
    apply list_elem_of_omap in Hin as (m' & Hm' & Heq).
    apply list_elem_of_fmap. exists m'. split; [|done].
    destruct (getNode (target m') st); by simplify_eq/=.
Qed.

(** C9 as it is stated: records with pairwise distinct targets yield
    the same document in any order. *)
Definition C9_as_stated (ms ms' : list MutationRecord) (st : State) : Prop :=
  ms ≡ₚ ms' → NoDup (target <$> ms) →
  heap (apply_all ms' st).2 = heap (apply_all ms st).2.

End MutationFacts.

(** *** Examples for the mutation records *)

Section MutationExamples.
Import Renderer.

Definition text_node (data : string) : Dom.DomNode :=
  {| Dom.nodeType := Dom.TEXT_NODE; Dom.nodeName := "#text";
     Dom.className := ""; Dom.style := []; Dom.attributes := [];
     Dom.props := []; Dom.nodeValue := Some data; Dom.childNodes := [];
     Dom.__id := None |}.

(** A session after hydration: the root (node 0) holds two DIVs "p1"
    and "p2"; "p1" holds a SPAN "x" and the text "t1", "p2" the text
    "t2". *)
Definition hydrated_state : State :=
  with_NODES
    (list_to_map [("p1", 1); ("p2", 2); ("x", 3); ("t1", 4); ("t2", 5)])
    (init 0 "/"
       [element "DIV" [1; 2]; element "DIV" [3; 4]; element "DIV" [5];
        element "SPAN" []; text_node "hello"; text_node "world"]).

(** A record of type [ty] on [tgt], all other fields absent. *)
Definition record (ty : string) (tgt : NodeOrId) : MutationRecord :=
  {| type := ty; target := tgt; removedNodes := None; addedNodes := None;
     previousSibling := Falsy; nextSibling := Falsy; attributeName := "";
     propertyName := ""; value := ""; oldValue := None; timestamp := 0 |}.

Definition text_change (id v : string) : MutationRecord :=
  {| type := "characterData"; target := Id id; removedNodes := None;
     addedNodes := None; previousSibling := Falsy; nextSibling := Falsy;
     attributeName := ""; propertyName := ""; value := v; oldValue := None;
     timestamp := 0 |}.


Definition add_child (parent : string) (s : Skeleton.t) : MutationRecord :=
  {| type := "childList"; target := Id parent; removedNodes := None;
     addedNodes := Some [s]; previousSibling := Falsy; nextSibling := Falsy;
     attributeName := ""; propertyName := ""; value := ""; oldValue := None;
     timestamp := 0 |}.

(** The skeleton under which the worker refers to the SPAN "x". *)
Definition x_skeleton : Skeleton.t :=
  Skeleton.mk Dom.ELEMENT_NODE "SPAN" "" [] [] [] "" "x".

Definition lenient_platform : Platform :=
  example_platform false false None Flags.
End MutationExamples.




(** Two text changes on the two text nodes of the hydrated page, applied
    in either order. *)
Lemma C9_text_records_commute_witness :
  [text_change "t1" "a"; text_change "t2" "b"]
    ≡ₚ [text_change "t2" "b"; text_change "t1" "a"]
  ∧ apply_all (platform := lenient_platform)
      [text_change "t2" "b"; text_change "t1" "a"] hydrated_state
    = apply_all (platform := lenient_platform)
        [text_change "t1" "a"; text_change "t2" "b"] hydrated_state.
Proof.
  split; [apply perm_swap|].
  refine (proj1 (C9_text_records_commute (platform := lenient_platform)
            [text_change "t1" "a"; text_change "t2" "b"]
            [text_change "t2" "b"; text_change "t1" "a"] hydrated_state
            _ _ _)).
  - apply perm_swap.
  - repeat constructor.
    + exists 4. split; [by vm_compute | vm_compute; lia].
    + exists 5. split; [by vm_compute | vm_compute; lia].
  - vm_compute. apply NoDup_cons. split.
    + intros Hin. apply list_elem_of_singleton in Hin. discriminate.
    + apply NoDup_singleton.
Defined.

(** Two child-list records on the different targets "p1" and "p2" that
    both add the bound node "x": the record applied last decides where
    "x" ends up. *)
Lemma C9_counterexample :
  ¬ C9_as_stated (platform := lenient_platform)
      [add_child "p1" x_skeleton; add_child "p2" x_skeleton]
      [add_child "p2" x_skeleton; add_child "p1" x_skeleton]
      hydrated_state.
Proof.
  intros H. unfold C9_as_stated in H.
  assert (Hnd : NoDup (Renderer.target <$>
            [add_child "p1" x_skeleton; add_child "p2" x_skeleton])).
  { apply NoDup_cons. split.
    - intros Hin. apply list_elem_of_singleton in Hin. discriminate.
    - apply NoDup_singleton. }
  specialize (H (perm_swap _ _ _) Hnd). vm_compute in H. discriminate.
Qed.

(** ** The mutation queue and its scheduler (C6, C7) *)

Section SchedulerFacts.
Import Renderer.
Context {platform : Platform}.

(** A relation between states that work on the document, the identity
    map, the sanitizer log and the window-size cache cannot break. *)
Class IgnoresDomWork (R : State → State → Prop) : Prop := {
  idw_preorder :: PreOrder R;
  idw_heap : ∀ st d, R st (with_heap d st);
  idw_NODES : ∀ st n, R st (with_NODES n st);
  idw_sanitized : ∀ st l, R st (with_sanitized l st);
  idw_cache : ∀ st c, R st (with_windowSizeCache c st)
}.

Section IgnoresDomWork.
Context (R : State → State → Prop) `{!IgnoresDomWork R}.

Lemma bindNodeToSkeletonId_idw node id :
  preserves R (bindNodeToSkeletonId node id).
Proof.
  destruct node as [r|]; simpl; [|apply (preserves_throw R)].
  apply (preserves_bind R); [apply preserves_dom, idw_heap|].
  intros _ st. apply idw_NODES.
Qed.

Lemma sanitize_in_place_idw node : preserves R (sanitize_in_place node).
Proof.
  intros st. unfold sanitize_in_place. rewrite dom_run. simpl.
  etrans; [apply idw_sanitized | apply idw_heap].
Qed.

Lemma createNode_idw skeleton sanitize :
  preserves R (createNode skeleton sanitize).
Proof.
  pose proof (createNode_preserves R idw_heap bindNodeToSkeletonId_idw
                skeleton) as (_ & Hf & Ht).
  destruct sanitize; [apply Ht, sanitize_in_place_idw | exact Hf].
Qed.

Lemma deref_idw {A} (o : option Dom.NodeRef) (k : Dom.NodeRef → M A) :
  (∀ r, preserves R (k r)) → preserves R (deref o k).
Proof. intros H. destruct o; [apply H | apply (preserves_throw R)]. Qed.

Lemma dom_dep_idw {A} (c : State → JS Dom.Dom A) :
  preserves R (λ st, dom (c st) st).
Proof. intros st. rewrite dom_run. apply idw_heap. Qed.

Lemma MUTATIONS_idw (m : MutationRecord) : preserves R (MUTATIONS m).
Proof.
  unfold MUTATIONS. repeat case_decide; [| | | |apply (preserves_throw R)].
  - intros st. unfold MUTATIONS_childList. cbv zeta.
    generalize (getNode (target m) st). intros parent. revert st.
    apply (preserves_bind R).
    + destruct (removedNodes m); [|apply (preserves_ret R)].
      apply (preserves_forM_ R), Forall_forall. intros r _.
      apply deref_idw. intros p.
      apply (dom_dep_idw (λ st, Dom.removeChild p (getNode r st))).
    + intros _. destruct (addedNodes m); [|apply (preserves_ret R)].
      apply (preserves_forM_ R), Forall_forall. intros a _.
      apply (preserves_bind R).
      * intros st. destruct (getNode (serialized a) st); [reflexivity|].
        apply createNode_idw.
      * intros newNode. apply deref_idw. intros p.
        apply (dom_dep_idw (λ st, Dom.insertBefore p newNode
                                    (anchor (nextSibling m) st))).
  - intros st. unfold MUTATIONS_attributes. cbv zeta.
    generalize (getNode (target m) st). intros node. revert st.
    apply (preserves_bind R); [|intros _; apply sanitize_in_place_idw].
    apply deref_idw. intros n. apply preserves_dom, idw_heap.
  - intros st. unfold MUTATIONS_characterData.
    generalize (getNode (target m) st). intros node. revert st.
    apply deref_idw. intros n. apply preserves_dom, idw_heap.
  - intros st. unfold MUTATIONS_properties. cbv zeta.
    generalize (getNode (target m) st). intros node. revert st.
    apply (preserves_bind R); [|intros _; apply sanitize_in_place_idw].
    apply deref_idw. intros n. apply preserves_dom, idw_heap.
Qed.

Lemma isElementInViewport_idw el : preserves R (isElementInViewport el).
Proof.
  intros st. unfold isElementInViewport.
  repeat case_match; simpl; try reflexivity; try apply idw_cache.
  all: etrans; apply idw_cache.
Qed.

Lemma offscreen_idw m : preserves R (offscreen m).
Proof.
  unfold offscreen. case_match; [|apply (preserves_ret R)].
  intros st. destruct (getNode (target m) st); [|reflexivity].
  revert st. apply (preserves_bind R); [apply isElementInViewport_idw|].
  intros ?. apply (preserves_ret R).
Qed.
End IgnoresDomWork.

(** The queue is as it was. *)
Definition same_queue (st st' : State) : Prop :=
  MUTATION_QUEUE st' = MUTATION_QUEUE st.

(** The Gesture Clock, the timer handle and the browser's pending
    callbacks are as they were. *)
Definition same_timers (st st' : State) : Prop :=
  timeOfLastUserGesture st' = timeOfLastUserGesture st
  ∧ mutationTimer st' = mutationTimer st
  ∧ scheduler st' = scheduler st.

#[local] Instance same_queue_idw : IgnoresDomWork same_queue.
Proof.
  split; try done. split; [done|].
  intros a b c H1 H2. unfold same_queue in *. congruence.
Qed.

#[local] Instance same_timers_idw : IgnoresDomWork same_timers.
Proof.
  split; try done. split; [done|].
  intros a b c (?&?&?) (?&?&?). unfold same_timers. repeat split; congruence.
Qed.
(** *** The drain loop *)

(** One iteration of the loop of [processMutations], at record [m]. *)
Lemma drain_cons deadline now k kept m rest st :
  drain deadline now k kept (m :: rest) st
  = if out_of_time deadline now k then (Ok true, st)
    else if gt_threshold (timestamp m - timeOfLastUserGesture st)
              GESTURE_TO_MUTATION_THRESHOLD
    then drain deadline now (S k) (kept ++ [m]) rest st
    else match offscreen m st with
         | (Ok true, st1) => drain deadline now (S k) (kept ++ [m]) rest st1
         | (Ok false, st1) =>
             match MUTATIONS m (with_MUTATION_QUEUE (kept ++ rest) st1) with
             | (Ok _, st2) => drain deadline now (S k) kept rest st2
             | (Throw e, st2) => (Throw e, st2)
             end
         | (Throw e, st1) => (Throw e, st1)
         end.
Proof.
  simpl. destruct (out_of_time deadline now k); [done|].
  destruct (gt_threshold _ _); [done|].
  rewrite bind_run. by destruct (offscreen m st) as [[[]|e] st1].
Qed.

Lemma drain_timers deadline now k kept todo :
  preserves same_timers (drain deadline now k kept todo).
Proof.
  revert k kept. induction todo as [|m rest IH]; intros k kept st.
  { by simpl. }
  rewrite drain_cons. destruct (out_of_time deadline now k); [done|].
  destruct (gt_threshold _ _); [apply IH|].
  pose proof (offscreen_idw same_timers m st) as Ho.
  destruct (offscreen m st) as [[[]|e] st1]; simpl in Ho; [| |done].
  - etrans; [exact Ho|apply IH].
  - pose proof (MUTATIONS_idw same_timers m
                  (with_MUTATION_QUEUE (kept ++ rest) st1)) as Hm.
    destruct (MUTATIONS m _) as [[[]|e] st2]; simpl in Hm.
    + etrans; [exact Ho|]. etrans; [|apply IH]. etrans; [|exact Hm]. done.
    + etrans; [exact Ho|]. etrans; [|exact Hm]. done.
Qed.

(** A pass that never runs out of time does not report a timeout. *)
Lemma drain_in_time deadline now k kept todo st b st' :
  (∀ k, out_of_time deadline now k = false) →
  drain deadline now k kept todo st = (Ok b, st') → b = false.
Proof.
  intros Htime. revert k kept st.
  induction todo as [|m rest IH]; intros k kept st H.
  { simpl in H. unfold ret in H. by simplify_eq. }
  rewrite drain_cons, Htime in H.
  destruct (gt_threshold _ _); [by eapply IH|].
  destruct (offscreen m st) as [[[]|e] st1]; [by eapply IH| |done].
  destruct (MUTATIONS m _) as [[[]|e] st2]; [by eapply IH|done].
Qed.

(** Record [m] is held back for its latency when the Gesture Clock
    reads [clock]. *)
Definition held (clock : Z) (m : MutationRecord) : bool :=
  gt_threshold (timestamp m - clock) GESTURE_TO_MUTATION_THRESHOLD.




Lemma processMutationsSoon_run (st : State) :
  processMutationsSoon st = (Ok (), (processMutationsSoon st).2)
  ∧ MUTATION_QUEUE (processMutationsSoon st).2 = MUTATION_QUEUE st
  ∧ timeOfLastUserGesture (processMutationsSoon st).2
    = timeOfLastUserGesture st.
Proof.
  unfold processMutationsSoon, bind, clearTimeout, setTimeout,
    requestIdleCallback, ret.
  by destruct (mutationTimer st).
Qed.

(** [processMutations], in terms of its loop. *)
Lemma processMutations_run deadline now (st : State) :
  processMutations deadline now st
  = match drain deadline now 0 [] (MUTATION_QUEUE st) (timer_cleared st) with
    | (Ok timedOut, st1) =>
        if timedOut && (0 <? length (MUTATION_QUEUE st1))
        then processMutationsSoon st1 else (Ok (), st1)
    | (Throw e, st1) => (Throw e, st1)
    end.
Proof.
  unfold processMutations, timer_cleared. rewrite bind_run.
  unfold clearTimeout.
  destruct (mutationTimer st); rewrite bind_run; simpl;
    by destruct (drain _ _ _ _ _ _) as [[b|e] st1].
Qed.



(** *** Pending drains *)

(** What can happen to the module once it is loaded: a message from
    the worker, a proxied event, a pending timeout or a pending idle
    request running its callback. *)
Inductive step : State → State → Prop :=
  | step_message now mutations st :
      step st (onmessage_mutate now mutations st).2
  | step_event now e st :
      step st (proxyEvent now e st).2
  | step_timeout h now st :
      h ∈ timeouts (scheduler st) →
      step st (fire_timeout h now st).2
  | step_idle h timeRemaining now st :
      h ∈ idleRequests (scheduler st) →
      step st (fire_idle h timeRemaining now st).2.

(** At most one timeout is pending, and it is the one whose handle
    [mutationTimer] holds. *)
Definition one_timer (st : State) : Prop :=
  timeouts (scheduler st) = []
  ∨ ∃ h, timeouts (scheduler st) = [h] ∧ mutationTimer st = Some h.

Definition keeps_one_timer (st st' : State) : Prop :=
  one_timer st → one_timer st'.

#[local] Instance keeps_one_timer_preorder : PreOrder keeps_one_timer.
Proof.
  split; [intros st H; exact H|]. intros a b c H1 H2 H. apply H2, H1, H.
Qed.



(** After [clearTimeout(mutationTimer)] no timeout is pending. *)
Lemma timer_cleared_none (st : State) :
  one_timer st → timeouts (scheduler (timer_cleared st)) = [].
Proof.
  unfold timer_cleared, clearTimeout.
  intros [Hnil|(h & Hh & Hm)].
  - destruct (mutationTimer st); simpl; by rewrite ?Hnil.
  - rewrite Hm. simpl. rewrite Hh.
    by rewrite filter_cons_False by (intros Hne; by apply Hne).
Qed.

(** [processMutationsSoon] replaces the pending timeout by a new one
    and adds one idle request to those pending. *)
Lemma processMutationsSoon_scheduler (st : State) :
  let st' := (processMutationsSoon st).2 in
  timeouts (scheduler st')
  = timeouts (scheduler (timer_cleared st)) ++ [nextHandle (scheduler st)]
  ∧ mutationTimer st' = Some (nextHandle (scheduler st))
  ∧ idleRequests (scheduler st')
    = idleRequests (scheduler st) ++ [S (nextHandle (scheduler st))].
Proof.
  unfold processMutationsSoon, timer_cleared, bind, clearTimeout, setTimeout,
    requestIdleCallback, ret.
  by destruct (mutationTimer st).
Qed.










End SchedulerFacts.

(** *** Examples for the scheduler *)

Section SchedulerExamples.
Import Renderer.

(** The lenient platform, with REQUIRE_GESTURE_TO_MUTATE set. *)
Definition gesture_platform : Platform :=
  example_platform false false None
    {| REQUIRE_GESTURE_TO_MUTATE := true; USE_SHARED_ARRAY_BUFFER := false |}.


(** A child-list record received at time 5000. *)
Definition late_record : MutationRecord :=
  {| type := "childList"; target := Id "p2"; removedNodes := None;
     addedNodes := Some [x_skeleton]; previousSibling := Falsy;
     nextSibling := Falsy; attributeName := ""; propertyName := "";
     value := ""; oldValue := None; timestamp := 5000 |}.

(** The hydrated session with [q] queued and the last gesture at 0. *)
Definition queued_state (q : list MutationRecord) : State :=
  with_MUTATION_QUEUE q hydrated_state.

(** The clock stands still at 0. *)
Definition frozen : nat → Z := λ _, 0%Z.

End SchedulerExamples.






(* ================================================================== *)
(** * Part III: further properties of the code                         *)
(* ================================================================== *)

(** ** The event proxy: what is posted, and what is left alone *)

Section EventProxyMore.
Import Renderer.


Lemma obj_get_set_ne {V} (k k' : string) (v : V) (o : Obj V) :
  k ≠ k' → obj_get k' (obj_set k v o) = obj_get k' o.
Proof.
  intros Hne. induction o as [|[k1 v1] o IH]; simpl.
  - by rewrite decide_False.
  - destruct (decide (k1 = k)) as [->|Hne1]; simpl.
    + by rewrite !decide_False by done.
    + destruct (decide (k1 = k')); [done|]. apply IH.
Qed.


(** The body of the copy loop, for the property [i] with value [v]. *)
Definition copy_property (event : Obj JsVal) (p : string * JsVal)
    : Obj JsVal :=
  let (i, v) := p in
  if bool_decide (typeof v ≠ "object")
     && bool_decide (typeof v ≠ "function")
     && bool_decide (i ≠ toUpperCase i)
     && negb (hasOwnProperty event i)
  then obj_set i v event else event.

Lemma copy_properties_fold (e : Event) (event : Obj JsVal) :
  copy_properties e event = fold_left copy_property (e_enumerable e) event.
Proof. reflexivity. Qed.

Lemma copy_property_kept (event : Obj JsVal) (p : string * JsVal) k v :
  obj_get k event = Some v → obj_get k (copy_property event p) = Some v.
Proof.
  intros Hk. destruct p as [i w]. unfold copy_property, hasOwnProperty.
  destruct (decide (i = k)) as [->|Hne].
  - rewrite Hk, (bool_decide_eq_true_2 (is_Some (Some v))) by eauto.
    simpl. by rewrite andb_false_r.
  - case_match; [|done]. by rewrite obj_get_set_ne.
Qed.


Lemma copy_fold_kept (l : list (string * JsVal)) (event : Obj JsVal) k v :
  obj_get k event = Some v →
  obj_get k (fold_left copy_property l event) = Some v.
Proof.
  revert event. induction l as [|p l IH]; intros event Hk; [done|].
  simpl. by apply IH, copy_property_kept.
Qed.


(** The proxy fed a list of events, each with the reading of the clock
    at which it arrives. *)
Definition proxy_all (es : list (Z * Event)) (st : State) : State :=
  fold_left (λ st ne, (proxyEvent ne.1 ne.2 st).2) es st.

(** An event of a type for which the module registers a listener. *)
Definition listened (e : Event) : Prop :=
  e_type e ∈ ELEMENT_EVENTS_TO_PROXY ++ WINDOW_EVENTS_TO_PROXY.

Lemma listened_not_touch (e : Event) :
  listened e → e_type e ≠ "touchstart" ∧ e_type e ≠ "touchend".
Proof.
  unfold listened. intros Hin.
  repeat (apply elem_of_cons in Hin as [->|Hin]); try done.
  by apply elem_of_nil in Hin.
Qed.

Lemma proxyEvent_untouched (now : Z) (e : Event) (st : State) :
  e_type e ≠ "touchstart" → touchStart st = None →
  touchStart (proxyEvent now e st).2 = None.
Proof.
  intros Hty Hts. unfold proxyEvent, bind, postToWorker, ret.
  rewrite (bool_decide_eq_false_2 _ Hty).
  repeat (case_match; simplify_eq/=; try done).
Qed.

(** X2. The listeners that the module registers are for change, click,
    focus, keydown, input, dblclick and hashchange events. Fed only
    such events, the proxy never records a touch start; so it drops no
    click and synthesizes none: every event is posted to the worker
    once, under its own type, unless it is a change or input event
    without target, which raises a TypeError and posts nothing. *)
Theorem listened_events_posted_once (es : list (Z * Event)) (st : State)
    (Hes : Forall (λ ne, listened ne.2) es)
    (Hts : touchStart st = None) :
  let st' := proxy_all es st in
  touchStart st' = None
  ∧ ∀ now e, listened e →
      let r := proxyEvent now e st' in
      (r.1 = Ok None
       ∧ ∃ event, posted r.2 = posted st' ++ [MsgEvent event]
                  ∧ obj_get "type" event = Some (VStr (e_type e)))
      ∨ (r.1 = Throw TypeError
         ∧ e_type e ∈ ["change"; "input"] ∧ e_target e = None
         ∧ posted r.2 = posted st').
Proof.
  intros st'.
  assert (Hnone : touchStart st' = None).
  { subst st'. revert st Hts. induction Hes as [|[t e] es He _ IH];
      intros st Hts; [done|].
    simpl. apply IH. apply proxyEvent_untouched; [|done].
    by apply listened_not_touch in He as [? _]. }
  split; [done|]. intros now e He r. subst r.
  apply listened_not_touch in He as [Hstart Hend].
  unfold proxyEvent. simpl. rewrite Hnone.
  rewrite (bool_decide_eq_false_2 (is_Some None)) by (by intros [? ?]).
  rewrite andb_false_r.
  assert (Hpost : ∀ event,
    obj_get "type" event = Some (VStr (e_type e)) →
    let r := (postToWorker (MsgEvent (copy_properties e event)) ;;
              (if bool_decide (e_type e = "touchstart")
               then λ st, (Ok (), with_touchStart (Some (getTouch e)) st)
               else λ st,
                 match touchStart st with
                 | Some start =>
                     if bool_decide (e_type e = "touchend")
                        && dist_lt_10 (getTouch e) start
                     then postToWorker
                            (MsgEvent (obj_set "type" (VStr "click")
                                         (copy_properties e event))) st
                     else (Ok (), st)
                 | None => (Ok (), st)
                 end) ;;
              ret None) (with_timeOfLastUserGesture now st') in
    r.1 = Ok (None : option bool)
    ∧ ∃ event', posted r.2 = posted st' ++ [MsgEvent event']
                ∧ obj_get "type" event' = Some (VStr (e_type e))).
  { intros event Hty. unfold bind, postToWorker, ret.
    rewrite (bool_decide_eq_false_2 _ Hstart). simpl. rewrite Hnone.
    split; [done|]. eexists. split; [done|].
    rewrite copy_properties_fold. by apply copy_fold_kept. }
  destruct (bool_decide (e_type e ∈ ["change"; "input"])) eqn:Hci.
  - apply bool_decide_eq_true in Hci.
    destruct (e_target e) as [t|] eqn:Ht.
    + left. destruct (target_value t); apply Hpost;
        by rewrite ?obj_get_set_ne.
    + right. by repeat split.
  - left. destruct (e_target e) as [t|]; apply Hpost;
      by rewrite ?obj_get_set_ne.
Qed.

(** X3. A proxied event does not touch the document, the identity map, the
    mutation queue or the browser's pending callbacks, whatever the
    event: gestures refresh the Gesture Clock but request no drain. *)
Theorem gestures_request_no_drain (es : list (Z * Event)) (st : State) :
  let st' := proxy_all es st in
  MUTATION_QUEUE st' = MUTATION_QUEUE st
  ∧ scheduler st' = scheduler st
  ∧ mutationTimer st' = mutationTimer st
  ∧ heap st' = heap st
  ∧ NODES st' = NODES st
  ∧ sanitized st' = sanitized st.
Proof.
  simpl. revert st. induction es as [|[t e] es IH]; intros st; [done|].
  simpl. destruct (IH (proxyEvent t e st).2) as (-> & -> & -> & -> & -> & ->).
  unfold proxyEvent, bind, postToWorker, ret.
  repeat (case_match; simplify_eq/=; try done).
Qed.

End EventProxyMore.

(** ** The identity map: binding and lookup *)

Section IdentityMapMore.
Import Renderer.
Context {platform : Platform}.

#[local] Existing Instance ids_kept_preorder.

(** X4. Binding and lookup round trip. After [bindNodeToSkeletonId(node,
    id)] on a node of the document, [getNode] resolves the string [id]
    to [node] unless [id] is the empty string (which is falsy and
    resolves to nothing), and resolves a serialized node with that
    [__id] to [node] unless its [nodeName] is BODY, which always stands
    for the root; the node carries [id] as its [__id]; other ids and
    other nodes are as they were. *)
Theorem bind_then_getNode (r : Dom.NodeRef) (id : string) (st : State)
    (Hnode : r < length (heap st)) :
  let res := bindNodeToSkeletonId (Some r) id st in
  res.1 = Ok ()
  ∧ (id ≠ "" → getNode (Id id) res.2 = Some r)
  ∧ getNode (Id "") res.2 = None
  ∧ (∀ name, getNode (Serialized name id) res.2
             = Some (if decide (name = "BODY") then root else r))
  ∧ (∀ id', id' ≠ id → NODES res.2 !! id' = NODES st !! id')
  ∧ Dom.__id <$> heap res.2 !! r = Some (Some id)
  ∧ (∀ r', r' ≠ r → heap res.2 !! r' = heap st !! r').
Proof.
  destruct (lookup_lt_is_Some_2 _ _ Hnode) as [n Hn].
  unfold bindNodeToSkeletonId, bind, dom, Dom.set___id, Dom.update.
  rewrite Hn. simpl. repeat split.
  - intros Hid. by rewrite decide_False, lookup_insert_eq.
  - intros name. destruct (decide (name = "BODY")); [done|].
    by rewrite lookup_insert_eq.
  - intros id' Hne. by rewrite lookup_insert_ne.
  - by rewrite list_lookup_alter_eq, Hn.
  - intros r' Hne. by rewrite list_lookup_alter_ne.
Qed.

(** *** Nothing is ever unbound *)

Lemma ids_same (st st' : State) : NODES st' = NODES st → ids_kept st st'.
Proof. intros H id. by rewrite H. Qed.

Lemma deref_preserves (R : State → State → Prop) `{!PreOrder R} {A}
    (o : option Dom.NodeRef) (k : Dom.NodeRef → M A) :
  (∀ r, preserves R (k r)) → preserves R (deref o k).
Proof. intros H. destruct o; [apply H | apply (preserves_throw R)]. Qed.

Lemma MUTATIONS_ids (m : MutationRecord) : preserves ids_kept (MUTATIONS m).
Proof.
  assert (Hdom : ∀ A (c : State → JS Dom.Dom A),
            preserves ids_kept (λ st, dom (c st) st)).
  { intros A c st. rewrite dom_run. apply ids_kept_heap. }
  unfold MUTATIONS. repeat case_decide; [| | | |apply (preserves_throw ids_kept)].
  - intros st. unfold MUTATIONS_childList. cbv zeta.
    generalize (getNode (target m) st). intros parent. revert st.
    apply (preserves_bind ids_kept).
    + destruct (removedNodes m); [|apply (preserves_ret ids_kept)].
      apply (preserves_forM_ ids_kept), Forall_forall. intros r _.
      apply (deref_preserves ids_kept). intros p.
      apply (Hdom _ (λ st, Dom.removeChild p (getNode r st))).
    + intros _. destruct (addedNodes m); [|apply (preserves_ret ids_kept)].
      apply (preserves_forM_ ids_kept), Forall_forall. intros a _.
      apply (preserves_bind ids_kept).
      * intros st. destruct (getNode (serialized a) st); [reflexivity|].
        apply createNode_ids.
      * intros newNode. apply (deref_preserves ids_kept). intros p.
        apply (Hdom _ (λ st, Dom.insertBefore p newNode
                               (anchor (nextSibling m) st))).
  - intros st. unfold MUTATIONS_attributes. cbv zeta.
    generalize (getNode (target m) st). intros node. revert st.
    apply (preserves_bind ids_kept); [|intros _; apply sanitize_in_place_ids].
    apply (deref_preserves ids_kept). intros n.
    apply preserves_dom, ids_kept_heap.
  - intros st. unfold MUTATIONS_characterData.
    generalize (getNode (target m) st). intros node. revert st.
    apply (deref_preserves ids_kept). intros n.
    apply preserves_dom, ids_kept_heap.
  - intros st. unfold MUTATIONS_properties. cbv zeta.
    generalize (getNode (target m) st). intros node. revert st.
    apply (preserves_bind ids_kept); [|intros _; apply sanitize_in_place_ids].
    apply (deref_preserves ids_kept). intros n.
    apply preserves_dom, ids_kept_heap.
Qed.

Lemma isElementInViewport_NODES el st :
  NODES (isElementInViewport el st).2 = NODES st.
Proof.
  unfold isElementInViewport. repeat case_match; simplify_eq/=; done.
Qed.

Lemma offscreen_NODES m st : NODES (offscreen m st).2 = NODES st.
Proof.
  unfold offscreen. case_match; [|done].
  destruct (getNode (target m) st); [|done].
  rewrite bind_run.
  pose proof (isElementInViewport_NODES n st) as HN.
  by destruct (isElementInViewport n st) as [[b|e] st1].
Qed.

Lemma drain_ids deadline now k kept todo :
  preserves ids_kept (drain deadline now k kept todo).
Proof.
  revert k kept. induction todo as [|m rest IH]; intros k kept st.
  { by simpl. }
  rewrite drain_cons. destruct (out_of_time deadline now k); [done|].
  destruct (gt_threshold _ _); [apply IH|].
  pose proof (offscreen_NODES m st) as Ho. apply ids_same in Ho.
  destruct (offscreen m st) as [[[]|e] st1]; simpl in Ho; [| |done].
  - etrans; [exact Ho|apply IH].
  - pose proof (MUTATIONS_ids m
                  (with_MUTATION_QUEUE (kept ++ rest) st1)) as Hm.
    destruct (MUTATIONS m _) as [[[]|e] st2]; simpl in Hm.
    + etrans; [exact Ho|]. etrans; [|apply IH]. etrans; [|exact Hm].
      by apply ids_same.
    + etrans; [exact Ho|]. etrans; [|exact Hm]. by apply ids_same.
Qed.

Lemma processMutationsSoon_NODES st :
  NODES (processMutationsSoon st).2 = NODES st.
Proof.
  unfold processMutationsSoon, bind, clearTimeout, setTimeout,
    requestIdleCallback, ret.
  by destruct (mutationTimer st).
Qed.

Lemma processMutations_ids deadline now :
  preserves ids_kept (processMutations deadline now).
Proof.
  intros st. rewrite processMutations_run.
  pose proof (drain_ids deadline now 0 [] (MUTATION_QUEUE st)
                (timer_cleared st)) as Hd.
  assert (H0 : ids_kept st (timer_cleared st)).
  { apply ids_same. unfold timer_cleared, clearTimeout.
    by destruct (mutationTimer st). }
  destruct (drain _ _ _ _ _ _) as [[b|e] st1]; simpl in Hd.
  - destruct (b && _); simpl.
    + etrans; [exact H0|]. etrans; [exact Hd|].
      apply ids_same, processMutationsSoon_NODES.
    + by etrans.
  - by etrans.
Qed.

Lemma hydrate_ids skeleton :
  ∀ node, preserves ids_kept (hydrate node skeleton).
Proof.
  induction skeleton as [nt nn cn sty ats cs d id IH] using Skeleton_tree_ind.
  intros [r|]; simpl; [|apply (preserves_throw ids_kept)].
  apply (preserves_bind ids_kept).
  { apply (bindNodeToSkeletonId_ids (Some r)). }
  intros _. generalize 0 as i.
  induction IH as [|c cs Hc _ IHcs]; intros i.
  - apply (preserves_ret ids_kept).
  - apply (preserves_bind ids_kept); [|intros _; apply IHcs].
    intros st. apply Hc.
Qed.

Lemma onmessage_mutate_ids now mutations :
  preserves ids_kept (onmessage_mutate now mutations).
Proof.
  apply (preserves_bind ids_kept); [|intros _ st; by apply ids_same].
  apply (preserves_forM_ ids_kept), Forall_forall.
  intros m _ st. cbv beta zeta. destruct (initialRender st && _).
  - destruct (addedNodes (with_timestamp now m)) as [added|];
      [|by apply ids_same].
    revert st. apply (preserves_forM_ ids_kept), Forall_forall. intros a _.
    apply hydrate_ids.
  - unfold enqueueMutation. rewrite bind_run. simpl.
    apply ids_same. by rewrite processMutationsSoon_NODES.
Qed.

Lemma proxyEvent_NODES now e st : NODES (proxyEvent now e st).2 = NODES st.
Proof.
  unfold proxyEvent, bind, postToWorker, ret.
  repeat (case_match; simplify_eq/=; try done).
Qed.

Lemma step_ids st st' : step st st' → ids_kept st st'.
Proof.
  destruct 1 as [now ms st|now e st|h now st Hh|h tr now st Hh].
  - apply onmessage_mutate_ids.
  - apply ids_same, proxyEvent_NODES.
  - unfold fire_timeout. rewrite bind_run. simpl.
    etrans; [|apply processMutations_ids]. by apply ids_same.
  - unfold fire_idle. rewrite bind_run. simpl.
    etrans; [|apply processMutations_ids]. by apply ids_same.
Qed.

(** X5. Nothing the module does unbinds an id: whatever messages, events,
    timer and idle callbacks follow, an id that the identity map
    resolves stays resolvable (the node that a child-list record removes
    from the document included). *)
Theorem identity_map_never_forgets (st st' : State) (id : string)
    (Hreach : rtc step st st')
    (Hbound : is_Some (NODES st !! id)) :
  is_Some (NODES st' !! id)
  ∧ (id ≠ "" → is_Some (getNode (Id id) st')).
Proof.
  assert (H : is_Some (NODES st' !! id)).
  { induction Hreach as [|a b c Hab _ IH]; [done|].
    apply IH. by apply (step_ids a b). }
  split; [done|]. intros Hid. simpl. by rewrite decide_False.
Qed.

End IdentityMapMore.

(** ** The node materializer: sanitizer calls and supported skeletons *)

Section MaterializerMore.
Import Renderer.
Context {platform : Platform}.

#[local] Existing Instance unsanitized_preorder.

Lemma sanitize_in_place_log (node : option Dom.NodeRef) (st : State) :
  sanitized (sanitize_in_place node st).2 = sanitized st ++ [node].
Proof. unfold sanitize_in_place. by rewrite dom_run. Qed.

(** What follows the sanitizer call in [createNode] makes no further
    call. *)
Lemma createNode_tail_unsanitized (node : option Dom.NodeRef) (id : string) :
  preserves unsanitized
    (bindNodeToSkeletonId node id ;;
     match node with
     | Some r => ret r
     | None => throw TypeError
     end).
Proof.
  apply (preserves_bind unsanitized); [apply bindNodeToSkeletonId_unsanitized|].
  intros _. destruct node;
    [apply (preserves_ret unsanitized) | apply (preserves_throw unsanitized)].
Qed.

(** X6. [createNode] calls the sanitizer at most once, whatever the size of
    the skeleton tree: not at all without [sanitize] (so never for a
    child skeleton), and with [sanitize] once, on the root of what it
    built, after the children were created and attached. When the call
    returns a node, that node is what the sanitizer was called on. *)
Theorem createNode_sanitizes_once (skeleton : Skeleton.t) (st : State) :
  sanitized (createNode skeleton false st).2 = sanitized st
  ∧ (∃ log, sanitized (createNode skeleton true st).2 = sanitized st ++ log
            ∧ length log ≤ 1)
  ∧ (∀ n st', createNode skeleton true st = (Ok n, st') →
       sanitized st' = sanitized st ++ [Some n]).
Proof.
  split; [apply createNode_false_unsanitized|].
  assert (Hrun : ∀ st1 node,
    construct skeleton st = (Ok node, st1) →
    sanitized (createNode skeleton true st).2 = sanitized st ++ [node]
    ∧ ∀ n st', createNode skeleton true st = (Ok n, st') → node = Some n).
  { intros st1 node Hc. rewrite createNode_unfold, (bind_Ok _ _ _ _ _ Hc).
    simpl. rewrite bind_run.
    pose proof (sanitize_in_place_log node st1) as Hlog.
    pose proof (construct_unsanitized skeleton st) as Hu.
    rewrite Hc in Hu. simpl in Hu. rewrite Hu in Hlog.
    destruct (sanitize_in_place node st1) as [[[]|e] st2]; simpl in *;
      [|split; [done|by intros]].
    pose proof (createNode_tail_unsanitized node (Skeleton.__id skeleton) st2)
      as Ht.
    split; [by rewrite Ht|].
    intros n st' H.
    apply bind_inv in H as [(u & st3 & _ & H)|(e & _ & ?)]; [|done].
    destruct node; unfold ret, throw in H; by simplify_eq. }
  destruct (construct skeleton st) as [[node|e] st1] eqn:Hc.
  - destruct (Hrun st1 node eq_refl) as [Hlog Hnode]. split.
    + exists [node]. split; [done|simpl; lia].
    + intros n st' H. rewrite (Hnode n st' H) in Hlog.
      by rewrite H in Hlog.
  - rewrite createNode_unfold, (bind_Throw _ _ _ _ _ Hc).
    pose proof (construct_unsanitized skeleton st) as Hu. rewrite Hc in Hu.
    split; [|done]. exists []. rewrite app_nil_r. split; [done|simpl; lia].
Qed.

(** *** Skeletons that cannot be materialized *)

(** A skeleton that [createNode] has a node for: a text or an element
    skeleton, the latter without style entries unless an identifier [i]
    is in scope. *)
Definition materializable (x : Skeleton.t) : Prop :=
  (Skeleton.nodeType x = Dom.TEXT_NODE
   ∨ Skeleton.nodeType x = Dom.ELEMENT_NODE
     ∧ (global_i = None → Skeleton.style x = [])).

Lemma forM__Ok {S A} (f : A → JS S ()) (l : list A) (st st' : S) :
  forM_ f l st = (Ok (), st') →
  Forall (λ x, ∃ s1 s2, f x s1 = (Ok (), s2)) l.
Proof.
  revert st. induction l as [|x l IH]; intros st H; [constructor|].
  rewrite forM__cons in H.
  apply bind_inv in H as [([] & st1 & Hx & H)|(e & _ & ?)]; [|done].
  constructor; [by eauto|by eapply IH].
Qed.

(** X7. [createNode] returns a node only for a tree of text and element
    skeletons: a skeleton of another node type (a comment, say) anywhere
    among the visited skeletons makes the call raise, and so does, with
    no [i] in scope, a style entry on any element skeleton. *)
Theorem createNode_returns_only_for_text_and_elements
    (skeleton : Skeleton.t) (sanitize : bool) (st st' : State)
    (n : Dom.NodeRef)
    (Hok : createNode skeleton sanitize st = (Ok n, st')) :
  ∀ x, x ∈ subtree skeleton → materializable x.
Proof.
  revert sanitize st st' n Hok.
  induction skeleton as [nt nn cn sty ats cs d id IH] using Skeleton_tree_ind.
  intros sanitize st st' n Hok x Hx.
  rewrite createNode_unfold in Hok.
  apply bind_inv in Hok as [(node & st1 & Hc & Hok)|(e & _ & ?)]; [|done].
  apply bind_inv in Hok as [(u1 & st2 & _ & Hok)|(e & _ & ?)]; [|done].
  apply bind_inv in Hok as [(u2 & st3 & Hb & _)|(e & _ & ?)]; [|done].
  apply bindNodeToSkeletonId_Ok in Hb as (r & -> & _).
  unfold construct in Hc. simpl in Hx.
  destruct (nt =? Dom.TEXT_NODE)%Z eqn:Et.
  { apply Z.eqb_eq in Et as ->. simpl in Hx.
    apply list_elem_of_singleton in Hx as ->. by left. }
  destruct (nt =? Dom.ELEMENT_NODE)%Z eqn:Ee; [|by unfold ret in Hc].
  apply Z.eqb_eq in Ee as ->.
  apply bind_inv in Hc as [(r' & s1 & _ & Hc)|(e & _ & ?)]; [|done].
  apply bind_inv in Hc as [(u3 & s2 & _ & Hc)|(e & _ & ?)]; [|done].
  apply bind_inv in Hc as [([] & s3 & Hsty & Hc)|(e & _ & ?)]; [|done].
  apply bind_inv in Hc as [(u5 & s4 & _ & Hc)|(e & _ & ?)]; [|done].
  apply bind_inv in Hc as [([] & s5 & Hch & _)|(e & _ & ?)]; [|done].
  apply elem_of_cons in Hx as [->|Hx].
  - right. split; [done|]. simpl. intros Hi.
    destruct sty as [|p sty]; [done|].
    rewrite forM__cons in Hsty. unfold set_style_i in Hsty.
    rewrite Hi in Hsty. by rewrite bind_run in Hsty.
  - apply forM__Ok in Hch.
    apply list_elem_of_In, in_flat_map in Hx as (c & Hc' & Hx).
    apply list_elem_of_In in Hc', Hx.
    rewrite Forall_forall in IH, Hch.
    destruct (Hch c Hc') as (s6 & s7 & Hcc).
    apply bind_inv in Hcc as [(child & s8 & Hcr & _)|(e & _ & ?)]; [|done].
    by eapply (IH c Hc').
Qed.

End MaterializerMore.

(** ** Hydration and the worker's messages *)

Section HydrationMore.
Import Renderer.
Context {platform : Platform}.

(** The document with every [__id] expando taken off. *)
Definition without_ids (d : Dom.Dom) : Dom.Dom := Dom.with___id None <$> d.

(** Between two states nothing differs but the identity map and the
    [__id] expandos of the nodes. *)
Definition only_ids_differ (st st' : State) : Prop :=
  without_ids (heap st') = without_ids (heap st)
  ∧ sanitized st' = sanitized st
  ∧ timeOfLastUserGesture st' = timeOfLastUserGesture st
  ∧ touchStart st' = touchStart st
  ∧ posted st' = posted st
  ∧ MUTATION_QUEUE st' = MUTATION_QUEUE st
  ∧ mutationTimer st' = mutationTimer st
  ∧ windowSizeCache st' = windowSizeCache st
  ∧ initialRender st' = initialRender st
  ∧ scheduler st' = scheduler st.

#[local] Instance only_ids_differ_preorder : PreOrder only_ids_differ.
Proof.
  split; [by intros st|].
  intros a b c (?&?&?&?&?&?&?&?&?&?) (?&?&?&?&?&?&?&?&?&?).
  unfold only_ids_differ. repeat split; congruence.
Qed.

Lemma without_ids_set (d : Dom.Dom) (r : Dom.NodeRef) (v : option string) :
  without_ids (alter (Dom.with___id v) r d) = without_ids d.
Proof.
  unfold without_ids. apply list_eq. intros i. rewrite !list_lookup_fmap.
  destruct (decide (i = r)) as [->|Hne].
  - rewrite list_lookup_alter_eq. by destruct (d !! r).
  - by rewrite list_lookup_alter_ne.
Qed.

Lemma bindNodeToSkeletonId_only_ids node id :
  preserves only_ids_differ (bindNodeToSkeletonId node id).
Proof.
  intros st. destruct node as [r|]; simpl; [|done].
  unfold bind, dom, Dom.set___id, Dom.update.
  destruct (heap st !! r); simpl; [|done].
  split; [apply without_ids_set|done].
Qed.

Lemma hydrate_only_ids skeleton :
  ∀ node, preserves only_ids_differ (hydrate node skeleton).
Proof.
  induction skeleton as [nt nn cn sty ats cs d id IH] using Skeleton_tree_ind.
  intros [r|]; simpl; [|apply (preserves_throw only_ids_differ)].
  apply (preserves_bind only_ids_differ).
  { apply (bindNodeToSkeletonId_only_ids (Some r)). }
  intros _. generalize 0 as i.
  induction IH as [|c cs Hc _ IHcs]; intros i.
  - apply (preserves_ret only_ids_differ).
  - apply (preserves_bind only_ids_differ); [|intros _; apply IHcs].
    intros st. apply Hc.
Qed.

(** X8. Hydration only binds: whatever the skeleton and whether or not the
    rendered tree matches it (the comparison of node types, names and
    child counts is a console assertion), [hydrate] creates, moves and
    removes no node and changes no text, attribute or property; it makes
    no sanitizer call; it enqueues, schedules and posts nothing. It
    writes [__id] expandos and the identity map, which only grows. *)
Theorem hydrate_only_binds (node : option Dom.NodeRef)
    (skeleton : Skeleton.t) (st : State) :
  let st' := (hydrate node skeleton st).2 in
  without_ids (heap st') = without_ids (heap st)
  ∧ length (heap st') = length (heap st)
  ∧ sanitized st' = sanitized st
  ∧ MUTATION_QUEUE st' = MUTATION_QUEUE st
  ∧ posted st' = posted st
  ∧ scheduler st' = scheduler st
  ∧ ids_kept st st'.
Proof.
  destruct (hydrate_only_ids skeleton node st)
    as (Hh & Hs & _ & _ & Hp & Hq & _ & _ & _ & Hsch).
  split; [done|]. split.
  { apply (f_equal length) in Hh. unfold without_ids in Hh.
    by rewrite !length_fmap in Hh. }
  repeat (split; [done|]). apply hydrate_ids.
Qed.

(** *** Messages after the initial render *)

Lemma enqueueMutation_run (m : MutationRecord) (st : State) :
  let r := enqueueMutation m st in
  r.1 = Ok ()
  ∧ MUTATION_QUEUE r.2 = MUTATION_QUEUE st ++ [m]
  ∧ heap r.2 = heap st ∧ NODES r.2 = NODES st
  ∧ sanitized r.2 = sanitized st
  ∧ initialRender r.2 = initialRender st
  ∧ timeOfLastUserGesture r.2 = timeOfLastUserGesture st
  ∧ idleRequests (scheduler r.2)
    = idleRequests (scheduler st) ++ [S (nextHandle (scheduler st))]
  ∧ nextHandle (scheduler r.2) = S (S (nextHandle (scheduler st))).
Proof.
  unfold enqueueMutation, processMutationsSoon, bind, clearTimeout,
    setTimeout, requestIdleCallback, ret.
  simpl. by destruct (mutationTimer st).
Qed.

(** X9. After the initial render, or on a page without [amp-aot] root, a
    mutate message only enqueues: its records are appended to the queue
    in the order received, each stamped with the time of receipt, and
    one idle request is added per record. Nothing is applied on
    receipt: the document, the identity map and the sanitizer log are as
    they were. The message never raises, and the initial render is over
    afterwards (also after a message without records). (The latency
    figure that a page with a [#metrics] element displays is not
    modelled.) *)
Theorem onmessage_enqueues_in_order (now : Z) (mutations : list MutationRecord)
    (st : State)
    (Hmode : initialRender st = false ∨ aotRoot = None) :
  let r := onmessage_mutate now mutations st in
  r.1 = Ok ()
  ∧ MUTATION_QUEUE r.2
    = MUTATION_QUEUE st ++ (with_timestamp now <$> mutations)
  ∧ heap r.2 = heap st ∧ NODES r.2 = NODES st
  ∧ sanitized r.2 = sanitized st
  ∧ initialRender r.2 = false
  ∧ length (idleRequests (scheduler r.2))
    = length (idleRequests (scheduler st)) + length mutations.
Proof.
  assert (Hguard : ∀ s, initialRender s = initialRender st →
            initialRender s && bool_decide (is_Some aotRoot) = false).
  { intros s ->. destruct Hmode as [->| ->]; [done|].
    rewrite bool_decide_eq_false_2 by (by intros [? ?]).
    apply andb_false_r. }
  unfold onmessage_mutate. rewrite bind_run.
  match goal with |- context [forM_ ?f mutations st] =>
    assert (Hloop : ∀ ms s, initialRender s = initialRender st →
      let r := forM_ f ms s in
      r.1 = Ok ()
      ∧ MUTATION_QUEUE r.2 = MUTATION_QUEUE s ++ (with_timestamp now <$> ms)
      ∧ heap r.2 = heap s ∧ NODES r.2 = NODES s
      ∧ sanitized r.2 = sanitized s
      ∧ initialRender r.2 = initialRender s
      ∧ length (idleRequests (scheduler r.2))
        = length (idleRequests (scheduler s)) + length ms)
  end.
  { induction ms as [|m ms IH]; intros s Hs; cbv zeta.
    { simpl. rewrite app_nil_r. repeat split; lia. }
    rewrite forM__cons, bind_run. cbv beta. rewrite (Hguard s Hs).
    destruct (enqueueMutation_run (with_timestamp now m) s)
      as (Hr & Hq & Hh & Hn & Hsa & Hi & _ & Hidle & _).
    destruct (enqueueMutation (with_timestamp now m) s) as [[[]|e] s1];
      simpl in *; [|done].
    destruct (IH s1) as (Hr' & Hq' & Hh' & Hn' & Hsa' & Hi' & Hidle');
      [congruence|].
    rewrite Hq', Hq, Hh', Hh, Hn', Hn, Hsa', Hsa, Hi', Hi, Hidle', Hidle.
    rewrite <- app_assoc, length_app. simpl.
    repeat split; [done|lia]. }
  destruct (Hloop mutations st eq_refl) as (Hr & Hq & Hh & Hn & Hsa & _ & Hidle).
  destruct (forM_ _ mutations st) as [[[]|e] st1]; simpl in *; [|done].
  by repeat split.
Qed.

(** *** The first message on a page with an [amp-aot] root *)

(** X10. In the initial render of a page with an [amp-aot] root every record
    of a mutate message is used for hydration only: each of its added
    nodes is hydrated against the root, and the record is neither
    enqueued nor applied (its removed nodes, its target and its siblings
    are not looked at). Nothing is scheduled and the sanitizer is not
    called. If the message is processed to its end the initial render is
    over; a record without added nodes raises a TypeError, which leaves
    the initial render on for the next message. (The latency figure
    that a page with a [#metrics] element displays is not modelled.) *)
Theorem first_message_only_hydrates (now : Z)
    (mutations : list MutationRecord) (st : State) (a : Dom.NodeRef)
    (Hfirst : initialRender st = true)
    (Haot : aotRoot = Some a) :
  let r := onmessage_mutate now mutations st in
  MUTATION_QUEUE r.2 = MUTATION_QUEUE st
  ∧ scheduler r.2 = scheduler st
  ∧ sanitized r.2 = sanitized st
  ∧ without_ids (heap r.2) = without_ids (heap st)
  ∧ (r.1 = Ok () →
     initialRender r.2 = false
     ∧ Forall (λ m, is_Some (addedNodes m)) mutations)
  ∧ (∀ e, r.1 = Throw e → initialRender r.2 = true)
  ∧ (∀ m ms, mutations = m :: ms → addedNodes m = None →
       r = (Throw TypeError, st)).
Proof.
  unfold onmessage_mutate. rewrite bind_run.
  match goal with |- context [forM_ ?g mutations st] => set (f := g) end.
  assert (Hguard : ∀ s, initialRender s = true →
            initialRender s && bool_decide (is_Some aotRoot) = true).
  { intros s ->. rewrite Haot. by rewrite bool_decide_eq_true_2 by eauto. }
  assert (Hstep : ∀ m s, initialRender s = true →
            f m s = match addedNodes m with
                    | Some added => forM_ (hydrate aotRoot) added s
                    | None => (Throw TypeError, s)
                    end).
  { intros m s Hs. unfold f. by rewrite (Hguard s Hs). }
  assert (Hloop : ∀ ms s, initialRender s = true →
    let r := forM_ f ms s in
    only_ids_differ s r.2
    ∧ (r.1 = Ok () → Forall (λ m, is_Some (addedNodes m)) ms)).
  { induction ms as [|m ms IH]; intros s Hs; cbv zeta.
    { split; [reflexivity|by constructor]. }
    rewrite forM__cons, bind_run. rewrite (Hstep m s Hs).
    destruct (addedNodes m) as [added|] eqn:Hadd; [|by split].
    assert (Hh : preserves only_ids_differ (forM_ (hydrate aotRoot) added)).
    { apply (preserves_forM_ only_ids_differ), Forall_forall. intros x _.
      apply hydrate_only_ids. }
    specialize (Hh s).
    destruct (forM_ (hydrate aotRoot) added s) as [[[]|e] s1];
      simpl in *; [|by split].
    destruct (IH s1) as [Hd Hall].
    { destruct Hh as (_&_&_&_&_&_&_&_&Hi&_). congruence. }
    split; [etrans; [exact Hh|exact Hd]|].
    intros Hok. constructor; [by eauto|by apply Hall]. }
  assert (Hhead : ∀ m ms, addedNodes m = None →
            forM_ f (m :: ms) st = (Throw TypeError, st)).
  { intros m ms Hadd. rewrite forM__cons, bind_run.
    by rewrite (Hstep m st Hfirst), Hadd. }
  destruct (Hloop mutations st Hfirst) as [Hd Hall].
  assert (Hnone : ∀ m ms, mutations = m :: ms → addedNodes m = None →
            forM_ f mutations st = (Throw TypeError, st)).
  { intros m ms Hm Hadd. rewrite Hm. by apply Hhead. }
  destruct (forM_ f mutations st) as [[[]|e] st1]; simpl in *;
    destruct Hd as (Hh & Hsa & _ & _ & _ & Hq & _ & _ & Hi & Hsch);
    (split; [exact Hq|]); (split; [exact Hsch|]); (split; [exact Hsa|]);
    (split; [exact Hh|]).
  - split; [|split].
    + intros _. split; [done|]. by apply Hall.
    + intros e He. discriminate He.
    + intros m ms Hm Hadd. by specialize (Hnone m ms Hm Hadd).
  - split; [|split].
    + intros He. discriminate He.
    + intros e' _. congruence.
    + intros m ms Hm Hadd. specialize (Hnone m ms Hm Hadd). by simplify_eq.
Qed.

End HydrationMore.

(** ** Drain passes: what they schedule and where they stop *)

Section DrainMore.
Import Renderer.
Context {platform : Platform}.

Lemma timer_cleared_fields (st : State) :
  heap (timer_cleared st) = heap st
  ∧ NODES (timer_cleared st) = NODES st
  ∧ sanitized (timer_cleared st) = sanitized st
  ∧ MUTATION_QUEUE (timer_cleared st) = MUTATION_QUEUE st
  ∧ timeOfLastUserGesture (timer_cleared st) = timeOfLastUserGesture st
  ∧ mutationTimer (timer_cleared st) = mutationTimer st
  ∧ windowSizeCache (timer_cleared st) = windowSizeCache st
  ∧ idleRequests (scheduler (timer_cleared st)) = idleRequests (scheduler st)
  ∧ nextHandle (scheduler (timer_cleared st)) = nextHandle (scheduler st).
Proof.
  unfold timer_cleared, clearTimeout.
  by destruct (mutationTimer st) eqn:Hm; simpl; rewrite ?Hm.
Qed.

Lemma timer_cleared_idemp (st : State) :
  timer_cleared (timer_cleared st) = timer_cleared st.
Proof.
  unfold timer_cleared, clearTimeout.
  destruct (mutationTimer st) as [h|] eqn:Hm; simpl; rewrite Hm; [|done].
  simpl. unfold with_scheduler. simpl. f_equal. f_equal.
  induction (timeouts (scheduler st)) as [|x l IH]; [done|].
  destruct (decide (x ≠ h)).
  - rewrite !filter_cons_True by done. by rewrite IH.
  - by rewrite !filter_cons_False by done.
Qed.

(** X11. A pass that is out of time at its first check applies nothing:
    the queue, the document, the identity map and the sanitizer log
    are as they were; with records queued, it re-arms itself through
    [processMutationsSoon] (a new timeout in place of the pending one
    and one more idle request). On an empty queue a pass, whatever its
    deadline, only clears the pending timeout. *)
Theorem pass_out_of_time_applies_nothing
    (deadline : option (nat → Q)) (now : nat → Z) (st : State)
    (Htime : out_of_time deadline now 0 = true) :
  let r := processMutations deadline now st in
  r = (if decide (MUTATION_QUEUE st = []) then (Ok (), timer_cleared st)
       else processMutationsSoon (timer_cleared st))
  ∧ r.1 = Ok ()
  ∧ MUTATION_QUEUE r.2 = MUTATION_QUEUE st
  ∧ heap r.2 = heap st ∧ NODES r.2 = NODES st
  ∧ sanitized r.2 = sanitized st
  ∧ (MUTATION_QUEUE st ≠ [] →
     mutationTimer r.2 = Some (nextHandle (scheduler st))
     ∧ idleRequests (scheduler r.2)
       = idleRequests (scheduler st) ++ [S (nextHandle (scheduler st))]).
Proof.
  intros r.
  destruct (timer_cleared_fields st) as (Hh & Hn & Hs & Hq & _ & _ & _ & Hi & Hx).
  assert (Hr : r = (if decide (MUTATION_QUEUE st = [])
                    then (Ok (), timer_cleared st)
                    else processMutationsSoon (timer_cleared st))).
  { subst r. rewrite processMutations_run.
    destruct (MUTATION_QUEUE st) as [|m rest] eqn:Hqueue; [done|].
    rewrite drain_cons, Htime. simpl. by rewrite Hq. }
  split; [exact Hr|]. rewrite Hr. case_decide as Hempty.
  - simpl. repeat split; try done.
  - destruct (processMutationsSoon_run (timer_cleared st)) as (Hrun & Hq' & _).
    destruct (processMutationsSoon_scheduler (timer_cleared st))
      as (_ & Hm' & Hi').
    rewrite Hrun. simpl. rewrite Hq', Hm', Hi', Hx, Hi, Hq.
    assert (HN : ∀ s, heap (processMutationsSoon s).2 = heap s
                      ∧ sanitized (processMutationsSoon s).2 = sanitized s).
    { intros s. unfold processMutationsSoon, bind, clearTimeout, setTimeout,
        requestIdleCallback, ret. by destruct (mutationTimer s). }
    destruct (HN (timer_cleared st)) as [-> ->].
    rewrite processMutationsSoon_NODES. by repeat split.
Qed.

(** X12. A pass that does not run out of time schedules nothing, whatever
    it leaves in the queue: when it ends (normally or by an exception)
    the pending timeout has been cleared and the idle requests are
    those that were pending. Records that the pass held back for their
    latency or skipped as offscreen are not retried on the module's
    own initiative. *)
Theorem pass_in_time_schedules_nothing
    (deadline : option (nat → Q)) (now : nat → Z) (st : State)
    (Htime : ∀ k, out_of_time deadline now k = false) :
  let r := processMutations deadline now st in
  scheduler r.2 = scheduler (timer_cleared st)
  ∧ idleRequests (scheduler r.2) = idleRequests (scheduler st)
  ∧ (one_timer st → timeouts (scheduler r.2) = [])
  ∧ mutationTimer r.2 = mutationTimer st.
Proof.
  intros r.
  destruct (timer_cleared_fields st) as (_ & _ & _ & _ & _ & Hm & _ & Hi & _).
  assert (Hr : same_timers (timer_cleared st) r.2).
  { subst r. rewrite processMutations_run.
    pose proof (drain_timers deadline now 0 [] (MUTATION_QUEUE st)
                  (timer_cleared st)) as Hd.
    destruct (drain _ _ _ _ _ _) as [[b|e] st1] eqn:Hdrain; [|done].
    apply drain_in_time in Hdrain as ->; done. }
  destruct Hr as (_ & Hm' & Hs'). rewrite Hs'.
  split; [done|]. split; [done|]. split; [|congruence].
  apply timer_cleared_none.
Qed.

(** X13. A text or attribute change for a bound text node that has no
    parent stops the queue. The visibility test reads the bounding box
    of the node's parent, so it raises a TypeError before the record is
    taken off the queue: the pass ends with the exception, the queue and
    the document are as they were, and every later pass that reaches the
    record in time ends the same way, so that the records behind it are
    never applied. *)
Theorem detached_text_target_stops_queue
    (deadline : option (nat → Q)) (now : nat → Z) (st : State)
    (m : MutationRecord) (rest : list MutationRecord)
    (t : Dom.NodeRef) (n : Dom.DomNode)
    (Hqueue : MUTATION_QUEUE st = m :: rest)
    (Htype : type m = "characterData" ∨ type m = "attributes")
    (Htarget : getNode (target m) st = Some t)
    (Hnode : heap st !! t = Some n)
    (Htext : Dom.nodeType n = Dom.TEXT_NODE)
    (Hdetached : Dom.parentNode t (heap st) = None)
    (Htime : out_of_time deadline now 0 = false)
    (Hlatency : held (timeOfLastUserGesture st) m = false) :
  let r := processMutations deadline now st in
  r = (Throw TypeError, timer_cleared st)
  ∧ MUTATION_QUEUE r.2 = m :: rest
  ∧ heap r.2 = heap st
  ∧ ∀ deadline' now', out_of_time deadline' now' 0 = false →
      processMutations deadline' now' r.2 = r.
Proof.
  assert (Hpass : ∀ s d' n',
    MUTATION_QUEUE s = m :: rest → getNode (target m) s = Some t →
    heap s = heap st → timeOfLastUserGesture s = timeOfLastUserGesture st →
    out_of_time d' n' 0 = false →
    processMutations d' n' s = (Throw TypeError, timer_cleared s)).
  { intros s d' n' Hq Hg Hh Hc Ht.
    destruct (timer_cleared_fields s) as (Hh' & Hn' & _ & Hq' & Hc' & _).
    rewrite processMutations_run, Hq, drain_cons, Ht, Hc', Hc.
    unfold held in Hlatency. rewrite Hlatency.
    assert (Hoff : offscreen m (timer_cleared s)
                   = (Throw TypeError, timer_cleared s)).
    { unfold offscreen.
      replace (bool_decide (type m = "characterData")
               || bool_decide (type m = "attributes")) with true.
      2: { destruct Htype as [-> | ->]; by rewrite ?orb_true_r. }
      rewrite (getNode_NODES _ s) by done. rewrite Hg, bind_run.
      unfold isElementInViewport. rewrite Hh', Hh, Hnode, Htext. simpl.
      by rewrite Hdetached. }
    by rewrite Hoff. }
  intros r.
  assert (Hr : r = (Throw TypeError, timer_cleared st)).
  { apply Hpass; done. }
  destruct (timer_cleared_fields st) as (Hh & Hn & _ & Hq & Hc & _).
  rewrite Hr. simpl. split; [done|]. split; [by rewrite Hq|].
  split; [done|]. intros d' n' Ht.
  rewrite <- (timer_cleared_idemp st) at 2.
  apply Hpass; try done; try congruence.
  by rewrite (getNode_NODES _ st).
Qed.

End DrainMore.

(** X14. Once both dimensions of the window are in the cache (and not 0,
    which counts as missing), the visibility test no longer reads the
    window: two platforms that report the same bounding boxes give the
    same answer whatever their window sizes, and the test leaves the
    state alone. A window that is resized afterwards is tested with the
    size it had. *)
Theorem viewport_test_uses_cached_size (p1 p2 : Renderer.Platform)
    (el : Dom.NodeRef) (st : Renderer.State) (h w : Q)
    (Hbox : @Renderer.getBoundingClientRect p1
            = @Renderer.getBoundingClientRect p2)
    (Hcache : Renderer.windowSizeCache st = (Some h, Some w))
    (Hh : Qzero_b h = false) (Hw : Qzero_b w = false) :
  @Renderer.isElementInViewport p1 el st
  = @Renderer.isElementInViewport p2 el st
  ∧ (@Renderer.isElementInViewport p1 el st).2 = st.
Proof.
  unfold Renderer.isElementInViewport. rewrite Hbox, Hcache. simpl.
  rewrite Hh, Hw.
  assert (Hst : Renderer.with_windowSizeCache (Some h, Some w) st = st).
  { rewrite <- Hcache. by destruct st. }
  repeat (case_match; simpl; rewrite ?Hst; try done).
Qed.

(** ** amp-script.js: the pump before layout, a broken element, and
    the iframe fit *)

Section PumpMore.
Import AmpScript.
Variable isLayoutSizeDefined : string → bool.

(** X15. The pump dereferences [userActivation_] and [workerDom_], which
    are null until [layoutCallback] and the upgrade have set them. A
    batch of any phase other than MUTATING needs neither and is
    scheduled for flush (with the hydrated class scheduled first when
    the phase is HYDRATING). A mutating batch raises a TypeError when
    the activation tracker is missing, and also when the batch is to be
    rejected and the worker handle is missing; the element is then as
    it was: nothing is scheduled, the class list is unchanged and no
    user error is logged. *)
Theorem pump_before_handles_are_set (b : Batch) (el : Element) :
  (∀ phase, phase ≠ Phase.MUTATING →
     mutationPump_ isLayoutSizeDefined b phase el
     = (Ok (), mutate (FlushAndFit b)
                 (if (phase =? Phase.HYDRATING)%Z
                  then mutate AddHydrated el else el)))
  ∧ (userActivation_ el = None →
     mutationPump_ isLayoutSizeDefined b Phase.MUTATING el
     = (Throw TypeError, el))
  ∧ (∀ u, userActivation_ el = Some u → workerDom_ el = None →
       mutationPump_ isLayoutSizeDefined b Phase.MUTATING el
       = if isActive u
            || (isLayoutSizeDefined (getLayout el)
                && Qle_b (getLayoutBox_height el) MAX_FREE_MUTATION_HEIGHT)
         then (Ok (), mutate (FlushAndFit b) el)
         else (Throw TypeError, el)).
Proof.
  split; [|split].
  - intros phase Hne. unfold mutationPump_, allowMutation.
    assert (Hm : (phase =? Phase.MUTATING)%Z = false) by by apply Z.eqb_neq.
    destruct (phase =? Phase.HYDRATING)%Z; simpl; by rewrite Hm.
  - intros Hu. unfold mutationPump_, allowMutation. simpl. by rewrite Hu.
  - intros u Hu Hw. unfold mutationPump_, allowMutation. simpl.
    rewrite Hu. destruct (isActive u || _); [done|]. by rewrite Hw.
Qed.

(** What can happen to the element: the pump is called with some
    batch in some phase, or the vsync service runs what is scheduled. *)
Inductive pump_step : Element → Element → Prop :=
  | pump_call b phase el :
      pump_step el (mutationPump_ isLayoutSizeDefined b phase el).2
  | pump_vsync el :
      pump_step el (vsync_run el).

(** The class list has i-amphtml-broken and the worker is
    terminated. *)
Definition broken (el : Element) : Prop :=
  "i-amphtml-broken" ∈ classList el
  ∧ workerDom_ el = Some {| terminated := true |}.

Lemma fold_run_task_broken ts el :
  broken el → broken (fold_left (λ e t, run_task t e) ts el).
Proof.
  revert el. induction ts as [|t ts IH]; intros el [Hc Hw]; [done|].
  simpl. apply IH. destruct t; simpl; split; try done.
  unfold set_classList. simpl.
  rewrite (classList_add_other isLayoutSizeDefined). by right.
Qed.

Lemma pump_step_broken el el' : pump_step el el' → broken el → broken el'.
Proof.
  destruct 1 as [b phase el|el]; intros [Hc Hw].
  - unfold mutationPump_.
    destruct (phase =? Phase.HYDRATING)%Z; simpl;
      destruct (allowMutation _ _ _) as [[]|]; simpl; try done;
      rewrite Hw; simpl; (split; [apply (classList_add_elem isLayoutSizeDefined)|done]).
  - unfold vsync_run. by apply fold_run_task_broken.
Qed.

(** X16. Nothing takes the broken state back. Once a batch has been
    rejected the element keeps the class i-amphtml-broken and its worker
    stays terminated, whatever batches the pump is called with
    afterwards and whenever vsync runs. (The pump does not consult that
    state: a later batch is accepted or rejected as any other.) *)
Theorem broken_is_final (el el' : Element)
    (Hbroken : "i-amphtml-broken" ∈ classList el)
    (Hterminated : workerDom_ el = Some {| terminated := true |})
    (Hreach : rtc pump_step el el') :
  "i-amphtml-broken" ∈ classList el'
  ∧ workerDom_ el' = Some {| terminated := true |}.
Proof.
  assert (H : broken el) by done. clear Hbroken Hterminated.
  induction Hreach as [el|a b c Hab _ IH]; [done|].
  apply IH. by apply (pump_step_broken a b).
Qed.

End PumpMore.

(** *** The iframe fit: removing the original children *)

Section FitMore.
Import AmpScript.
Variable element iframe_ : Dom.NodeRef.

Lemma removeOriginalChildren_unfold (fuel : nat) (d : Dom.Dom) :
  removeOriginalChildren element iframe_ fuel d
  = if bool_decide (Dom.firstChild element d = Some iframe_)
    then Some (Ok (), d)
    else match fuel with
         | O => None
         | S fuel' =>
             match Dom.removeChild element (Dom.firstChild element d) d with
             | (Ok _, d') => removeOriginalChildren element iframe_ fuel' d'
             | (Throw e, d') => Some (Throw e, d')
             end
         end.
Proof. by destruct fuel. Qed.

Lemma firstChild_of (d : Dom.Dom) (cs : list Dom.NodeRef) :
  Dom.childNodes <$> d !! element = Some cs →
  Dom.firstChild element d = head cs.
Proof.
  unfold Dom.firstChild. destruct (d !! element); intros H; by simplify_eq/=.
Qed.

(** Removing the first child [c] of [element]. *)
Lemma removeChild_first (d : Dom.Dom) (c : Dom.NodeRef)
    (cs : list Dom.NodeRef) :
  Dom.childNodes <$> d !! element = Some (c :: cs) → NoDup (c :: cs) →
  ∃ d', Dom.removeChild element (Some c) d = (Ok (), d')
        ∧ Dom.childNodes <$> d' !! element = Some cs
        ∧ ∀ r, r ≠ element → d' !! r = d !! r.
Proof.
  intros Hcs Hnd. unfold Dom.removeChild.
  destruct (d !! element) as [pn|] eqn:Hpn; simplify_eq/=.
  rewrite bool_decide_eq_true_2 by (rewrite Hcs; apply list_elem_of_here).
  eexists. split; [done|]. split.
  - rewrite list_lookup_alter_eq, Hpn. simpl. rewrite Hcs. f_equal.
    apply NoDup_cons in Hnd as [Hc _].
    rewrite filter_cons_False by (intros Hne; by apply Hne).
    by apply filter_not_elem.
  - intros r Hr. by rewrite list_lookup_alter_ne.
Qed.

(** X17. The loop of the fit callback, [while (element.firstChild !==
    iframe_) element.removeChild(element.firstChild)]. When the iframe
    is among the element's children the loop ends after as many
    iterations as children precede it: these are removed, the iframe
    becomes the first child, what follows it stays, and no other node is
    touched. When the iframe is not a child of the element the loop
    removes every child and then raises a TypeError (on
    [removeChild(null)]). *)
Theorem fit_removes_children_before_iframe (d : Dom.Dom)
    (cs : list Dom.NodeRef)
    (Hchildren : Dom.childNodes <$> d !! element = Some cs)
    (Hnodup : NoDup cs) :
  (∀ before after fuel,
     cs = before ++ iframe_ :: after → iframe_ ∉ before →
     length before ≤ fuel →
     ∃ d', removeOriginalChildren element iframe_ fuel d = Some (Ok (), d')
           ∧ Dom.childNodes <$> d' !! element = Some (iframe_ :: after)
           ∧ ∀ r, r ≠ element → d' !! r = d !! r)
  ∧ (iframe_ ∉ cs → ∀ fuel, length cs < fuel →
     ∃ d', removeOriginalChildren element iframe_ fuel d
           = Some (Throw TypeError, d')
           ∧ Dom.childNodes <$> d' !! element = Some []
           ∧ ∀ r, r ≠ element → d' !! r = d !! r).
Proof.
  split.
  - intros before after fuel -> Hnot Hfuel.
    revert d fuel Hchildren Hnodup Hfuel.
    induction before as [|c before IH]; intros d fuel Hchildren Hnodup Hfuel;
      rewrite removeOriginalChildren_unfold, (firstChild_of _ _ Hchildren).
    { simpl. rewrite bool_decide_eq_true_2 by done. by exists d. }
    apply not_elem_of_cons in Hnot as [Hne Hnot]. simpl.
    rewrite bool_decide_eq_false_2 by (intros [= ->]; by apply Hne).
    destruct fuel as [|fuel]; [simpl in Hfuel; lia|].
    destruct (removeChild_first d c _ Hchildren Hnodup) as (d1 & -> & Hcs1 & Hd1).
    apply NoDup_cons in Hnodup as [_ Hnodup].
    destruct (IH Hnot d1 fuel Hcs1 Hnodup) as (d' & -> & Hcs' & Hd');
      [simpl in Hfuel; lia|].
    exists d'. split; [done|]. split; [done|].
    intros r Hr. by rewrite Hd', Hd1.
  - intros Hnot. revert d Hchildren Hnodup.
    induction cs as [|c cs IH]; intros d Hchildren Hnodup fuel Hfuel;
      rewrite removeOriginalChildren_unfold, (firstChild_of _ _ Hchildren);
      (destruct fuel as [|fuel]; [simpl in Hfuel; lia|]); simpl.
    { unfold Dom.removeChild. exists d.
      by destruct (d !! element). }
    apply not_elem_of_cons in Hnot as [Hne Hnot].
    rewrite bool_decide_eq_false_2 by (intros [= ->]; by apply Hne).
    destruct (removeChild_first d c _ Hchildren Hnodup) as (d1 & -> & Hcs1 & Hd1).
    apply NoDup_cons in Hnodup as [_ Hnodup].
    destruct (IH Hnot d1 Hcs1 Hnodup fuel) as (d' & -> & Hcs' & Hd');
      [simpl in Hfuel; lia|].
    exists d'. split; [done|]. split; [done|].
    intros r Hr. by rewrite Hd', Hd1.
Qed.

End FitMore.

(** *** [SanitizerImpl]: attribute and property changes *)

Section SanitizerMutateMore.
Import AmpScript.
Variable allowedTags_ : string → bool.
Variable validateAttributeChange
  : Dom.Dom → Dom.NodeRef → string → option string → bool.
Variable rewriteAttributeValue : string → string → string → string.

Lemma lower_ascii_idemp (c : ascii) :
  lower_ascii (lower_ascii c) = lower_ascii c.
Proof. by destruct c as [[] [] [] [] [] [] [] []]. Qed.

Lemma toLowerCase_idemp (s : string) :
  toLowerCase (toLowerCase s) = toLowerCase s.
Proof.
  induction s as [|c s IH]; [done|]. simpl. by rewrite lower_ascii_idemp, IH.
Qed.



(** The attribute list after the change proper. *)
Definition changed (tag attr : string) (value : option string)
    (attrs : Obj string) : Obj string :=
  match value with
  | None => obj_del attr attrs
  | Some v => obj_set attr (rewriteAttributeValue tag attr v) attrs
  end.

(** a[href] requires [target], which defaults to _top. *)
Definition with_default_target (tag : string) (attrs : Obj string)
    : Obj string :=
  if decide (tag = "a") then
    if bool_decide (is_Some (obj_get "href" attrs))
       && negb (bool_decide (is_Some (obj_get "target" attrs)))
    then obj_set "target" "_top" attrs else attrs
  else attrs.

Lemma nodeType_with_attributes f n :
  Dom.nodeType (Dom.with_attributes f n) = Dom.nodeType n.
Proof. done. Qed.

(** [mutateAttribute], on a node of the document, in one step. *)
Lemma mutateAttribute_run (node : Dom.NodeRef) (attribute : string)
    (value : option string) (d : Dom.Dom) (n : Dom.DomNode) :
  d !! node = Some n →
  let tag := toLowerCase (Dom.nodeName n) in
  let attr := toLowerCase attribute in
  SanitizerImpl.mutateAttribute allowedTags_ validateAttributeChange
    rewriteAttributeValue node attribute value d
  = if negb (allowedTags_ tag) then (Ok false, d)
    else if validateAttributeChange d node attr value then
      if (Dom.nodeType n =? Dom.ELEMENT_NODE)%Z
      then (Ok true,
            alter (Dom.with_attributes
                     (λ attrs, with_default_target tag
                                 (changed tag attr value attrs))) node d)
      else (Throw TypeError, d)
    else (Ok false, d).
Proof.
  intros Hn tag attr. unfold SanitizerImpl.mutateAttribute. rewrite Hn.
  fold tag. fold attr.
  destruct (negb (allowedTags_ tag)); [done|].
  destruct (validateAttributeChange d node attr value); [|done].
  rewrite bind_run.
  assert (Hset : (match value with
                  | None => Dom.removeAttribute node attr
                  | Some v => Dom.setAttribute node attr
                                (rewriteAttributeValue tag attr v)
                  end) d
                 = if (Dom.nodeType n =? Dom.ELEMENT_NODE)%Z
                   then (Ok (), alter (Dom.with_attributes
                                         (changed tag attr value)) node d)
                   else (Throw TypeError, d)).
  { destruct value as [v|]; unfold Dom.setAttribute, Dom.removeAttribute;
      rewrite Hn; unfold attr; rewrite toLowerCase_idemp; done. }
  rewrite Hset. destruct (Dom.nodeType n =? Dom.ELEMENT_NODE)%Z eqn:Hel;
    [|done].
  set (d1 := alter _ node d).
  assert (Hn1 : d1 !! node
                = Some (Dom.with_attributes (changed tag attr value) n)).
  { subst d1. by rewrite list_lookup_alter_eq, Hn. }
  rewrite bind_run.
  assert (Hfix : (if decide (tag = "a") then
                    let* href := Dom.hasAttribute node "href" in
                    if href : bool then
                      let* target := Dom.hasAttribute node "target" in
                      if target : bool then ret ()
                      else Dom.setAttribute node "target" "_top"
                    else ret ()
                  else ret ()) d1
                 = (Ok (), alter (Dom.with_attributes
                                    (with_default_target tag)) node d1)).
  { unfold with_default_target.
    set (m := Dom.with_attributes (changed tag attr value) n) in *.
    set (bh := bool_decide (is_Some (obj_get "href" (Dom.attributes m)))).
    set (bt := bool_decide (is_Some (obj_get "target" (Dom.attributes m)))).
    assert (Hh : Dom.hasAttribute node "href" d1 = (Ok bh, d1)).
    { unfold Dom.hasAttribute. rewrite Hn1. subst m.
      by rewrite nodeType_with_attributes, Hel. }
    assert (Ht : Dom.hasAttribute node "target" d1 = (Ok bt, d1)).
    { unfold Dom.hasAttribute. rewrite Hn1. subst m.
      by rewrite nodeType_with_attributes, Hel. }
    assert (Hs : Dom.setAttribute node "target" "_top" d1
                 = (Ok (), alter (Dom.with_attributes
                                    (obj_set "target" "_top")) node d1)).
    { unfold Dom.setAttribute. rewrite Hn1. subst m.
      by rewrite nodeType_with_attributes, Hel. }
    assert (Hrhs : ∀ F G : Obj string → Obj string,
              F (Dom.attributes m) = G (Dom.attributes m) →
              alter (Dom.with_attributes F) node d1
              = alter (Dom.with_attributes G) node d1).
    { intros F G HFG. apply list_alter_ext; [|done]. intros x Hx.
      rewrite Hn1 in Hx. injection Hx as <-.
      subst m. unfold Dom.with_attributes in *. simpl in *. by rewrite HFG. }
    assert (Hid : alter (Dom.with_attributes (λ a, a)) node d1 = d1).
    { apply list_eq. intros i.
      destruct (decide (i = node)) as [->|Hne].
      - by rewrite list_lookup_alter_eq, Hn1.
      - by rewrite list_lookup_alter_ne. }
    destruct (decide (tag = "a")); [|by rewrite Hid].
    rewrite bind_run, Hh.
    destruct bh eqn:Ebh.
    - rewrite bind_run, Ht. destruct bt eqn:Ebt.
      + rewrite (Hrhs _ (λ a, a)); [by rewrite Hid|].
        fold bh bt. by rewrite Ebh, Ebt.
      + rewrite Hs. f_equal. apply Hrhs.
        fold bh bt. by rewrite Ebh, Ebt.
    - rewrite (Hrhs _ (λ a, a)); [by rewrite Hid|].
      fold bh. by rewrite Ebh. }
  rewrite Hfix. unfold ret. f_equal. subst d1.
  rewrite list_alter_alter_eq. apply list_alter_ext; [|done].
  intros x _. by destruct x.
Qed.

(** X18. A change that is not accepted changes nothing: unless
    [mutateAttribute] or [mutateProperty] returns true (the tag is
    allowed, the validator accepts the change and the node can take
    it), the document is as it was. *)
Theorem rejected_change_leaves_document (node : Dom.NodeRef)
    (name : string) (d : Dom.Dom) :
  (∀ value,
     let r := SanitizerImpl.mutateAttribute allowedTags_
                validateAttributeChange rewriteAttributeValue
                node name value d in
     r.1 ≠ Ok true → r.2 = d)
  ∧ (∀ value,
       let r := SanitizerImpl.mutateProperty validateAttributeChange
                  node name value d in
       r.1 ≠ Ok true → r.2 = d).
Proof.
  split; intros value r Hr; subst r.
  - destruct (d !! node) as [n|] eqn:Hn.
    + rewrite (mutateAttribute_run _ _ _ _ _ Hn) in *.
      repeat case_match; simpl in *; done.
    + unfold SanitizerImpl.mutateAttribute in *. by rewrite Hn in *.
  - unfold SanitizerImpl.mutateProperty, Dom.set_property, Dom.update,
      bind, ret in *.
    repeat case_match; simplify_eq/=; done.
Qed.


End SanitizerMutateMore.

(** *** Hydration binds by position *)

Section HydrateByPosition.
Import Renderer.
Context {platform : Platform}.

#[local] Existing Instance only_ids_differ_preorder.

(** The skeleton at the end of a path of child indices, and the node
    of the document at the end of the same path. *)
Fixpoint skeleton_at (s : Skeleton.t) (p : list nat) : option Skeleton.t :=
  match p with
  | [] => Some s
  | i :: p' => Skeleton.childNodes s !! i ≫= λ c, skeleton_at c p'
  end.

Definition child_at (d : Dom.Dom) (r : Dom.NodeRef) (i : nat)
    : option Dom.NodeRef :=
  d !! r ≫= λ n, Dom.childNodes n !! i.

Fixpoint node_at (d : Dom.Dom) (r : Dom.NodeRef) (p : list nat)
    : option Dom.NodeRef :=
  match p with
  | [] => Some r
  | i :: p' => child_at d r i ≫= λ c, node_at d c p'
  end.

(** All the skeletons of a tree (those below text skeletons
    included: [hydrate] does not look at node types). *)
Fixpoint skeletons (s : Skeleton.t) : list Skeleton.t :=
  match s with
  | Skeleton.mk _ _ _ _ _ childNodes _ _ => s :: flat_map skeletons childNodes
  end.

Definition ids (s : Skeleton.t) : list string :=
  Skeleton.__id <$> skeletons s.

(** The loop of [hydrate] over the child skeletons, from index [i]. *)
Definition hydrate_children (r : Dom.NodeRef)
    : nat → list Skeleton.t → M () :=
  fix children (i : nat) (cs : list Skeleton.t) : M () :=
    match cs with
    | [] => ret ()
    | c :: cs' =>
        (λ st, hydrate (heap st !! r ≫= λ n, Dom.childNodes n !! i) c st) ;;
        children (S i) cs'
    end.

Lemma hydrate_unfold (node : option Dom.NodeRef) (s : Skeleton.t) :
  hydrate node s
  = match node with
    | None => throw TypeError
    | Some r =>
        bindNodeToSkeletonId node (Skeleton.__id s) ;;
        hydrate_children r 0 (Skeleton.childNodes s)
    end.
Proof. by destruct s, node. Qed.

Lemma hydrate_children_cons r i c cs st :
  hydrate_children r i (c :: cs) st
  = match hydrate (child_at (heap st) r i) c st with
    | (Ok _, st1) => hydrate_children r (S i) cs st1
    | (Throw e, st1) => (Throw e, st1)
    end.
Proof. reflexivity. Qed.

Lemma child_at_without_ids d d' r i :
  without_ids d' = without_ids d → child_at d' r i = child_at d r i.
Proof.
  intros H. unfold child_at.
  apply (f_equal (λ l, l !! r)) in H. unfold without_ids in H.
  rewrite !list_lookup_fmap in H.
  destruct (d' !! r) as [n'|], (d !! r) as [n|]; simplify_eq/=; try done.
  by destruct n, n'; simplify_eq/=.
Qed.

Lemma node_at_without_ids d d' r p :
  without_ids d' = without_ids d → node_at d' r p = node_at d r p.
Proof.
  intros H. revert r. induction p as [|i p IH]; intros r; [done|].
  simpl. rewrite (child_at_without_ids _ _ _ _ H).
  destruct (child_at d r i); simpl; [apply IH|done].
Qed.

Lemma without_ids_length d d' :
  without_ids d' = without_ids d → length d' = length d.
Proof.
  intros H. apply (f_equal length) in H. unfold without_ids in H.
  by rewrite !length_fmap in H.
Qed.

(** The rendered tree has a node wherever the skeleton tree has a
    skeleton. *)
Definition covers (d : Dom.Dom) (r : Dom.NodeRef) (s : Skeleton.t) : Prop :=
  ∀ p x, skeleton_at s p = Some x →
         ∃ n, node_at d r p = Some n ∧ n < length d.

Lemma covers_child d r s i c cn :
  covers d r s → Skeleton.childNodes s !! i = Some c →
  child_at d r i = Some cn → covers d cn c.
Proof.
  intros Hc Hi Hcn p x Hx. destruct (Hc (i :: p) x) as (n & Hn & Hlt).
  { simpl. by rewrite Hi. }
  simpl in Hn. rewrite Hcn in Hn. by eauto.
Qed.

Lemma covers_child_exists d r s i c :
  covers d r s → Skeleton.childNodes s !! i = Some c →
  is_Some (child_at d r i).
Proof.
  intros Hc Hi. destruct (Hc [i] c) as (n & Hn & _).
  { simpl. by rewrite Hi. }
  simpl in Hn. destruct (child_at d r i); by eauto.
Qed.

Lemma bindNodeToSkeletonId_run (r : Dom.NodeRef) (id : string) (st : State) :
  bindNodeToSkeletonId (Some r) id st
  = if decide (r < length (heap st))
    then (Ok (), with_NODES (<[id := r]> (NODES st))
                   (with_heap (alter (Dom.with___id (Some id)) r (heap st))
                      st))
    else (Throw TypeError, st).
Proof.
  unfold bindNodeToSkeletonId, bind, dom, Dom.set___id, Dom.update.
  case_decide as Hlt.
  - by destruct (lookup_lt_is_Some_2 _ _ Hlt) as [n ->].
  - rewrite lookup_ge_None_2 by lia. by destruct st.
Qed.

(** [hydrate] raises nothing but TypeErrors. *)
Lemma hydrate_throws skeleton :
  ∀ node st e st', hydrate node skeleton st = (Throw e, st') → e = TypeError.
Proof.
  induction skeleton as [nt nn cls sty ats cs d id IH] using Skeleton_tree_ind.
  intros node st e st'. rewrite hydrate_unfold.
  destruct node as [r|]; [|by intros [= <- _]].
  rewrite bind_run, bindNodeToSkeletonId_run.
  case_decide; [|by intros [= <- _]].
  simpl. generalize 0 as i.
  match goal with |- ∀ i, hydrate_children r i cs ?s = _ → _ =>
    generalize s end.
  induction IH as [|c cs Hc _ IHcs]; intros s i; [by intros [=]|].
  rewrite hydrate_children_cons.
  destruct (hydrate _ c s) as [[[]|e1] s1] eqn:Hh.
  - apply IHcs.
  - intros [= <- _]. by eapply Hc.
Qed.

(** [hydrate] returns normally exactly when the rendered tree covers
    the skeleton tree. *)
Lemma hydrate_Ok_iff skeleton :
  ∀ r st, (hydrate (Some r) skeleton st).1 = Ok ()
          ↔ covers (heap st) r skeleton.
Proof.
  induction skeleton as [nt nn cls sty ats cs d id IH] using Skeleton_tree_ind.
  intros r st. rewrite hydrate_unfold, bind_run, bindNodeToSkeletonId_run.
  set (s := Skeleton.mk nt nn cls sty ats cs d id).
  case_decide as Hlt; simpl.
  2: { split; [done|]. intros Hc. destruct (Hc [] s eq_refl) as (n & Hn & ?).
       simpl in Hn. simplify_eq. lia. }
  match goal with |- (hydrate_children r 0 cs ?s1).1 = _ ↔ _ =>
    assert (Hs1 : without_ids (heap s1) = without_ids (heap st))
      by apply without_ids_set;
    generalize dependent s1 end.
  intros s1 Hs1.
  assert (Hloop : ∀ i s2, without_ids (heap s2) = without_ids (heap st) →
    (hydrate_children r i cs s2).1 = Ok ()
    ↔ ∀ j c, cs !! j = Some c →
        ∃ cn, child_at (heap st) r (i + j) = Some cn
              ∧ covers (heap st) cn c).
  { clear s1 Hs1. induction IH as [|c cs Hc _ IHcs]; intros i s2 Hs2.
    { simpl. split; [|done]. intros _ j c Hj. by destruct j. }
    rewrite hydrate_children_cons.
    rewrite (child_at_without_ids _ _ _ _ Hs2).
    assert (Hcov : ∀ cn, covers (heap s2) cn c ↔ covers (heap st) cn c).
    { intros cn. unfold covers.
      setoid_rewrite (node_at_without_ids _ _ _ _ Hs2).
      by rewrite (without_ids_length _ _ Hs2). }
    destruct (child_at (heap st) r i) as [cn|] eqn:Hcn.
    - pose proof (Hc cn s2) as Hiff. rewrite Hcov in Hiff.
      pose proof (hydrate_only_ids c (Some cn) s2) as (Hd & _).
      destruct (hydrate (Some cn) c s2) as [[[]|e] s3]; simpl in *.
      + rewrite IHcs by congruence. split.
        * intros Hall [|j] c' Hj; simpl in Hj.
          -- simplify_eq. rewrite Nat.add_0_r. exists cn.
             split; [done|]. by apply Hiff.
          -- replace (i + S j) with (S i + j) by lia. by apply Hall.
        * intros Hall j c' Hj.
          replace (S i + j) with (i + S j) by lia. by apply (Hall (S j)).
      + split; [done|]. intros Hall.
        destruct (Hall 0 c eq_refl) as (cn' & Hcn' & Hcov').
        rewrite Nat.add_0_r, Hcn in Hcn'. simplify_eq.
        by apply Hiff in Hcov'.
    - rewrite hydrate_unfold. simpl. split; [done|]. intros Hall.
      destruct (Hall 0 c eq_refl) as (cn' & Hcn' & _).
      rewrite Nat.add_0_r, Hcn in Hcn'. done. }
  rewrite (Hloop 0 s1 Hs1). split.
  - intros Hall [|j p] x Hx; simpl in Hx.
    + simplify_eq. exists r. by split.
    + destruct (cs !! j) as [c|] eqn:Hj; simplify_eq/=.
      destruct (Hall j c Hj) as (cn & Hcn & Hcov).
      destruct (Hcov p x Hx) as (n & Hn & Hltn).
      exists n. by rewrite Hcn.
  - intros Hc j c Hj. simpl.
    destruct (covers_child_exists _ _ s _ _ Hc Hj) as [cn Hcn].
    exists cn. split; [done|]. by eapply (covers_child _ _ s).
Qed.


Lemma skeletons_eq (s : Skeleton.t) :
  skeletons s = s :: flat_map skeletons (Skeleton.childNodes s).
Proof. by destruct s. Qed.

Lemma skeleton_at_in (s : Skeleton.t) :
  ∀ p x, skeleton_at s p = Some x → x ∈ skeletons s.
Proof.
  induction s as [nt nn cls sty ats cs d id IH] using Skeleton_tree_ind.
  intros [|j p] x Hx; simpl in Hx.
  - simplify_eq. apply list_elem_of_here.
  - destruct (cs !! j) as [c|] eqn:Hj; simplify_eq/=.
    apply list_elem_of_further, list_elem_of_In, in_flat_map.
    exists c. rewrite <- !list_elem_of_In. split.
    + by eapply list_elem_of_lookup_2.
    + rewrite Forall_forall in IH. eapply IH; [|done].
      by eapply list_elem_of_lookup_2.
Qed.

(** Ids outside the skeleton tree keep their binding. *)
Lemma hydrate_NODES_other skeleton :
  ∀ node st id', id' ∉ ids skeleton →
    NODES (hydrate node skeleton st).2 !! id' = NODES st !! id'.
Proof.
  induction skeleton as [nt nn cls sty ats cs d id IH] using Skeleton_tree_ind.
  intros node st id' Hid. rewrite hydrate_unfold.
  destruct node as [r|]; [|done].
  unfold ids in Hid. rewrite skeletons_eq, fmap_cons in Hid.
  apply not_elem_of_cons in Hid as [Hne Hid]. simpl in Hne, Hid.
  rewrite bind_run, bindNodeToSkeletonId_run.
  case_decide; [|done]. simpl.
  match goal with |- NODES (hydrate_children r 0 cs ?s).2 !! _ = _ =>
    assert (Hs : NODES s !! id' = NODES st !! id')
      by (simpl; by rewrite lookup_insert_ne);
    rewrite <- Hs; generalize s end.
  clear Hs. generalize 0 as i.
  induction IH as [|c cs Hc _ IHcs]; intros i s; [done|].
  simpl in Hid. rewrite fmap_app in Hid.
  apply not_elem_of_app in Hid as [Hidc Hidcs].
  rewrite hydrate_children_cons.
  specialize (Hc (child_at (heap s) r i) s id' Hidc).
  destruct (hydrate _ c s) as [[[]|e] s1]; simpl in *; [|done].
  by rewrite IHcs.
Qed.

Lemma hydrate_children_NODES_other r cs :
  ∀ i st id', id' ∉ Skeleton.__id <$> flat_map skeletons cs →
    NODES (hydrate_children r i cs st).2 !! id' = NODES st !! id'.
Proof.
  induction cs as [|c cs IH]; intros i st id' Hid; [done|].
  simpl in Hid. rewrite fmap_app in Hid.
  apply not_elem_of_app in Hid as [Hidc Hidcs].
  rewrite hydrate_children_cons.
  pose proof (hydrate_NODES_other c (child_at (heap st) r i) st id' Hidc) as Hc.
  destruct (hydrate _ c st) as [[[]|e] s1]; simpl in *; [|done].
  by rewrite IH.
Qed.

(** After a hydration that returns, the id of the skeleton at each
    position is bound to the node at that position. *)
Lemma hydrate_binds skeleton :
  ∀ r st st', hydrate (Some r) skeleton st = (Ok (), st') →
    NoDup (ids skeleton) →
    ∀ p x n, skeleton_at skeleton p = Some x →
             node_at (heap st) r p = Some n →
             NODES st' !! Skeleton.__id x = Some n.
Proof.
  induction skeleton as [nt nn cls sty ats cs d id IH] using Skeleton_tree_ind.
  intros r st st' Hrun Hnd. rewrite hydrate_unfold in Hrun.
  rewrite bind_run, bindNodeToSkeletonId_run in Hrun.
  case_decide; [|done]. simpl in Hrun.
  unfold ids in Hnd. rewrite skeletons_eq, fmap_cons in Hnd.
  apply NoDup_cons in Hnd as [Hid Hnd]. simpl in Hid, Hnd.
  match type of Hrun with hydrate_children r 0 cs ?s = _ =>
    assert (Hs1 : without_ids (heap s) = without_ids (heap st))
      by apply without_ids_set;
    assert (Hroot : NODES s !! id = Some r)
      by (simpl; by rewrite lookup_insert_eq);
    generalize dependent s end.
  intros s1 Hrun Hs1 Hroot.
  assert (Hloop : ∀ i s2 s3,
    without_ids (heap s2) = without_ids (heap st) →
    hydrate_children r i cs s2 = (Ok (), s3) →
    ∀ j c cn p x n, cs !! j = Some c →
      child_at (heap st) r (i + j) = Some cn →
      skeleton_at c p = Some x → node_at (heap st) cn p = Some n →
      NODES s3 !! Skeleton.__id x = Some n).
  { clear s1 Hrun Hs1 Hroot Hid.
    induction IH as [|c cs Hc _ IHcs]; intros i s2 s3 Hs2 Hrun j c' cn p x n Hj.
    { by destruct j. }
    simpl in Hnd. rewrite fmap_app in Hnd.
    apply NoDup_app in Hnd as (Hndc & Hdisj & Hndcs).
    rewrite hydrate_children_cons in Hrun.
    rewrite (child_at_without_ids _ _ _ _ Hs2) in Hrun.
    destruct (child_at (heap st) r i) as [ci|] eqn:Hci;
      [|by rewrite hydrate_unfold in Hrun].
    pose proof (hydrate_only_ids c (Some ci) s2) as (Hd & _).
    destruct (hydrate (Some ci) c s2) as [[[]|e] s4] eqn:Hh; [|done].
    simpl in Hd.
    destruct j as [|j]; simpl in Hj.
    - simplify_eq. rewrite Nat.add_0_r, Hci. intros [= <-] Hx Hn.
      replace s3 with (hydrate_children r (S i) cs s4).2 by by rewrite Hrun.
      rewrite hydrate_children_NODES_other.
      + eapply (Hc ci s2 s4 Hh Hndc p x n); [done|].
        by rewrite (node_at_without_ids _ _ _ _ Hs2).
      + apply Hdisj, list_elem_of_fmap. exists x. split; [done|].
        by eapply skeleton_at_in.
    - replace (i + S j) with (S i + j) by lia.
      eapply (IHcs Hndcs (S i) s4 s3); [congruence|done|done]. }
  intros [|j p] x n Hx Hn; simpl in Hx, Hn.
  - injection Hx as <-. injection Hn as <-.
    replace st' with (hydrate_children r 0 cs s1).2 by by rewrite Hrun.
    by rewrite hydrate_children_NODES_other.
  - destruct (cs !! j) as [c|] eqn:Hj; simplify_eq/=.
    destruct (child_at (heap st) r j) as [cn|] eqn:Hcn; simplify_eq/=.
    by eapply (Hloop 0 s1 st' Hs1 Hrun j c cn p x n).
Qed.

(** X20. Hydration is by position. [hydrate(node, skeleton)] returns
    normally exactly when the rendered tree under [node] has a node at
    every position (path of child indices) at which the skeleton tree
    has a skeleton; node types, names and further children of the
    rendered tree play no part. Otherwise it raises a TypeError. When it
    returns and the ids of the skeleton tree are pairwise different,
    the id of the skeleton at each position is bound to the rendered
    node at the same position. *)
Theorem hydrate_binds_by_position (r : Dom.NodeRef) (skeleton : Skeleton.t)
    (st : State) :
  let res := hydrate (Some r) skeleton st in
  (res.1 = Ok () ↔ covers (heap st) r skeleton)
  ∧ (∀ e, res.1 = Throw e → e = TypeError)
  ∧ (res.1 = Ok () → NoDup (ids skeleton) →
     ∀ p x n, skeleton_at skeleton p = Some x →
              node_at (heap st) r p = Some n →
              NODES res.2 !! Skeleton.__id x = Some n).
Proof.
  intros res. split; [apply hydrate_Ok_iff|]. split.
  - intros e He. subst res.
    destruct (hydrate (Some r) skeleton st) as [res1 st'] eqn:Hrun.
    simpl in He. subst res1. by eapply hydrate_throws.
  - intros Hok Hnd p x n Hx Hn. subst res.
    destruct (hydrate (Some r) skeleton st) as [res1 st'] eqn:Hrun.
    simpl in Hok. subst res1. by eapply hydrate_binds.
Qed.

End HydrateByPosition.

(** *** What [createNode] builds *)

Section MaterializerBuilds.
Import Renderer.
Context {platform : Platform}.


















Lemma with_heap_same (st : State) : with_heap (heap st) st = st.
Proof. by destruct st. Qed.


















End MaterializerBuilds.

(** ** amp-list.js: how many items are rendered *)

Section ListItemsMore.
Import AmpList.
Context {Item : Type}.

(** X22. The items that [fetchList_] hands to the renderer. The fetch is
    rejected with a user error exactly when the response holds nothing
    at the items expression under [single-item], or something that is
    not an array without [single-item] (under [single-item] such a
    value is wrapped into a one-element list). Otherwise what is
    rendered is a prefix of the fetched items: all of them when
    [max-items] is absent or not a number, the first [max-items] when it
    is a non-negative number, and, the number being passed to [slice] as
    it is, all but the last [-max-items] when it is negative. *)
Theorem fetched_items_are_a_prefix (single_item : bool) (maxLen : option Z)
    (fetched : Fetched Item) :
  let all := match fetched with
             | Array _ l => Some l
             | NotArray _ v => if single_item then Some [v] else None
             | Undefined _ => None
             end in
  match all with
  | None => fetched_items Item single_item maxLen fetched = UserError Item
  | Some l =>
      ∃ shown,
        fetched_items Item single_item maxLen fetched = Items Item shown
        ∧ shown `prefix_of` l
        ∧ length shown
          = match maxLen with
            | None => length l
            | Some m =>
                if (m <? 0)%Z then Z.to_nat (Z.of_nat (length l) + m)
                else Nat.min (Z.to_nat m) (length l)
            end
  end.
Proof.
  assert (Hl : ∀ l : list Item,
    let shown := match maxLen with
                 | Some m => if (m <? Z.of_nat (length l))%Z
                             then slice0 Item m l else l
                 | None => l
                 end in
    shown `prefix_of` l
    ∧ length shown
      = match maxLen with
        | None => length l
        | Some m =>
            if (m <? 0)%Z then Z.to_nat (Z.of_nat (length l) + m)
            else Nat.min (Z.to_nat m) (length l)
        end).
  { intros l. destruct maxLen as [m|]; simpl; [|done].
    unfold slice0.
    destruct (m <? Z.of_nat (length l))%Z eqn:Hm;
      destruct (m <? 0)%Z eqn:Hneg;
      try apply Z.ltb_lt in Hm; try apply Z.ltb_ge in Hm;
      try apply Z.ltb_lt in Hneg; try apply Z.ltb_ge in Hneg.
    - split; [apply prefix_take|]. rewrite length_take. lia.
    - split; [apply prefix_take|]. rewrite length_take. lia.
    - lia.
    - split; [done|]. lia. }
  destruct fetched as [|l|v]; simpl.
  - by destruct single_item.
  - destruct (Hl l) as [Hp Hlen]. eexists. split; [|done].
    by destruct single_item.
  - destruct single_item; [|done].
    destruct (Hl [v]) as [Hp Hlen]. eexists. by split.
Qed.

End ListItemsMore.

(** ** From the worker's message to the document *)

Section RoundTrip.
Import Renderer.
Context {platform : Platform}.

(** The visibility test reads the document and the window-size cache
    and writes the cache only. *)
Lemma isElementInViewport_reads (el : Dom.NodeRef) (s s' : State) :
  heap s' = heap s → windowSizeCache s' = windowSizeCache s →
  (isElementInViewport el s').1 = (isElementInViewport el s).1.
Proof.
  intros Hh Hc. unfold isElementInViewport. rewrite Hh, Hc.
  repeat (case_match; simplify_eq/=; try done).
Qed.

Lemma isElementInViewport_writes (el : Dom.NodeRef) (s : State) :
  let s' := (isElementInViewport el s).2 in
  heap s' = heap s ∧ NODES s' = NODES s ∧ sanitized s' = sanitized s
  ∧ MUTATION_QUEUE s' = MUTATION_QUEUE s
  ∧ timeOfLastUserGesture s' = timeOfLastUserGesture s
  ∧ mutationTimer s' = mutationTimer s ∧ scheduler s' = scheduler s.
Proof.
  unfold isElementInViewport.
  repeat (case_match; simplify_eq/=; try done).
Qed.

(** X23. The way of a text change, from the message to the document. A
    characterData record for a bound text node that passes the
    visibility test, received after the initial render into an empty
    queue, is enqueued by the message and applied by the next pass that
    has time for it (unless its latency exceeds the threshold): the
    pass returns normally, the text node has the record's value, no
    other node has changed, and the queue is empty again. (The latency
    figure that a page with a [#metrics] element displays is not
    modelled.) *)
Theorem text_change_is_applied (now : Z) (m : MutationRecord) (st : State)
    (deadline : option (nat → Q)) (clock : nat → Z)
    (t : Dom.NodeRef) (n : Dom.DomNode)
    (Hmode : initialRender st = false ∨ aotRoot = None)
    (Hempty : MUTATION_QUEUE st = [])
    (Htype : type m = "characterData")
    (Htarget : getNode (target m) st = Some t)
    (Hnode : heap st !! t = Some n)
    (Htext : Dom.nodeType n = Dom.TEXT_NODE)
    (Hvisible : (isElementInViewport t st).1 = Ok true)
    (Hlatency : held (timeOfLastUserGesture st) (with_timestamp now m)
                = false)
    (Htime : out_of_time deadline clock 0 = false) :
  let received := (onmessage_mutate now [m] st).2 in
  let r := processMutations deadline clock received in
  MUTATION_QUEUE received = [with_timestamp now m]
  ∧ r.1 = Ok ()
  ∧ MUTATION_QUEUE r.2 = []
  ∧ heap r.2 = alter (Dom.with_nodeValue (Some (value m))) t (heap st)
  ∧ NODES r.2 = NODES st
  ∧ sanitized r.2 = sanitized st.
Proof.
  intros received r.
  set (m' := with_timestamp now m).
  assert (Hrec : MUTATION_QUEUE received = [m']
                 ∧ heap received = heap st ∧ NODES received = NODES st
                 ∧ sanitized received = sanitized st
                 ∧ timeOfLastUserGesture received = timeOfLastUserGesture st
                 ∧ windowSizeCache received = windowSizeCache st).
  { subst received. unfold onmessage_mutate.
    rewrite bind_run, forM__cons, bind_run.
    assert (Hg : initialRender st && bool_decide (is_Some aotRoot) = false).
    { destruct Hmode as [-> | ->]; [done|].
      rewrite bool_decide_eq_false_2 by (by intros [? ?]).
      apply andb_false_r. }
    rewrite Hg.
    destruct (enqueueMutation_run m' st) as (Hr & Hq & Hh & Hn & Hs & _ & Hc & _).
    assert (Hw : windowSizeCache (enqueueMutation m' st).2
                 = windowSizeCache st).
    { unfold enqueueMutation, processMutationsSoon, bind, clearTimeout,
        setTimeout, requestIdleCallback, ret. simpl.
      by destruct (mutationTimer st). }
    fold m'. destruct (enqueueMutation m' st) as [[[]|e] s1]; simpl in *;
      [|done].
    by rewrite Hq, Hempty. }
  destruct Hrec as (Hq & Hh & Hn & Hs & Hc & Hw).
  split; [done|].
  assert (Htype' : type m' = "characterData") by done.
  assert (Htarget' : target m' = target m) by done.
  assert (Hvalue' : value m' = value m) by done.
  destruct (timer_cleared_fields received)
    as (Hh1 & Hn1 & Hs1 & Hq1 & Hc1 & _ & Hw1 & _).
  set (s0 := timer_cleared received) in *.
  assert (Hoff : ∃ s1, offscreen m' s0 = (Ok false, s1)
                       ∧ heap s1 = heap st ∧ NODES s1 = NODES st
                       ∧ sanitized s1 = sanitized st).
  { unfold offscreen. rewrite Htype'. simpl.
    rewrite (getNode_NODES _ st s0) by congruence.
    rewrite ?Htarget', Htarget, bind_run.
    assert (Hread : (isElementInViewport t s0).1 = Ok true).
    { rewrite (isElementInViewport_reads t st s0) by congruence. done. }
    destruct (isElementInViewport_writes t s0) as (Hh2 & Hn2 & Hs2 & _).
    destruct (isElementInViewport t s0) as [[b|e] s1]; simpl in *;
      simplify_eq.
    eexists. split; [done|]. repeat split; congruence. }
  destruct Hoff as (s1 & Hoff & Hh2 & Hn2 & Hs2).
  assert (Hrun : r = (Ok (),
                      with_heap (alter (Dom.with_nodeValue (Some (value m)))
                                   t (heap st))
                        (with_MUTATION_QUEUE [] s1))).
  { subst r. rewrite processMutations_run, Hq. fold s0.
    rewrite drain_cons, Htime, Hc1, Hc. unfold held in Hlatency.
    fold m' in Hlatency. rewrite Hlatency, Hoff. simpl app.
    rewrite MUTATIONS_characterData_run by done.
    unfold MUTATIONS_characterData.
    rewrite (getNode_NODES _ st) by (simpl; congruence).
    rewrite ?Htarget', Htarget, ?Hvalue'. simpl. rewrite dom_run. simpl.
    unfold Dom.set_nodeValue. rewrite Hh2, Hnode, Htext. simpl. done. }
  rewrite Hrun. simpl. by repeat split.
Qed.

End RoundTrip.

Lemma text_change_is_applied_witness :
  let received := (Renderer.onmessage_mutate (platform := lenient_platform)
                     7 [text_change "t1" "a"] hydrated_state).2 in
  let r := Renderer.processMutations (platform := lenient_platform)
             None frozen received in
  r.1 = Ok ()
  ∧ Renderer.MUTATION_QUEUE r.2 = []
  ∧ Dom.nodeValue <$> Renderer.heap r.2 !! 4 = Some (Some "a").
Proof.
  intros received r.
  destruct (text_change_is_applied (platform := lenient_platform) 7
              (text_change "t1" "a") hydrated_state None frozen 4
              (text_node "hello")
              (or_intror eq_refl) eq_refl eq_refl eq_refl eq_refl eq_refl
              eq_refl eq_refl eq_refl) as (_ & Hr & Hq & Hh & _).
  split; [exact Hr|]. split; [exact Hq|].
  fold received r in Hh. rewrite Hh. reflexivity.
Defined.

(** ** Instances *)

Section MoreExamples.
Import Renderer.

(** A child-list record that removes [child] from [parent]. *)
Definition remove_child (parent child : string) : MutationRecord :=
  {| type := "childList"; target := Id parent;
     removedNodes := Some [Id child]; addedNodes := None;
     previousSibling := Falsy; nextSibling := Falsy; attributeName := "";
     propertyName := ""; value := ""; oldValue := None; timestamp := 0 |}.

(** The hydrated session after a message that removes the SPAN "x"
    from "p1", and after the idle callback that applies it. *)
Definition removal_queued : State :=
  (onmessage_mutate (platform := lenient_platform) 1
     [remove_child "p1" "x"] hydrated_state).2.
Definition removal_applied : State :=
  (fire_idle (platform := lenient_platform) 1 (λ _, 50%Q) frozen
     removal_queued).2.

(** A page rendered ahead of time: the root (node 0, which carries
    [amp-aot]) holds a paragraph with a text. *)
Definition aot_platform : Platform :=
  {| root := 0; flags := Flags;
     DOMPurify_sanitize := λ _, ret ();
     global_i := None; aotRoot := Some 0;
     getBoundingClientRect := λ _ _,
       {| top := 0; bottom := 10; left := 0; right := 10 |};
     window_innerHeight := 600; window_innerWidth := 800 |}.
Definition aot_state : State :=
  init 0 "/" [element "DIV" [1]; element "P" [2]; text_node "hello"].

(** The worker's tree for that page. *)
Definition aot_skeleton : Skeleton.t :=
  Skeleton.mk Dom.ELEMENT_NODE "div" "" [] []
    [Skeleton.mk Dom.ELEMENT_NODE "p" "" [] []
       [text_skeleton "hello" "t"] "" "p"]
    "" "r".

(** A session in which the text node "t" (node 1) is bound but
    attached nowhere, with two text changes queued. *)
Definition detached_state : State :=
  with_MUTATION_QUEUE [text_change "t" "a"; text_change "u" "b"]
    (with_NODES (list_to_map [("t", 1); ("u", 2)])
       (init 0 "/" [element "DIV" [2]; text_node "old"; text_node "other"])).

(** The lenient platform in a window of another size. *)
Definition resized_platform : Platform :=
  {| root := 0; flags := Flags;
     DOMPurify_sanitize := @DOMPurify_sanitize lenient_platform;
     global_i := None; aotRoot := None;
     getBoundingClientRect := @getBoundingClientRect lenient_platform;
     window_innerHeight := 20; window_innerWidth := 30 |}.

(** An idle deadline with no time left. *)
Definition no_time : nat → Q := λ _, 0%Q.

(** An element with three children, the second of which (node 2) is
    the iframe. *)
Definition framed : Dom.Dom :=
  [element "AMP-SCRIPT" [1; 2; 3]; element "P" []; element "IFRAME" [];
   element "P" []].


End MoreExamples.

Lemma listened_events_posted_once_witness :
  let st := Renderer.init 0 "/" [] in
  let st' := proxy_all [(1%Z, click_event 0 0)] st in
  Renderer.touchStart st' = None
  ∧ (Renderer.proxyEvent 2 (click_event 3 4) st').1 = Ok None.
Proof.
  intros st st'.
  assert (Hl : ∀ x y, listened (click_event x y)).
  { intros x y. unfold listened. simpl.
    apply list_elem_of_further, list_elem_of_here. }
  destruct (listened_events_posted_once [(1%Z, click_event 0 0)] st)
    as [Hts Hpost].
  - apply Forall_cons. split; [apply Hl|apply Forall_nil_2].
  - reflexivity.
  - split; [exact Hts|].
    destruct (Hpost 2%Z (click_event 3 4) (Hl _ _)) as [[Hr _]|[Hr _]];
      [exact Hr|]. vm_compute in Hr. discriminate Hr.
Defined.

Lemma bind_then_getNode_witness :
  let res := Renderer.bindNodeToSkeletonId (Some 3) "y" hydrated_state in
  3 < length (Renderer.heap hydrated_state)
  ∧ Renderer.getNode (platform := lenient_platform) (Renderer.Id "y") res.2
    = Some 3
  ∧ Renderer.getNode (platform := lenient_platform)
      (Renderer.Serialized "BODY" "y") res.2 = Some 0.
Proof.
  intros res.
  assert (Hlt : 3 < length (Renderer.heap hydrated_state)) by (simpl; lia).
  destruct (bind_then_getNode (platform := lenient_platform) 3 "y"
              hydrated_state Hlt) as (_ & Hid & _ & Hser & _).
  split; [exact Hlt|]. split; [by apply Hid|]. exact (Hser "BODY").
Defined.

Lemma identity_map_never_forgets_witness :
  rtc (step (platform := lenient_platform)) hydrated_state removal_applied
  ∧ Dom.parentNode 3 (Renderer.heap removal_applied) = None
  ∧ is_Some (Renderer.NODES removal_applied !! "x")
  ∧ is_Some (Renderer.getNode (platform := lenient_platform)
               (Renderer.Id "x") removal_applied).
Proof.
  assert (Hreach : rtc (step (platform := lenient_platform))
                     hydrated_state removal_applied).
  { eapply rtc_l; [apply step_message|].
    apply rtc_once. apply step_idle. vm_compute.
    apply list_elem_of_here. }
  assert (Hbound : is_Some (Renderer.NODES hydrated_state !! "x"))
    by (vm_compute; eauto).
  destruct (identity_map_never_forgets (platform := lenient_platform)
              hydrated_state removal_applied "x" Hreach Hbound) as [H1 H2].
  split; [exact Hreach|]. split; [by vm_compute|].
  split; [exact H1|]. by apply H2.
Defined.

Lemma createNode_returns_only_for_text_and_elements_witness :
  ∃ st', Renderer.createNode (platform := lenient_platform)
           script_skeleton false example_state = (Ok 2, st')
  ∧ materializable (platform := lenient_platform) (text_skeleton "x()" "t").
Proof.
  eexists. split.
  - vm_compute. reflexivity.
  - refine (createNode_returns_only_for_text_and_elements
              (platform := lenient_platform) script_skeleton false
              example_state _ 2 _ (text_skeleton "x()" "t") _).
    + vm_compute. reflexivity.
    + vm_compute. apply list_elem_of_further, list_elem_of_here.
Defined.

Lemma onmessage_enqueues_in_order_witness :
  let r := Renderer.onmessage_mutate (platform := lenient_platform) 7
             [text_change "t1" "a"; text_change "t2" "b"] hydrated_state in
  r.1 = Ok ()
  ∧ Renderer.timestamp <$> Renderer.MUTATION_QUEUE r.2 = [7%Z; 7%Z]
  ∧ Renderer.heap r.2 = Renderer.heap hydrated_state.
Proof.
  intros r.
  destruct (onmessage_enqueues_in_order (platform := lenient_platform) 7
              [text_change "t1" "a"; text_change "t2" "b"] hydrated_state
              (or_intror eq_refl)) as (Hr & Hq & Hh & _).
  split; [exact Hr|]. split; [|exact Hh].
  fold r in Hq. rewrite Hq. reflexivity.
Defined.

Lemma first_message_only_hydrates_witness :
  let r := Renderer.onmessage_mutate (platform := aot_platform) 7
             [add_child "ignored" aot_skeleton] aot_state in
  r.1 = Ok ()
  ∧ Renderer.MUTATION_QUEUE r.2 = []
  ∧ Renderer.initialRender r.2 = false
  ∧ Renderer.NODES r.2 !! "t" = Some 2.
Proof.
  intros r.
  destruct (first_message_only_hydrates (platform := aot_platform) 7
              [add_child "ignored" aot_skeleton] aot_state 0
              eq_refl eq_refl) as (Hq & _ & _ & _ & Hok & _).
  assert (Hr : r.1 = Ok ()) by (vm_compute; reflexivity).
  split; [exact Hr|]. split; [exact Hq|].
  split; [exact (proj1 (Hok Hr))|]. vm_compute. reflexivity.
Defined.

Lemma pass_out_of_time_applies_nothing_witness :
  let st := queued_state [text_change "t1" "a"] in
  let r := Renderer.processMutations (platform := lenient_platform)
             (Some no_time) frozen st in
  r.1 = Ok ()
  ∧ Renderer.MUTATION_QUEUE r.2 = [text_change "t1" "a"]
  ∧ Renderer.heap r.2 = Renderer.heap st
  ∧ Renderer.mutationTimer r.2 = Some 0.
Proof.
  intros st r.
  destruct (pass_out_of_time_applies_nothing (platform := lenient_platform)
              (Some no_time) frozen st eq_refl)
    as (_ & Hr & Hq & Hh & _ & _ & Hsoon).
  split; [exact Hr|]. split; [exact Hq|]. split; [exact Hh|].
  apply Hsoon. discriminate.
Defined.

Lemma pass_in_time_schedules_nothing_witness :
  let st := queued_state [late_record] in
  let r := Renderer.processMutations (platform := gesture_platform)
             None frozen st in
  Renderer.MUTATION_QUEUE r.2 = [late_record]
  ∧ Renderer.timeouts (Renderer.scheduler r.2) = []
  ∧ Renderer.idleRequests (Renderer.scheduler r.2) = [].
Proof.
  intros st r.
  destruct (pass_in_time_schedules_nothing (platform := gesture_platform)
              None frozen st (λ _, eq_refl)) as (_ & Hidle & Htimer & _).
  split; [by vm_compute|]. split; [apply Htimer; by left|exact Hidle].
Defined.

Lemma detached_text_target_stops_queue_witness :
  let r := Renderer.processMutations (platform := lenient_platform)
             None frozen detached_state in
  r.1 = Throw TypeError
  ∧ Renderer.MUTATION_QUEUE r.2
    = [text_change "t" "a"; text_change "u" "b"]
  ∧ Renderer.processMutations (platform := lenient_platform)
      (Some (λ _, 50%Q)) frozen r.2 = r.
Proof.
  intros r.
  destruct (detached_text_target_stops_queue (platform := lenient_platform)
              None frozen detached_state (text_change "t" "a")
              [text_change "u" "b"] 1 (text_node "old")
              eq_refl (or_introl eq_refl) eq_refl eq_refl eq_refl eq_refl
              eq_refl eq_refl) as (Hr & Hq & _ & Hagain).
  split; [unfold r; by rewrite Hr|]. split; [exact Hq|]. by apply Hagain.
Defined.

Lemma viewport_test_uses_cached_size_witness :
  let st := Renderer.with_windowSizeCache (Some 600%Q, Some 800%Q)
              hydrated_state in
  @Renderer.isElementInViewport resized_platform 3 st = (Ok true, st).
Proof.
  intros st.
  destruct (viewport_test_uses_cached_size lenient_platform resized_platform
              3 st 600 800 eq_refl eq_refl eq_refl eq_refl) as [Heq _].
  rewrite <- Heq. vm_compute. reflexivity.
Defined.

Lemma broken_is_final_witness :
  let rejected := (AmpScript.mutationPump_ (λ _, true) 7
                     AmpScript.Phase.MUTATING C1_element).2 in
  let later := AmpScript.vsync_run
                 (AmpScript.mutationPump_ (λ _, true) 8
                    AmpScript.Phase.HYDRATING rejected).2 in
  "i-amphtml-broken" ∈ AmpScript.classList later
  ∧ AmpScript.flushed later = [8]
  ∧ AmpScript.workerDom_ later = Some {| AmpScript.terminated := true |}.
Proof.
  intros rejected later.
  assert (Hreach : rtc (pump_step (λ _, true)) rejected later).
  { eapply rtc_l; [apply (pump_call _ 8 AmpScript.Phase.HYDRATING)|].
    apply rtc_once. apply pump_vsync. }
  destruct (broken_is_final (λ _, true) rejected later) as [Hb Hw].
  - vm_compute. apply list_elem_of_here.
  - reflexivity.
  - exact Hreach.
  - split; [exact Hb|]. split; [reflexivity|exact Hw].
Defined.

Lemma fit_removes_children_before_iframe_witness :
  ∃ d', AmpScript.removeOriginalChildren 0 2 1 framed = Some (Ok (), d')
        ∧ Dom.childNodes <$> d' !! 0 = Some [2; 3].
Proof.
  assert (Hnd : NoDup [1; 2; 3]).
  { repeat (apply NoDup_cons; split;
      [intros Hin; repeat (apply elem_of_cons in Hin as [Hin|Hin];
         [discriminate Hin|]); by apply elem_of_nil in Hin|]).
    apply NoDup_nil_2. }
  destruct (fit_removes_children_before_iframe 0 2 framed [1; 2; 3]
              eq_refl Hnd) as [Hin _].
  destruct (Hin [1] [3] 1 eq_refl) as (d' & Hrun & Hcs & _).
  - intros Hx. apply list_elem_of_singleton in Hx. discriminate Hx.
  - simpl. lia.
  - exists d'. by split.
Defined.



(** *** A child-list record that adds a new subtree *)

Section ChildListAdds.
Import Renderer.
Context {platform : Platform}.






End ChildListAdds.



(** *** A child-list record that removes nodes *)

Section ChildListRemoves.
Import Renderer.
Context {platform : Platform}.

(** The body of the loop over [removedNodes]. *)
Definition remove_one (p : Dom.NodeRef) (r : NodeOrId) : M () :=
  deref (Some p) (λ p st, dom (Dom.removeChild p (getNode r st)) st).

(** The target [p] without the children [rs]. *)
Definition without_children (p : Dom.NodeRef) (rs : list Dom.NodeRef)
    (st : State) : State :=
  with_heap (alter (Dom.with_childNodes (filter (λ c, c ∉ rs))) p (heap st))
    st.

Lemma with_childNodes_filter (P Q : Dom.NodeRef → Prop)
    `{!∀ c, Decision (P c)} `{!∀ c, Decision (Q c)} (n : Dom.DomNode) :
  (∀ c, P c ↔ Q c) →
  Dom.with_childNodes (filter P) n = Dom.with_childNodes (filter Q) n.
Proof.
  intros HPQ. destruct n. unfold Dom.with_childNodes. simpl. f_equal.
  by apply list_filter_iff.
Qed.

Lemma without_children_nil p st : without_children p [] st = st.
Proof.
  unfold without_children.
  replace (alter _ p (heap st)) with (heap st); [by destruct st|].
  apply list_eq. intros i. destruct (decide (i = p)) as [->|Hne].
  - rewrite list_lookup_alter_eq. destruct (heap st !! p) as [n|]; [|done].
    simpl. f_equal. symmetry. apply with_childNodes_same.
    induction (Dom.childNodes n) as [|c l IH]; [done|].
    rewrite filter_cons_True by apply not_elem_of_nil. by rewrite IH.
  - by rewrite list_lookup_alter_ne.
Qed.

Lemma without_children_app p rs rs' st :
  without_children p rs' (without_children p rs st)
  = without_children p (rs ++ rs') st.
Proof.
  unfold without_children, with_heap. simpl. f_equal.
  rewrite list_alter_alter_eq. apply list_alter_ext; [|done].
  intros n _. simpl.
  transitivity (Dom.with_childNodes
                  (filter (λ c, (c ∉ rs') ∧ (c ∉ rs))) n).
  - destruct n. unfold Dom.with_childNodes. simpl. f_equal.
    apply list_filter_filter.
  - apply with_childNodes_filter. intros c.
    rewrite not_elem_of_app. tauto.
Qed.

(** One removal that succeeds. *)
Lemma remove_one_run p pn id r st :
  heap st !! p = Some pn → getNode id st = Some r →
  r ∈ Dom.childNodes pn →
  remove_one p id st = (Ok (), without_children p [r] st).
Proof.
  intros Hp Hid Hin. unfold remove_one, deref. rewrite Hid, dom_run.
  unfold Dom.removeChild. rewrite Hp.
  rewrite bool_decide_eq_true_2 by done. simpl.
  unfold without_children. f_equal. f_equal. apply list_alter_ext; [|done].
  intros n _. apply with_childNodes_filter. intros c.
  by rewrite list_elem_of_singleton.
Qed.

(** The removals that succeed, in the order of the loop. *)
Lemma removal_loop p (ids : list NodeOrId) :
  ∀ rs st pn,
    heap st !! p = Some pn →
    Forall2 (λ id r, getNode id st = Some r) ids rs →
    NoDup rs → rs ⊆ Dom.childNodes pn →
    forM_ (remove_one p) ids st = (Ok (), without_children p rs st).
Proof.
  induction ids as [|id ids IH]; intros rs st pn Hp Hres Hnd Hsub.
  - apply Forall2_nil_inv_l in Hres as ->.
    by rewrite without_children_nil.
  - apply Forall2_cons_inv_l in Hres as (r & rs' & Hr & Hres & ->).
    apply NoDup_cons in Hnd as [Hr' Hnd].
    rewrite forM__cons.
    rewrite (bind_Ok _ _ _ _ _ (remove_one_run p pn id r st Hp Hr
                                  (Hsub r (list_elem_of_here _ _)))).
    rewrite (IH rs' _ (Dom.with_childNodes (filter (λ c, c ∉ [r])) pn)).
    + by rewrite without_children_app.
    + unfold without_children. simpl.
      by rewrite list_lookup_alter_eq, Hp.
    + eapply Forall2_impl; [exact Hres|]. intros x y Hxy.
      by rewrite (getNode_NODES x st).
    + exact Hnd.
    + intros c Hc. destruct pn; simpl. apply list_elem_of_filter. split.
      * rewrite list_elem_of_singleton. by intros ->.
      * apply (Hsub c). by right.
Qed.

Lemma without_children_rev p rs st :
  without_children p (reverse rs) st = without_children p rs st.
Proof.
  unfold without_children. f_equal. apply list_alter_ext; [|done].
  intros n _. apply with_childNodes_filter. intros c.
  by rewrite elem_of_reverse.
Qed.

(** A removal that fails: the node is unbound, or is not a child of
    the target. *)
Lemma remove_one_fails p pn bad st :
  heap st !! p = Some pn →
  (getNode bad st = None → remove_one p bad st = (Throw TypeError, st))
  ∧ (∀ c, getNode bad st = Some c → c ∉ Dom.childNodes pn →
          remove_one p bad st = (Throw NotFoundError, st)).
Proof.
  intros Hp. unfold remove_one, deref. split.
  - intros ->. rewrite dom_run. unfold Dom.removeChild. rewrite Hp. simpl.
    by rewrite with_heap_same.
  - intros c -> Hc. rewrite dom_run. unfold Dom.removeChild. rewrite Hp.
    rewrite bool_decide_eq_false_2 by done. simpl.
    by rewrite with_heap_same.
Qed.

Lemma forM__app {S A} (f : A → JS S ()) (l1 l2 : list A) (st : S) :
  forM_ f (l1 ++ l2) st
  = match forM_ f l1 st with
    | (Ok _, st') => forM_ f l2 st'
    | (Throw e, st') => (Throw e, st')
    end.
Proof.
  revert st. induction l1 as [|x l1 IH]; intros st; [done|].
  simpl app. rewrite !forM__cons, !bind_run.
  destruct (f x st) as [[[]|e] st1]; [apply IH|done].
Qed.

(** X25. The removals of a child-list record are made from the end of
    [removedNodes] and are not undone. Let the last ids of the list
    resolve to pairwise different children of the target. When they are
    the whole list and the record adds nothing, the record returns
    normally with these children removed. When an id precedes them that
    is unbound, or bound to a node that is not (or, being one of those
    removed, no longer) a child of the target, the record raises a
    TypeError or a NotFoundError; the children that were removed stay
    removed, and the ids before it are not looked at. Removed nodes stay
    in the identity map. *)
Theorem childList_removes_from_the_end (m : MutationRecord) (st : State)
    (p : Dom.NodeRef) (pn : Dom.DomNode)
    (before after : list NodeOrId) (rs : list Dom.NodeRef)
    (Htype : type m = "childList")
    (Htarget : getNode (target m) st = Some p)
    (Hnode : heap st !! p = Some pn)
    (Hremoved : removedNodes m = Some (before ++ after))
    (Hresolved : Forall2 (λ id r, getNode id st = Some r) after rs)
    (Hchildren : rs ⊆ Dom.childNodes pn)
    (Hnodup : NoDup rs) :
  let removed := without_children p rs st in
  NODES removed = NODES st
  ∧ (before = [] → default [] (addedNodes m) = [] →
     MUTATIONS m st = (Ok (), removed))
  ∧ (∀ before' bad, before = before' ++ [bad] →
       (getNode bad st = None →
        MUTATIONS m st = (Throw TypeError, removed))
       ∧ (∀ c, getNode bad st = Some c →
               c ∉ Dom.childNodes pn ∨ c ∈ rs →
               MUTATIONS m st = (Throw NotFoundError, removed))).
Proof.
  intros removed. split; [done|].
  assert (Hloop : forM_ (remove_one p) (rev after) st = (Ok (), removed)).
  { rewrite rev_alt. change (rev_append after []) with (reverse after).
    rewrite (removal_loop p (reverse after) (reverse rs) st pn).
    - by rewrite without_children_rev.
    - done.
    - by apply Forall2_reverse.
    - by rewrite reverse_Permutation.
    - intros c Hc. apply Hchildren. by apply elem_of_reverse. }
  assert (Hp' : heap removed !! p
                = Some (Dom.with_childNodes (filter (λ c, c ∉ rs)) pn)).
  { subst removed. unfold without_children. simpl.
    by rewrite list_lookup_alter_eq, Hnode. }
  rewrite MUTATIONS_childList_run by done.
  unfold MUTATIONS_childList. cbv zeta. rewrite Htarget, Hremoved.
  fold (remove_one p). split.
  - intros -> Hadd. simpl app. rewrite (bind_Ok _ _ _ _ _ Hloop).
    destruct (addedNodes m) as [l|]; [|done]. simpl in Hadd. by subst l.
  - intros before' bad ->.
    rewrite rev_app_distr, rev_app_distr. simpl app.
    destruct (remove_one_fails p _ bad removed Hp') as [Hnone Hbad].
    rewrite (getNode_NODES bad st removed) in Hnone, Hbad by done.
    split.
    + intros Hb. apply bind_Throw.
      rewrite forM__app, Hloop, forM__cons.
      by apply bind_Throw, Hnone.
    + intros c Hb Hc. apply bind_Throw.
      rewrite forM__app, Hloop, forM__cons.
      apply bind_Throw, (Hbad c Hb).
      destruct pn; simpl. rewrite list_elem_of_filter. tauto.
Qed.

End ChildListRemoves.

(** A record that removes, from "p1", an unbound node and the two
    children. *)
Definition remove_all_of_p1 : Renderer.MutationRecord :=
  {| Renderer.type := "childList"; Renderer.target := Renderer.Id "p1";
     Renderer.removedNodes :=
       Some [Renderer.Id "ghost"; Renderer.Id "x"; Renderer.Id "t1"];
     Renderer.addedNodes := None;
     Renderer.previousSibling := Renderer.Falsy;
     Renderer.nextSibling := Renderer.Falsy;
     Renderer.attributeName := ""; Renderer.propertyName := "";
     Renderer.value := ""; Renderer.oldValue := None;
     Renderer.timestamp := 0 |}.

Lemma childList_removes_from_the_end_witness :
  let r := Renderer.MUTATIONS (platform := lenient_platform)
             remove_all_of_p1 hydrated_state in
  r.1 = Throw TypeError
  ∧ Dom.childNodes <$> Renderer.heap r.2 !! 1 = Some []
  ∧ Renderer.NODES r.2 !! "x" = Some 3.
Proof.
  intros r.
  assert (Hres : Forall2 (λ id n, Renderer.getNode
                                    (platform := lenient_platform) id
                                    hydrated_state = Some n)
                   [Renderer.Id "x"; Renderer.Id "t1"] [3; 4]).
  { apply Forall2_cons. split; [reflexivity|].
    apply Forall2_cons. split; [reflexivity|]. apply Forall2_nil_2. }
  destruct (childList_removes_from_the_end (platform := lenient_platform)
              remove_all_of_p1 hydrated_state 1 (element "DIV" [3; 4])
              [Renderer.Id "ghost"] [Renderer.Id "x"; Renderer.Id "t1"]
              [3; 4] eq_refl eq_refl eq_refl eq_refl Hres)
    as (_ & _ & Hfail).
  { intros c Hc. exact Hc. }
  { apply NoDup_cons. split; [intros Hin; apply list_elem_of_singleton in Hin;
                              discriminate|].
    apply NoDup_singleton. }
  destruct (Hfail [] (Renderer.Id "ghost") eq_refl) as [Hnone _].
  unfold r. rewrite (Hnone eq_refl).
  split; [reflexivity|]. split; vm_compute; reflexivity.
Defined.

(** *** A child-list record that adds a bound node *)

Section ChildListMoves.
Import Renderer.
Context {platform : Platform}.

(** Where [insertBefore] puts the node. *)
Lemma insert_before_split (c : Dom.NodeRef) (ref : option Dom.NodeRef)
    (l : list Dom.NodeRef) :
  ∃ l1 l2, Dom.insert_before c ref l = l1 ++ c :: l2
           ∧ l = l1 ++ l2
           ∧ match ref with
             | None => l2 = []
             | Some x => x ∈ l → head l2 = Some x ∧ x ∉ l1
             end.
Proof.
  destruct ref as [x|]; simpl.
  - induction l as [|y l IH]; simpl.
    + exists [], []. split; [done|]. split; [done|].
      intros H. by apply elem_of_nil in H.
    + destruct (decide (y = x)) as [->|Hne].
      * exists [], (x :: l). split; [done|]. split; [done|].
        intros _. split; [done|]. apply not_elem_of_nil.
      * destruct IH as (l1 & l2 & -> & -> & Hx).
        exists (y :: l1), l2. split; [done|]. split; [done|].
        intros Hin. apply elem_of_cons in Hin as [->|Hin]; [done|].
        destruct (Hx Hin) as [Hh Hl1]. split; [done|].
        rewrite not_elem_of_cons. done.
  - exists l, []. by rewrite app_nil_r.
Qed.

Lemma detach_lookup (c r : Dom.NodeRef) (d : Dom.Dom) :
  Dom.detach c d !! r
  = Dom.with_childNodes (filter (λ x, x ≠ c)) <$> d !! r.
Proof. unfold Dom.detach. by rewrite list_lookup_fmap. Qed.

(** X26. A child-list record with one added node that is bound already, no
    node to remove, for a target that resolves to an element of which
    the node is not an ancestor (and whose child the next sibling is, if
    it resolves). The record returns normally, with no node created and
    no sanitizer call: the node is taken out of the child list that held
    it and put into the target's, before the next sibling or, without
    one, at the end; afterwards the target is the only node that lists
    it, once, and the other children of the target keep their order. *)
Theorem childList_moves_bound_node (m : MutationRecord) (st : State)
    (a : Skeleton.t) (p c : Dom.NodeRef) (pn : Dom.DomNode)
    (Htype : type m = "childList")
    (Hremoved : default [] (removedNodes m) = [])
    (Hadded : addedNodes m = Some [a])
    (Htarget : getNode (target m) st = Some p)
    (Hnode : heap st !! p = Some pn)
    (Helement : Dom.nodeType pn = Dom.ELEMENT_NODE)
    (Hbound : getNode (serialized a) st = Some c)
    (Hc : c < length (heap st))
    (Hacyclic : Dom.inclusive_ancestor (length (heap st)) (heap st) c p
                = false)
    (Hanchor : ∀ x, anchor (nextSibling m) st = Some x →
                    x ∈ Dom.childNodes pn) :
  ∃ st' l1 l2,
    MUTATIONS m st = (Ok (), st')
    ∧ Dom.childNodes <$> heap st' !! p = Some (l1 ++ c :: l2)
    ∧ l1 ++ l2 = filter (λ x, x ≠ c) (Dom.childNodes pn)
    ∧ match anchor (nextSibling m) st with
      | None => l2 = []
      | Some x => x ≠ c → head l2 = Some x ∧ x ∉ l1
      end
    ∧ (∀ r n, heap st' !! r = Some n → c ∈ Dom.childNodes n → r = p)
    ∧ (∀ r, r ≠ p →
         heap st' !! r
         = Dom.with_childNodes (filter (λ x, x ≠ c)) <$> heap st !! r)
    ∧ length (heap st') = length (heap st)
    ∧ NODES st' = NODES st
    ∧ sanitized st' = sanitized st.
Proof.
  set (ref := anchor (nextSibling m) st) in *.
  set (ref' := if bool_decide (ref = Some c)
               then Dom.next_sibling c (Dom.childNodes pn) else ref).
  set (d' := alter (Dom.with_childNodes (Dom.insert_before c ref')) p
               (Dom.detach c (heap st))).
  assert (Hrun : MUTATIONS m st = (Ok (), with_heap d' st)).
  { rewrite MUTATIONS_childList_run by done.
    unfold MUTATIONS_childList. cbv zeta. rewrite Htarget, Hadded.
    assert (Hrem : (match removedNodes m with
                    | Some removed =>
                        forM_ (λ r, deref (Some p) (λ p0 st0,
                                 dom (Dom.removeChild p0 (getNode r st0)) st0))
                          (rev removed)
                    | None => ret ()
                    end) st = (Ok (), st)).
    { destruct (removedNodes m) as [l|]; [|done]. simpl in Hremoved.
      by subst l. }
    rewrite (bind_Ok _ _ _ _ _ Hrem).
    rewrite forM__cons, bind_run, bind_run, Hbound. simpl.
    rewrite dom_run. fold ref. unfold Dom.insertBefore.
    destruct (lookup_lt_is_Some_2 _ _ Hc) as [cn Hcn].
    rewrite Hnode, Hcn, Helement, Hacyclic. simpl.
    assert (Hchild : match ref with
                     | Some x => bool_decide (x ∈ Dom.childNodes pn)
                     | None => true
                     end = true).
    { destruct ref as [x|] eqn:Hx; [|done].
      apply bool_decide_eq_true_2, Hanchor. done. }
    by rewrite Hchild. }
  assert (Hpc : p ≠ c).
  { intros ->. destruct (length (heap st)); simpl in Hacyclic;
      by rewrite bool_decide_eq_true_2 in Hacyclic. }
  assert (Hp' : d' !! p
                = Some (Dom.with_childNodes
                          (λ _, Dom.insert_before c ref'
                                  (filter (λ x, x ≠ c) (Dom.childNodes pn)))
                          pn)).
  { subst d'. rewrite list_lookup_alter_eq, detach_lookup, Hnode. simpl.
    by destruct pn. }
  destruct (insert_before_split c ref'
              (filter (λ x, x ≠ c) (Dom.childNodes pn)))
    as (l1 & l2 & Hins & Hsplit & Hwhere).
  exists (with_heap d' st), l1, l2.
  split; [exact Hrun|]. simpl.
  split; [rewrite Hp'; simpl; by rewrite Hins|].
  split; [done|].
  split; [|split; [|split; [|split; [|done]]]].
  - destruct ref as [x|] eqn:Hx.
    + intros Hxc. subst ref'.
      rewrite bool_decide_eq_false_2 in Hwhere by congruence.
      apply Hwhere. apply list_elem_of_filter. split; [done|].
      by apply Hanchor.
    + subst ref'. by rewrite bool_decide_eq_false_2 in Hwhere by done.
  - intros r n Hr Hin. destruct (decide (r = p)) as [|Hne]; [done|].
    subst d'. rewrite list_lookup_alter_ne, detach_lookup in Hr by done.
    destruct (heap st !! r) as [n0|]; simplify_eq/=.
    destruct n0; simpl in Hin.
    apply list_elem_of_filter in Hin as [Hin _]. done.
  - intros r Hr. subst d'.
    by rewrite list_lookup_alter_ne, detach_lookup.
  - subst d'. rewrite length_alter. unfold Dom.detach.
    by rewrite length_fmap.
Qed.

End ChildListMoves.

(** The record that moves the SPAN "x" into "p2", before "t2". *)
Definition move_x_to_p2 : Renderer.MutationRecord :=
  {| Renderer.type := "childList"; Renderer.target := Renderer.Id "p2";
     Renderer.removedNodes := None;
     Renderer.addedNodes := Some [x_skeleton];
     Renderer.previousSibling := Renderer.Falsy;
     Renderer.nextSibling := Renderer.Id "t2";
     Renderer.attributeName := ""; Renderer.propertyName := "";
     Renderer.value := ""; Renderer.oldValue := None;
     Renderer.timestamp := 0 |}.

Lemma childList_moves_bound_node_witness :
  ∃ st',
    Renderer.MUTATIONS (platform := lenient_platform) move_x_to_p2
      hydrated_state = (Ok (), st')
    ∧ Dom.childNodes <$> Renderer.heap st' !! 2 = Some [3; 5]
    ∧ Dom.childNodes <$> Renderer.heap st' !! 1 = Some [4].
Proof.
  destruct (childList_moves_bound_node (platform := lenient_platform)
              move_x_to_p2 hydrated_state x_skeleton 2 3
              (element "DIV" [5])
              eq_refl eq_refl eq_refl eq_refl eq_refl eq_refl eq_refl)
    as (st' & l1 & l2 & Hrun & _).
  { simpl. lia. }
  { vm_compute. reflexivity. }
  { intros x Hx. injection Hx as <-. apply list_elem_of_here. }
  exists st'. split; [exact Hrun|].
  vm_compute in Hrun. injection Hrun as <-. split; reflexivity.
Defined.
